(** * A shallow embedding of the [Queue] class of @schie/queue

    The class is a single-consumer task runner.  Its public methods run
    synchronously; its private [processLoop] is an [async] function, that is a
    coroutine that suspends at each [await].  The embedding keeps the fields of
    the class as a record, writes every method as a function on that record,
    and splits [processLoop] at its three [await]s into the segments that run
    between two suspensions.  A small scheduler ([step]) picks which suspended
    piece of code runs next, as the JavaScript job queue does.

    Line numbers are those of the file of the class.

    Conventions.
    - A task is an [async] function supplied by the caller, so that a failure
      reaches the loop as a rejection at its [await].  What the queue can see
      of a task is: the calls it makes on the queue while it runs, and whether
      its promise fulfils or rejects.  A task is therefore a name (to trace
      executions), a body (the queue methods it calls synchronously when
      invoked) and an outcome.  Calls a task makes after an [await] of its own
      are indistinguishable, for the queue, from calls made by any other
      caller while the task is in flight; those are the [Call] events.
    - [onStatusChange] is modelled as an observer that does not call the
      queue back: [notified] lists the arguments of the successive
      [this.onStatusChange?.(s)] invocations.
    - The order in which the JavaScript job queue runs the jobs that are
      ready is left open: every event that is enabled may be the next one.
    - [version] is a JavaScript number that is only ever incremented by one;
      it is a [nat] here. *)

From Stdlib Require Import Lia.
From stdpp Require Import base decidable option list strings.

Open Scope string_scope.
Open Scope list_scope.

(** ** Data *)

(** Modelled from the spec: the enum [QueueStatus], which the class imports
    from [./_enums.ts], a file that is not among the sources.  The spec gives
    the status four mutually exclusive values, the four the class uses. *)
Inductive QueueStatus := Idle | Processing | Paused | Cancelled.

#[global] Instance QueueStatus_eq_dec : EqDecision QueueStatus.
Proof. solve_decision. Defined.

(** A JavaScript [Error]; only its message is observed. *)
Record Error := mkError { message : string }.

(** Values a task can throw that are not instances of [Error]: those
    primitives whose string form is immediate (numbers, symbols and other
    objects are left out). *)
Inductive Primitive :=
| PString (s : string)
| PBoolean (b : bool)
| PUndefined
| PNull.

Inductive Thrown :=
| ThrownError (e : Error)
| ThrownValue (p : Primitive).

(** [String(err)] on a primitive. *)
Definition String_ (p : Primitive) : string :=
  match p with
  | PString s => s
  | PBoolean true => "true"
  | PBoolean false => "false"
  | PUndefined => "undefined"
  | PNull => "null"
  end.

(** [err instanceof Error ? err : new Error(String(err))] (line 231). *)
Definition toError (err : Thrown) : Error :=
  match err with
  | ThrownError e => e
  | ThrownValue p => mkError (String_ p)
  end.

(** How the promise returned by a task settles. *)
Inductive Outcome :=
| Fulfils
| Rejects (err : Thrown).

(** The public methods, and tasks, which may call them. *)
Inductive Op :=
| AddTask (task : Task) (dedupeKey : option string)
| AddNextTask (task : Task)
| PauseQueue
| ResumeQueue
| CancelQueue
| ClearQueue
| ClearLastError
with Task :=
| mkTask (name : nat) (body : list Op) (outcome : Outcome).

Definition name (t : Task) : nat := let 'mkTask n _ _ := t in n.
Definition body (t : Task) : list Op := let 'mkTask _ b _ := t in b.
Definition outcome (t : Task) : Outcome := let 'mkTask _ _ o := t in o.

(** [type QueueEntry = { task, key? }]. *)
Record QueueEntry := mkEntry { task : Task; key : option string }.

Inductive Position := front | end_.

#[global] Instance Position_eq_dec : EqDecision Position.
Proof. solve_decision. Defined.

(** Where a [processLoop] coroutine stands. *)
Inductive LoopState :=
| Running                        (* on the call stack, inside [entry.task()] *)
| AwaitTask (o : Outcome)        (* suspended at line 227 *)
| AwaitResume (released : bool)  (* suspended at line 216 or 233 *)
| Returned (finalized : bool).   (* done; [finalized] once [.finally] ran *)

Record Loop := mkLoop { currentVersion : nat; at_ : LoopState }.

(** A task body being executed synchronously on behalf of loop [floop].
    [fstart] is set when the loop was entered from [startRunner], whose
    assignment to [this.runner] (line 208) is still to come. *)
Record Frame := mkFrame {
  floop : nat;
  fcalls : list Op;
  foutcome : Outcome;
  fstart : bool
}.

(** The fields of the class, then the coroutines and the call stack, then
    three observers: [assigned] lists the values written to [_status] since
    construction, [notified] the arguments received by [onStatusChange], and
    [executed] the names of the tasks invoked, each oldest first. *)
Record Queue := mkQueue {
  queue : list QueueEntry;
  _status : QueueStatus;
  runner : option nat;
  resumeResolve : option nat;
  lastError : option Error;
  pauseOnError : bool;
  currentTaskKey : option string;
  version : nat;
  loops : list Loop;
  stack : list Frame;
  assigned : list QueueStatus;
  notified : list QueueStatus;
  executed : list nat
}.

(** Field assignments.  The one to [_status] is recorded in [assigned]. *)
Definition set_queue (x : list QueueEntry) (q : Queue) : Queue :=
  mkQueue x (_status q) (runner q) (resumeResolve q) (lastError q)
    (pauseOnError q) (currentTaskKey q) (version q) (loops q) (stack q)
    (assigned q) (notified q) (executed q).
Definition set__status (x : QueueStatus) (q : Queue) : Queue :=
  mkQueue (queue q) x (runner q) (resumeResolve q) (lastError q)
    (pauseOnError q) (currentTaskKey q) (version q) (loops q) (stack q)
    (assigned q ++ [x]) (notified q) (executed q).
Definition set_runner (x : option nat) (q : Queue) : Queue :=
  mkQueue (queue q) (_status q) x (resumeResolve q) (lastError q)
    (pauseOnError q) (currentTaskKey q) (version q) (loops q) (stack q)
    (assigned q) (notified q) (executed q).
Definition set_resumeResolve (x : option nat) (q : Queue) : Queue :=
  mkQueue (queue q) (_status q) (runner q) x (lastError q)
    (pauseOnError q) (currentTaskKey q) (version q) (loops q) (stack q)
    (assigned q) (notified q) (executed q).
Definition set_lastError (x : option Error) (q : Queue) : Queue :=
  mkQueue (queue q) (_status q) (runner q) (resumeResolve q) x
    (pauseOnError q) (currentTaskKey q) (version q) (loops q) (stack q)
    (assigned q) (notified q) (executed q).
Definition set_currentTaskKey (x : option string) (q : Queue) : Queue :=
  mkQueue (queue q) (_status q) (runner q) (resumeResolve q) (lastError q)
    (pauseOnError q) x (version q) (loops q) (stack q)
    (assigned q) (notified q) (executed q).
Definition set_version (x : nat) (q : Queue) : Queue :=
  mkQueue (queue q) (_status q) (runner q) (resumeResolve q) (lastError q)
    (pauseOnError q) (currentTaskKey q) x (loops q) (stack q)
    (assigned q) (notified q) (executed q).
Definition set_loops (x : list Loop) (q : Queue) : Queue :=
  mkQueue (queue q) (_status q) (runner q) (resumeResolve q) (lastError q)
    (pauseOnError q) (currentTaskKey q) (version q) x (stack q)
    (assigned q) (notified q) (executed q).
Definition set_stack (x : list Frame) (q : Queue) : Queue :=
  mkQueue (queue q) (_status q) (runner q) (resumeResolve q) (lastError q)
    (pauseOnError q) (currentTaskKey q) (version q) (loops q) x
    (assigned q) (notified q) (executed q).
Definition set_notified (x : list QueueStatus) (q : Queue) : Queue :=
  mkQueue (queue q) (_status q) (runner q) (resumeResolve q) (lastError q)
    (pauseOnError q) (currentTaskKey q) (version q) (loops q) (stack q)
    (assigned q) x (executed q).
Definition set_executed (x : list nat) (q : Queue) : Queue :=
  mkQueue (queue q) (_status q) (runner q) (resumeResolve q) (lastError q)
    (pauseOnError q) (currentTaskKey q) (version q) (loops q) (stack q)
    (assigned q) (notified q) x.

(** ** The class *)

(** [this.onStatusChange?.(s)]. *)
Definition onStatusChange (s : QueueStatus) (q : Queue) : Queue :=
  set_notified (notified q ++ [s]) q.

(** [new Queue({ pauseOnError })] (lines 43-48). *)
Definition new_Queue (pauseOnError : bool) : Queue :=
  onStatusChange Idle
    (mkQueue [] Idle None None None pauseOnError None 0 [] [] [] [] []).

Definition status (q : Queue) : QueueStatus := _status q.

(** Lines 57-62. *)
Definition setStatus (next : QueueStatus) (q : Queue) : Queue :=
  if bool_decide (_status q ≠ next)
  then onStatusChange next (set__status next q)
  else q.

Definition isProcessing (q : Queue) : bool := bool_decide (_status q = Processing).
Definition isPaused (q : Queue) : bool := bool_decide (_status q = Paused).
Definition isCancelled (q : Queue) : bool := bool_decide (_status q = Cancelled).
Definition isIdle (q : Queue) : bool := bool_decide (_status q = Idle).

Definition size (q : Queue) : nat := length (queue q).

Definition lastTaskError (q : Queue) : option Error := lastError q.

(** Lines 106-108. *)
Definition clearLastError (q : Queue) : Queue := set_lastError None q.

(** Calling the function stored in [resumeResolve], if any: it resolves the
    promise a loop awaits, which makes that loop runnable again.  Resolving a
    promise that is already resolved does nothing. *)
Definition call_resumeResolve (q : Queue) : Queue :=
  match resumeResolve q with
  | None => q
  | Some lid =>
      match loops q !! lid with
      | Some (mkLoop cv (AwaitResume _)) =>
          set_loops (<[lid := mkLoop cv (AwaitResume true)]> (loops q)) q
      | _ => q
      end
  end.

(** [await new Promise((resolve) => (this.resumeResolve = resolve))]
    (lines 216 and 233): loop [lid] suspends. *)
Definition await_resume (lid cv : nat) (q : Queue) : Queue :=
  set_loops (<[lid := mkLoop cv (AwaitResume false)]> (loops q))
    (set_resumeResolve (Some lid) q).

(** Lines 240-249, then the coroutine returns. *)
Definition processLoop_exit (lid cv : nat) (q : Queue) : Queue :=
  let q :=
    if bool_decide (version q ≠ cv) then q
    else if isCancelled q then q
    else setStatus Idle q in
  set_loops (<[lid := mkLoop cv (Returned false)]> (loops q)) q.

(** A coroutine that suspends or returns hands control back to its caller.
    When the caller is [startRunner], the assignment of line 208 then stores
    the promise in [this.runner]. *)
Definition yield_to_caller (start : bool) (lid : nat) (q : Queue) : Queue :=
  if start then set_runner (Some lid) q else q.

(** One pass of the [while] of [processLoop] (lines 214-227), from its
    condition to the next suspension: either the loop blocks on the resume
    signal, or it returns, or it calls [entry.task()], whose body is pushed on
    the call stack.  [start] tells that the loop is being entered from
    [startRunner]. *)
Definition processLoop_iterate (lid cv : nat) (start : bool) (q : Queue) : Queue :=
  if negb (isCancelled q) && bool_decide (version q = cv) then
    if isPaused q then yield_to_caller start lid (await_resume lid cv q)
    else
      match queue q with
      | [] => yield_to_caller start lid (processLoop_exit lid cv q)
      | entry :: rest =>
          let q := set_queue rest q in
          if isCancelled q || bool_decide (version q ≠ cv)
          then yield_to_caller start lid (processLoop_exit lid cv q)
          else
            let q := set_currentTaskKey (key entry) q in
            let q := set_executed (executed q ++ [name (task entry)]) q in
            set_stack
              (mkFrame lid (body (task entry)) (outcome (task entry)) start
                 :: stack q)
              (set_loops (<[lid := mkLoop cv Running]> (loops q)) q)
      end
  else yield_to_caller start lid (processLoop_exit lid cv q).

(** [processLoop] resumed after [await entry.task()] (lines 227-237), up to
    its next suspension. *)
Definition processLoop_settled (lid cv : nat) (o : Outcome) (q : Queue) : Queue :=
  match o with
  | Fulfils =>
      processLoop_iterate lid cv false (set_currentTaskKey None q)
  | Rejects err =>
      let q := set_currentTaskKey None q in
      if pauseOnError q then
        let q := set_lastError (Some (toError err)) q in
        let q := setStatus Paused q in
        await_resume lid cv q
      else
        processLoop_iterate lid cv false (set_currentTaskKey None q)
  end.

(** [processLoop(currentVersion)] called: a new coroutine runs up to its first
    suspension. *)
Definition processLoop (currentVersion : nat) (q : Queue) : Queue :=
  let lid := length (loops q) in
  processLoop_iterate lid currentVersion true
    (set_loops (loops q ++ [mkLoop currentVersion Running]) q).

(** Lines 200-211. *)
Definition startRunner (q : Queue) : Queue :=
  if bool_decide (runner q ≠ None) then q
  else if isCancelled q || bool_decide (length (queue q) = 0) then
    setStatus (if isCancelled q then Cancelled else Idle) q
  else
    let q := setStatus Processing q in
    let currentVersion := version q in
    processLoop currentVersion q.

(** A dedupe key is tested for truthiness (line 139): [undefined] and the
    empty string are falsy. *)
Definition truthy (dedupeKey : option string) : bool :=
  match dedupeKey with
  | Some s => negb (bool_decide (s = ""))
  | None => false
  end.

(** Lines 140-141. *)
Definition lastKey (q : Queue) : option string :=
  if bool_decide (0 < length (queue q))
  then match last (queue q) with Some e => key e | None => None end
  else currentTaskKey q.

(** Lines 133-137. *)
Definition resurrect (q : Queue) : Queue :=
  if isCancelled q then
    let q := set_version (S (version q)) q in
    let q := set__status Idle q in
    onStatusChange Idle q
  else q.

(** Lines 148-152. *)
Definition insert_entry (position : Position) (e : QueueEntry) (q : Queue) : Queue :=
  match position with
  | front => set_queue (e :: queue q) q
  | end_ => set_queue (queue q ++ [e]) q
  end.

(** Lines 131-154. *)
Definition enqueue (task : Task) (position : Position)
    (dedupeKey : option string) (q : Queue) : Queue :=
  let q := resurrect q in
  if bool_decide (position = end_) && truthy dedupeKey
     && bool_decide (lastKey q = dedupeKey)
  then
    if isIdle q && bool_decide (0 < length (queue q)) then startRunner q else q
  else
    let q := insert_entry position (mkEntry task dedupeKey) q in
    if isIdle q then startRunner q else q.

(** Lines 120-122. *)
Definition addTask (task : Task) (dedupeKey : option string) (q : Queue) : Queue :=
  enqueue task end_ dedupeKey q.

(** Lines 127-129. *)
Definition addNextTask (task : Task) (q : Queue) : Queue :=
  enqueue task front None q.

(** Lines 159-161. *)
Definition pauseQueue (q : Queue) : Queue :=
  if isProcessing q then setStatus Paused q else q.

(** Lines 166-174. *)
Definition resumeQueue (q : Queue) : Queue :=
  let q :=
    if isPaused q then
      let q := set_lastError None q in
      let q := setStatus Processing q in
      let q := call_resumeResolve q in
      set_resumeResolve None q
    else q in
  if isIdle q && bool_decide (0 < length (queue q)) then startRunner q else q.

(** Lines 179-187. *)
Definition cancelQueue (q : Queue) : Queue :=
  if isCancelled q then q
  else
    let q := setStatus Cancelled q in
    let q := set_queue [] q in
    let q := set_currentTaskKey None q in
    let q := set_version (S (version q)) q in
    let q := call_resumeResolve q in
    set_resumeResolve None q.

(** Lines 192-198. *)
Definition clearQueue (q : Queue) : Queue :=
  let q := set_queue [] q in
  if negb (isProcessing q) && negb (isPaused q) && negb (isCancelled q) then
    let q := set_currentTaskKey None q in
    setStatus Idle q
  else q.

(** A call of a public method. *)
Definition call (op : Op) (q : Queue) : Queue :=
  match op with
  | AddTask t k => addTask t k q
  | AddNextTask t => addNextTask t q
  | PauseQueue => pauseQueue q
  | ResumeQueue => resumeQueue q
  | CancelQueue => cancelQueue q
  | ClearQueue => clearQueue q
  | ClearLastError => clearLastError q
  end.

(** ** Scheduling

    JavaScript runs one job to completion before the next.  While a task body
    is on the call stack, the only thing that can happen is its next statement
    ([Tick]).  Otherwise any caller may call a method ([Call]), and any
    coroutine whose awaited promise has settled may continue. *)
Inductive Event :=
| Call (op : Op)          (* a caller outside the running task calls a method *)
| Tick                    (* the task body on top of the stack goes on *)
| TaskSettled (lid : nat) (* the task awaited by loop [lid] has settled *)
| Resumed (lid : nat)     (* loop [lid] continues after the resume signal *)
| Finally (lid : nat).    (* the [.finally] callback of loop [lid] runs *)

(** The next statement of the task body [f], on top of the stack [fs]: its
    next call on the queue, or its end, at which [processLoop] suspends at
    line 227 on the promise the task returned. *)
Definition tick (f : Frame) (fs : list Frame) (q : Queue) : Queue :=
  match fcalls f with
  | c :: cs =>
      call c (set_stack (mkFrame (floop f) cs (foutcome f) (fstart f) :: fs) q)
  | [] =>
      let cv :=
        match loops q !! floop f with
        | Some l => currentVersion l
        | None => 0
        end in
      let q := set_stack fs q in
      let q := set_loops (<[floop f := mkLoop cv (AwaitTask (foutcome f))]> (loops q)) q in
      yield_to_caller (fstart f) (floop f) q
  end.

Definition step (e : Event) (q : Queue) : option Queue :=
  match stack q, e with
  | f :: fs, Tick => Some (tick f fs q)
  | _ :: _, _ => None
  | [], Tick => None
  | [], Call op => Some (call op q)
  | [], TaskSettled lid =>
      match loops q !! lid with
      | Some (mkLoop cv (AwaitTask o)) => Some (processLoop_settled lid cv o q)
      | _ => None
      end
  | [], Resumed lid =>
      match loops q !! lid with
      | Some (mkLoop cv (AwaitResume true)) =>
          Some (processLoop_iterate lid cv false q)
      | _ => None
      end
  | [], Finally lid =>
      match loops q !! lid with
      | Some (mkLoop cv (Returned false)) =>
          Some (set_runner None
                  (set_loops (<[lid := mkLoop cv (Returned true)]> (loops q)) q))
      | _ => None
      end
  end.

(** A schedule is a list of events; it is feasible when each is enabled. *)
Fixpoint run (es : list Event) (q : Queue) : option Queue :=
  match es with
  | [] => Some q
  | e :: es' =>
      match step e q with
      | Some q' => run es' q'
      | None => None
      end
  end.


(** What a caller can observe of a queue. *)
Definition observe (q : Queue) :=
  (notified q, executed q, status q, size q, lastTaskError q).

(** ** The scenarios of [__tests__/queue.test.ts]

    Each test is written as the schedule it gives rise to.  The two tests
    that overwrite private members of the queue ('process loop bails when
    cancellation occurs between pulls' and 'internal helpers short-circuit
    when cancelled or empty') are left out. *)
Module Tests.

Definition plain (n : nat) : Task := mkTask n [] Fulfils.
Definition throws (n : nat) (msg : string) : Task :=
  mkTask n [] (Rejects (ThrownError (mkError msg))).

(** 'runs tasks sequentially and returns to idle' *)
Definition sequential : list Event :=
  [Call (AddTask (plain 1) None); Tick; Call (AddTask (plain 2) None);
   TaskSettled 0; Tick; TaskSettled 0; Finally 0].

(** 'pauses and resumes processing, clearing errors when resuming' *)
Definition pause_then_throw : list Event :=
  [Call PauseQueue;
   Call (AddTask (mkTask 1 [PauseQueue] (Rejects (ThrownError (mkError "boom")))) None);
   Tick; Tick;
   Call (AddTask (plain 2) None);
   TaskSettled 0].
Definition pause_then_throw_resumed : list Event :=
  pause_then_throw ++ [Call ResumeQueue; Resumed 0; Tick; TaskSettled 0; Finally 0].

(** 'swallows errors when pauseOnError is disabled and continues processing' *)
Definition swallow : list Event :=
  [Call (AddTask (throws 1 "should not pause") None); Tick;
   Call (AddTask (plain 2) None);
   TaskSettled 0; Tick; TaskSettled 0; Finally 0].

(** 'honors pauseOnError flag via options object' *)
Definition oops : list Event :=
  [Call (AddTask (throws 1 "oops") None); Tick; TaskSettled 0].
Definition oops_resumed : list Event :=
  oops ++ [Call ResumeQueue; Resumed 0; Finally 0].

(** 'cancel stops processing, prevents stale idle transitions, and
    resurrects cleanly' *)
Definition cancel_inside : list Event :=
  [Call (AddTask (mkTask 1 [CancelQueue] Fulfils) None); Tick; Tick;
   TaskSettled 0; Finally 0].
Definition cancel_inside_resurrected : list Event :=
  cancel_inside ++ [Call (AddTask (plain 2) None); Tick; TaskSettled 1; Finally 1].

(** 'queues work added during idle notification and restarts runner': the
    follow-up is added after the loop set [Idle] and before its [.finally]
    callback ran. *)
Definition added_while_finalizing : list Event :=
  [Call (AddTask (plain 1) None); Tick; TaskSettled 0;
   Call (AddTask (plain 2) None); Finally 0].
Definition added_while_finalizing_resumed : list Event :=
  added_while_finalizing ++ [Call ResumeQueue; Tick; TaskSettled 1; Finally 1].

(** 'clearQueue respects current status and reasserts idle when safe' *)
Definition clear_inside : list Event :=
  [Call (AddTask (mkTask 1 [ClearQueue] Fulfils) None); Tick; Tick;
   Call (AddTask (throws 2 "should be cleared") None);
   TaskSettled 0; Tick; TaskSettled 0; Finally 0; Call ClearQueue].

(** 'addNextTask reorders pending work without preempting the current task' *)
Definition next_inside : list Event :=
  [Call (AddTask (mkTask 1 [AddTask (plain 3) None; AddNextTask (plain 2)] Fulfils) None);
   Tick; Tick; Tick;
   TaskSettled 0; Tick; TaskSettled 0; Tick; TaskSettled 0; Finally 0].

(** 'addNextTask resurrects after cancellation' *)
Definition next_resurrects : list Event :=
  [Call CancelQueue; Call (AddNextTask (plain 1)); Tick; TaskSettled 0; Finally 0].

(** 'addNextTask respects paused queues and runs first after resume' *)
Definition next_paused : list Event :=
  [Call (AddTask (mkTask 1 [PauseQueue] Fulfils) None); Tick; Tick;
   Call (AddTask (plain 3) None); Call (AddNextTask (plain 2));
   TaskSettled 0;
   Call ResumeQueue; Resumed 0; Tick; TaskSettled 0; Tick; TaskSettled 0;
   Finally 0].

(** 'captures non-error rejections when pausing on errors' *)
Definition string_error : list Event :=
  [Call (AddTask (mkTask 1 [] (Rejects (ThrownValue (PString "string-error")))) None);
   Tick; TaskSettled 0].

End Tests.


(** ** Notions used by the statements *)

(** No two neighbours of the list are equal. *)
Fixpoint no_repeat (l : list QueueStatus) : Prop :=
  match l with
  | a :: (b :: _) as l' => a ≠ b ∧ no_repeat l'
  | _ => True
  end.

(** The callback has received the initial [Idle] and then exactly the values
    written to [_status]; each write changed the value; the last one is the
    current status. *)
Definition notify_inv (q : Queue) : Prop :=
  notified q = Idle :: assigned q ∧
  last (Idle :: assigned q) = Some (_status q) ∧
  no_repeat (Idle :: assigned q).

(** A cancelled queue holds no pending entry and no current key. *)
Definition cancelled_inv (q : Queue) : Prop :=
  _status q = Cancelled → queue q = [] ∧ currentTaskKey q = None.

(** The method an event calls, if it calls one: a [Call] from outside, or
    the next call of the task body that is running. *)
Definition called (e : Event) (q : Queue) : option Op :=
  match e, stack q with
  | Call op, [] => Some op
  | Tick, f :: _ => head (fcalls f)
  | _, _ => None
  end.

(** The value with which a task fails, if the event is that failure being
    delivered to the loop that awaits the task. *)
Definition failing (e : Event) (q : Queue) : option Thrown :=
  match e, stack q with
  | TaskSettled lid, [] =>
      match loops q !! lid with
      | Some (mkLoop _ (AwaitTask (Rejects err))) => Some err
      | _ => None
      end
  | _, _ => None
  end.

(** Nothing happens any more unless a caller calls a method. *)
Definition settled (q : Queue) : Prop :=
  ∀ e, (∀ op, e ≠ Call op) → step e q = None.

(** Loop [lid] is of the live generation and awaits its in-flight task, which
    will settle as [o]; the queue is [Processing] and no task body is on the
    call stack. *)
Definition awaiting (lid : nat) (o : Outcome) (q : Queue) : Prop :=
  stack q = [] ∧ _status q = Processing ∧
  loops q !! lid = Some (mkLoop (version q) (AwaitTask o)).

(** Not a call of a method that adds to the pending collection or empties
    it. *)
Definition quiet (c : option Op) : Prop :=
  match c with
  | Some (AddTask _ _) | Some (AddNextTask _) | Some CancelQueue
  | Some ClearQueue => False
  | _ => True
  end.

(** Along the schedule [es] from [q], no method is called that adds to the
    pending collection or empties it, be it by a caller or by a task that is
    running. *)
Fixpoint quietly (es : list Event) (q : Queue) : Prop :=
  match es with
  | [] => True
  | e :: es' =>
      quiet (called e q)
      ∧ match step e q with
        | Some q1 => quietly es' q1
        | None => True
        end
  end.

(** From [q] to [q'] the trace of executions was only extended. *)
Definition grows (q q' : Queue) : Prop :=
  ∃ more, executed q' = executed q ++ more.

(** From [q] to [q'] either nothing was executed and the pending collection
    is as it was, or the entry at the front of the pending collection was
    taken and its task invoked, and nothing else. *)
Definition pulls_front (q q' : Queue) : Prop :=
  (executed q' = executed q ∧ queue q' = queue q)
  ∨ (∃ e rest, queue q = e :: rest ∧ executed q' = executed q ++ [name (task e)]).

(** A failure of a task that settles as [o] does not pause the queue. *)
Definition harmless (q : Queue) (o : Outcome) : Prop :=
  pauseOnError q = false ∨ o = Fulfils.

(** ** Submitting a batch *)

Definition Submission : Type := Task * option string.

Definition entry_of (s : Submission) : QueueEntry := mkEntry s.1 s.2.

Definition submit (s : Submission) : Event := Call (AddTask s.1 s.2).

(** The submissions that adjacent-duplicate suppression lets through, when
    [k0] is the key they are first compared with. *)
Fixpoint accepted (k0 : option string) (subs : list Submission) : list Submission :=
  match subs with
  | [] => []
  | s :: rest =>
      if truthy s.2 && bool_decide (k0 = s.2)
      then accepted k0 rest
      else s :: accepted s.2 rest
  end.

(** [n] rounds of: the in-flight task settles, the loop pulls the next entry
    and invokes its task, whose body returns. *)
Fixpoint rounds (lid n : nat) : list Event :=
  match n with
  | 0 => []
  | S n' => TaskSettled lid :: Tick :: rounds lid n'
  end.

(** The submissions are made back to back, the first of them starting loop
    [lid]; then the loop runs until the pending collection is drained and the
    loop has wound down. *)
Definition batch (lid : nat) (subs : list Submission) : list Event :=
  match subs with
  | [] => []
  | s :: rest =>
      submit s :: Tick :: map submit rest
        ++ rounds lid (length (accepted s.2 rest))
        ++ [TaskSettled lid; Finally lid]
  end.

(** The queue is idle and at rest: nothing is pending or in flight, no loop
    is registered as the runner and no task body is running. *)
Definition at_rest (q : Queue) : Prop :=
  stack q = [] ∧ runner q = None ∧ _status q = Idle ∧ queue q = []
  ∧ currentTaskKey q = None.

(** ** Concrete queues *)
Module Scenario.

Definition after (es : list Event) (pauseOnError : bool) : Queue :=
  default (new_Queue pauseOnError) (run es (new_Queue pauseOnError)).

(** A queue cancelled by its only caller. *)
Definition cancelled : Queue :=
  Eval vm_compute in after [Call CancelQueue] false.

(** A queue cancelled from inside a task, then resurrected by a second
    task, which has run. *)
Definition resurrected : Queue :=
  Eval vm_compute in after Tests.cancel_inside_resurrected false.

(** A queue paused by the failure of its first task, the second pending. *)
Definition paused_on_error : Queue :=
  Eval vm_compute in after Tests.pause_then_throw true.

(** Task 1, which fails with the string "boom", is in flight; task 2 is
    pending. *)
Definition boom_in_flight (pauseOnError : bool) : Queue :=
  after
    [Call (AddTask (mkTask 1 [] (Rejects (ThrownValue (PString "boom")))) None);
     Tick; Call (AddTask (Tests.plain 2) None)] pauseOnError.

(** Task 1 is in flight; tasks 2 (key "a") and 3 (key "b") are pending. *)
Definition two_pending : list Event :=
  [Call (AddTask (Tests.plain 1) None); Tick;
   Call (AddTask (Tests.plain 2) (Some "a"));
   Call (AddTask (Tests.plain 3) (Some "b"))].
Definition busy : Queue :=
  Eval vm_compute in after two_pending false.

(** Task 1 is in flight; task 2, submitted with the empty key, is pending. *)
Definition empty_key_pending : list Event :=
  [Call (AddTask (Tests.plain 1) None); Tick;
   Call (AddTask (Tests.plain 2) (Some ""))].
Definition busy_empty_key : Queue :=
  Eval vm_compute in after empty_key_pending false.

(** Under [pauseOnError], task 1 has cancelled the queue from inside and
    is in flight; it is going to fail. *)
Definition cancel_then_fail : list Event :=
  [Call (AddTask (mkTask 1 [CancelQueue] (Rejects (ThrownError (mkError "late")))) None);
   Tick; Tick].
Definition cancelled_inside : Queue :=
  Eval vm_compute in after cancel_then_fail true.

(** The failure is delivered; a caller resumes the queue; the loop winds
    down; task 2 is submitted. *)
Definition resume_after_late_failure : list Event :=
  [TaskSettled 0; Call ResumeQueue; Resumed 0; Finally 0;
   Call (AddTask (Tests.plain 2) None)].
Definition wedged : Queue :=
  Eval vm_compute in
    default cancelled_inside (run resume_after_late_failure cancelled_inside).

(** The queue was cancelled by a caller while task 1 is in flight. *)
Definition cancel_in_flight : list Event :=
  [Call (AddTask (Tests.plain 1) None); Tick; Call CancelQueue].
Definition cancelled_in_flight : Queue :=
  Eval vm_compute in after cancel_in_flight false.

(** Task 2 is submitted to it before task 1 has settled; then task 1
    settles and its loop winds down. *)
Definition resurrect_early : list Event :=
  [Call (AddTask (Tests.plain 2) None); TaskSettled 0; Finally 0].
Definition resurrected_early : Queue :=
  Eval vm_compute in
    default cancelled_in_flight (run resurrect_early cancelled_in_flight).

(** Two submissions with the same key, back to back. *)
Definition twins : list Submission :=
  [(Tests.plain 1, Some "k"); (Tests.plain 2, Some "k")].
Definition after_twins : Queue :=
  Eval vm_compute in after (batch 0 twins) false.

End Scenario.

(** ** The order of execution *)

(** The names of the pending tasks, front first. *)
Definition pending_names (q : Queue) : list nat := name ∘ task <$> queue q.

(** The tasks executed so far, then the pending ones: the order in which
    the tasks have run and are due to run. *)
Definition agenda (q : Queue) : list nat := executed q ++ pending_names q.

(** The test of lines 139-142 on a queue that is not [Cancelled]: a
    submission with key [k] at the back is left out. *)
Definition suppressed (k : option string) (q : Queue) : bool :=
  truthy k && bool_decide (lastKey q = k).

(** The task that a call submits. *)
Definition submitted_by (c : option Op) : list nat :=
  match c with
  | Some (AddTask t _) | Some (AddNextTask t) => [name t]
  | _ => []
  end.

(** The tasks submitted along a schedule, by callers or by running tasks,
    in the order of the calls. *)
Fixpoint submitted (es : list Event) (q : Queue) : list nat :=
  match es with
  | [] => []
  | e :: es' =>
      submitted_by (called e q)
      ++ match step e q with
         | Some q1 => submitted es' q1
         | None => []
         end
  end.

(** The task that a call of [addTask] submits, unless the call is
    suppressed as an adjacent duplicate. *)
Definition accepted_by (c : option Op) (q : Queue) : list nat :=
  match c with
  | Some (AddTask t k) => if suppressed k q then [] else [name t]
  | _ => []
  end.

(** The tasks submitted with [addTask] along a schedule and not suppressed,
    in the order of the calls. *)
Fixpoint accepted_along (es : list Event) (q : Queue) : list nat :=
  match es with
  | [] => []
  | e :: es' =>
      accepted_by (called e q) q
      ++ match step e q with
         | Some q1 => accepted_along es' q1
         | None => []
         end
  end.

(** A call that is no submission with a truthy dedupe key and no call of
    [addNextTask]. *)
Definition unkeyed (c : option Op) : Prop :=
  match c with
  | Some (AddTask _ k) => truthy k = false
  | Some (AddNextTask _) => False
  | _ => True
  end.

(** Along the schedule no dedupe key is given, or only the empty one. *)
Fixpoint keyless (es : list Event) (q : Queue) : Prop :=
  match es with
  | [] => True
  | e :: es' =>
      unkeyed (called e q)
      ∧ match step e q with
        | Some q1 => keyless es' q1
        | None => True
        end
  end.

(** From [q] to [q'] the first [k] pending entries were taken, in order,
    and their tasks invoked, and nothing else happened to the pending
    collection and to the trace. *)
Definition takes (q q' : Queue) : Prop :=
  ∃ k, executed q' = executed q ++ (name ∘ task <$> take k (queue q))
       ∧ queue q' = drop k (queue q).

(** ** Schedules that only submit *)

(** A task that does nothing to the queue but submit tasks with [addTask],
    themselves of that kind, and whose failure does not pause the queue:
    it fulfils, or [pauseOnError] ([p]) is off. *)
Fixpoint orderly (p : bool) (t : Task) : bool :=
  match t with
  | mkTask _ b o =>
      match o with Fulfils => true | Rejects _ => negb p end
      && forallb (λ c, match c with
                       | AddTask t' _ => orderly p t'
                       | _ => false
                       end) b
  end.

Definition orderly_op (p : bool) (c : Op) : bool :=
  match c with AddTask t _ => orderly p t | _ => false end.

(** The number of steps the loop needs for a task: one to take its entry,
    one for each call of its body, plus what the tasks it submits need, and
    one for its end. *)
Fixpoint weight (t : Task) : nat :=
  match t with
  | mkTask _ b _ =>
      2 + list_sum (map (λ c, match c with
                             | AddTask t' _ => S (weight t')
                             | _ => 1
                             end) b)
  end.

Definition op_weight (c : Op) : nat :=
  match c with AddTask t _ => S (weight t) | _ => 1 end.

(** What is left to do for the pending tasks and the task bodies that are
    running. *)
Definition work (q : Queue) : nat :=
  list_sum (weight ∘ task <$> queue q)
  + list_sum ((λ f, S (list_sum (op_weight <$> fcalls f))) <$> stack q).

(** Every loop but [lid] has returned and its [.finally] callback has
    run. *)
Definition others_done (lid : nat) (q : Queue) : Prop :=
  ∀ i l, i ≠ lid → loops q !! i = Some l → at_ l = Returned true.

(** The queue is at rest: it is [Idle], no task body is running, no loop is
    left or registered as the runner, and nothing is pending. *)
Definition resting (q : Queue) : Prop :=
  stack q = [] ∧ _status q = Idle ∧ runner q = None ∧ currentTaskKey q = None
  ∧ queue q = [] ∧ Forall (λ l, at_ l = Returned true) (loops q).

(** Loop [lid], the only one left, is invoking a task: the body of the task
    is running, with the calls [cs] still to make. *)
Definition invoking (lid : nat) (q : Queue) : Prop :=
  ∃ cs o start,
    stack q = [mkFrame lid cs o start] ∧ _status q = Processing
    ∧ runner q = (if start then None else Some lid)
    ∧ loops q !! lid = Some (mkLoop (version q) Running)
    ∧ others_done lid q ∧ harmless q o
    ∧ forallb (orderly_op (pauseOnError q)) cs = true.

(** Loop [lid], the only one left and the registered runner, awaits the
    task in flight, which will not pause the queue. *)
Definition in_flight (lid : nat) (q : Queue) : Prop :=
  ∃ o, awaiting lid o q ∧ harmless q o ∧ runner q = Some lid
       ∧ others_done lid q.

(** Loop [lid] has set [Idle] and returned with nothing pending, and its
    [.finally] callback has not run yet: the loop is still registered as
    the runner. *)
Definition finalizing (lid : nat) (q : Queue) : Prop :=
  stack q = [] ∧ _status q = Idle ∧ runner q = Some lid
  ∧ currentTaskKey q = None ∧ queue q = []
  ∧ loops q !! lid = Some (mkLoop (version q) (Returned false))
  ∧ others_done lid q.

Definition orderly_queue (q : Queue) : Prop :=
  Forall (λ e, orderly (pauseOnError q) (task e) = true) (queue q).

(** The queue is in one of these four phases, and its pending tasks only
    submit. *)
Definition fifo_inv (q : Queue) : Prop :=
  orderly_queue q
  ∧ (resting q ∨ ∃ lid, invoking lid q ∨ in_flight lid q ∨ finalizing lid q).

(** What a caller may do in a schedule that only submits: call [addTask]
    with a task that only submits, and not in the window in which the queue
    is [Idle] with a loop still registered as the runner. *)
Definition admissible (q : Queue) (e : Event) : Prop :=
  match e with
  | Call (AddTask t _) =>
      orderly (pauseOnError q) t = true ∧ (_status q = Idle → runner q = None)
  | Call _ => False
  | _ => True
  end.

Fixpoint submitting (es : list Event) (q : Queue) : Prop :=
  match es with
  | [] => True
  | e :: es' =>
      admissible q e
      ∧ match step e q with
        | Some q1 => submitting es' q1
        | None => True
        end
  end.

(** ** A loop left behind *)

(** Loop [lid], of generation [cv], is blocked on the resume signal and the
    resume slot does not hold its resolver; no task body runs on its
    behalf. *)
Definition forsaken (lid cv : nat) (q : Queue) : Prop :=
  loops q !! lid = Some (mkLoop cv (AwaitResume false))
  ∧ resumeResolve q ≠ Some lid
  ∧ Forall (λ f, floop f ≠ lid) (stack q).

(** ** The current-task key *)

(** The pending collection as a loop finds it when the event [e] makes it
    run: with the entry that [e] submits, if it submits one. *)
Definition offered (e : Event) (q : Queue) : list QueueEntry :=
  match called e q with
  | Some (AddTask t k) =>
      if suppressed k q then queue q else queue q ++ [mkEntry t k]
  | Some (AddNextTask t) => mkEntry t None :: queue q
  | _ => queue q
  end.

(** The events that clear the current-task key: a task settles (lines 229
    and 237), [cancelQueue] is called on a queue that is not [Cancelled]
    (line 183), [clearQueue] is called on an idle queue (line 195). *)
Definition clears_key (e : Event) (q : Queue) : bool :=
  match called e q with
  | Some CancelQueue => negb (isCancelled q)
  | Some ClearQueue => isIdle q
  | Some _ => false
  | None => match e with TaskSettled _ => true | _ => false end
  end.

(** From [q] to [q'] either a loop took the entry at the front and made its
    key the current one, or nothing was executed and the pending collection
    and the current key are as they were. *)
Definition marks (q q' : Queue) : Prop :=
  (∃ e0 rest, queue q = e0 :: rest
     ∧ executed q' = executed q ++ [name (task e0)]
     ∧ queue q' = rest ∧ currentTaskKey q' = key e0)
  ∨ (executed q' = executed q ∧ queue q' = queue q
     ∧ currentTaskKey q' = currentTaskKey q).

(** ** A paused queue *)

(** A call that does not end a pause: any but [resumeQueue] and
    [cancelQueue]. *)
Definition holding (c : option Op) : Prop :=
  match c with
  | Some ResumeQueue | Some CancelQueue => False
  | _ => True
  end.

(** Along the schedule neither [resumeQueue] nor [cancelQueue] is called, by
    a caller or by a running task. *)
Fixpoint held (es : list Event) (q : Queue) : Prop :=
  match es with
  | [] => True
  | e :: es' =>
      holding (called e q)
      ∧ match step e q with
        | Some q1 => held es' q1
        | None => True
        end
  end.

(** ** A cancelled queue *)

(** An event that submits no task and is not the failure of a task under
    [pauseOnError]. *)
Definition inert (q : Queue) (e : Event) : Prop :=
  match called e q with
  | Some (AddTask _ _) | Some (AddNextTask _) => False
  | _ => pauseOnError q = true → failing e q = None
  end.

(** Along the schedule no task is submitted, by a caller or by a running
    task, and no task fails under [pauseOnError]. *)
Fixpoint dormant (es : list Event) (q : Queue) : Prop :=
  match es with
  | [] => True
  | e :: es' =>
      inert q e
      ∧ match step e q with
        | Some q1 => dormant es' q1
        | None => True
        end
  end.

(** ** One loop at a time *)

(** The coroutine has returned. *)
Definition returned (st : LoopState) : bool :=
  match st with Returned _ => true | _ => false end.

(** A loop is live when it has not returned and its generation is the one
    of the queue: the test of line 214 may still succeed for it. *)
Definition live (q : Queue) (l : Loop) : Prop :=
  currentVersion l = version q ∧ returned (at_ l) = false.

(** No loop is ahead of the generation of the queue; at most one loop is
    live, and only while the queue is [Processing] or [Paused]; the loop of a
    task body that is running has not returned. *)
Definition single_inv (q : Queue) : Prop :=
  (∀ i l, loops q !! i = Some l → (currentVersion l ≤ version q)%nat)
  ∧ (∀ i j li lj, loops q !! i = Some li → loops q !! j = Some lj →
       live q li → live q lj → i = j)
  ∧ (∀ i l, loops q !! i = Some l → live q l →
       _status q = Processing ∨ _status q = Paused)
  ∧ (∀ f, f ∈ stack q →
       ∃ l, loops q !! floop f = Some l ∧ returned (at_ l) = false).

(** ** More concrete queues *)
Module Cases.
Import Scenario.

(** On the queue cancelled while task 1 is in flight, task 2 is submitted
    with [addNextTask] before task 1 has settled; then task 1 settles and
    its loop winds down. *)
Definition next_early : list Event :=
  [Call (AddNextTask (Tests.plain 2)); TaskSettled 0; Finally 0].
Definition stranded_next : Queue :=
  Eval vm_compute in
    default cancelled_in_flight (run next_early cancelled_in_flight).

(** Under [pauseOnError], task 1 cancels the queue, submits task 2 and
    fails.  Its failure is delivered first, then task 2 settles. *)
Definition overlap : list Event :=
  [Call (AddTask (mkTask 1 [CancelQueue; AddTask (Tests.plain 2) None]
                    (Rejects (ThrownError (mkError "late")))) None);
   Tick; Tick; Tick; Tick; TaskSettled 0; TaskSettled 1].
Definition two_blocked : Queue :=
  Eval vm_compute in after overlap true.

(** Task 1 is submitted, the queue is cancelled, task 2 is submitted, as
    in [cancel_in_flight] and [resurrect_early], but the cancellation is
    made once task 1 has settled and its loop has wound down. *)
Definition cancel_at_rest : list Event :=
  [Call (AddTask (Tests.plain 1) None); Tick; TaskSettled 0; Finally 0;
   Call CancelQueue;
   Call (AddTask (Tests.plain 2) None); Tick; TaskSettled 1; Finally 1].

(** Task 1, submitted with key "k", is in flight and nothing is pending. *)
Definition keyed_in_flight : Queue :=
  Eval vm_compute in
    after [Call (AddTask (Tests.plain 1) (Some "k")); Tick] false.
(** The queue is then cancelled while task 1 is still in flight. *)
Definition keyed_cancelled : Queue :=
  Eval vm_compute in cancelQueue keyed_in_flight.

(** Task 1 has settled and its loop has set [Idle] and returned; task 2 is
    submitted with key "k" before the [.finally] callback of the loop has
    run. *)
Definition dup_in_window : Queue :=
  Eval vm_compute in
    after [Call (AddTask (Tests.plain 1) None); Tick; TaskSettled 0;
           Call (AddTask (Tests.plain 2) (Some "k"))] false.
(** Then the callback runs. *)
Definition dup_stranded : Queue :=
  Eval vm_compute in default dup_in_window (run [Finally 0] dup_in_window).

(** Submissions spread over the life of the queue: task 1 runs to the end
    and the loop winds down; task 2, which submits task 6 from inside, is
    submitted; tasks 3 and 4 are submitted with the same key while task 2 is
    in flight; task 2 settles and task 6 is taken; task 5 is submitted. *)
Definition spread : list Event :=
  [Call (AddTask (Tests.plain 1) None); Tick; TaskSettled 0; Finally 0;
   Call (AddTask (mkTask 2 [AddTask (Tests.plain 6) None] Fulfils) None);
   Tick; Tick;
   Call (AddTask (Tests.plain 3) (Some "k"));
   Call (AddTask (Tests.plain 4) (Some "k"));
   TaskSettled 1; Tick;
   Call (AddTask (Tests.plain 5) None)].
Definition spread_out : Queue :=
  Eval vm_compute in after spread false.

(** Task 2 was submitted after the loop of task 1 had set [Idle] and before
    its [.finally] callback ran; the callback has run since. *)
Definition late : Queue :=
  Eval vm_compute in after Tests.added_while_finalizing false.

(** Under [pauseOnError], task 1 fails while task 2 is pending; no method
    but [addTask] was called. *)
Definition failed_first : list Event :=
  [Call (AddTask (Tests.throws 1 "boom") None); Tick;
   Call (AddTask (Tests.plain 2) None); TaskSettled 0].
Definition paused_by_failure : Queue :=
  Eval vm_compute in after failed_first true.

(** From [busy]: task 1 settles and task 2 is taken; the queue is paused
    while task 2 is in flight, and resumed once it has settled; task 3 is
    taken. *)
Definition pause_between : list Event :=
  [TaskSettled 0; Tick; Call PauseQueue; TaskSettled 0; Call ResumeQueue;
   Resumed 0; Tick].
Definition busy_drained : Queue :=
  Eval vm_compute in default busy (run pause_between busy).

(** The queue is paused while task 1 is in flight, tasks 2 and 3 pending. *)
Definition paused_busy : Queue :=
  Eval vm_compute in pauseQueue busy.
(** Then task 1 settles, task 4 is submitted and the stored error is
    cleared. *)
Definition while_paused : list Event :=
  [TaskSettled 0; Call (AddTask (Tests.plain 4) None); Call ClearLastError].
Definition still_paused : Queue :=
  Eval vm_compute in default paused_busy (run while_paused paused_busy).

(** On the queue cancelled while task 1 is in flight: [resumeQueue] is
    called, task 1 settles, its loop winds down, [clearQueue] is called. *)
Definition while_cancelled : list Event :=
  [Call ResumeQueue; TaskSettled 0; Finally 0; Call ClearQueue].
Definition still_cancelled : Queue :=
  Eval vm_compute in
    default cancelled_in_flight (run while_cancelled cancelled_in_flight).

End Cases.

(** * Properties *)

(** ** The model against the test suite

    Each scenario of [__tests__/queue.test.ts] yields the notifications, the
    execution order, the status, the size and the last error the test
    expects. *)
Section TestSuite.
Import Tests.

Example test_sequential :
  observe <$> run sequential (new_Queue false)
  = Some ([Idle; Processing; Idle], [1; 2], Idle, 0, None).
Proof. reflexivity. Qed.

Example test_pause_then_throw :
  observe <$> run pause_then_throw (new_Queue true)
  = Some ([Idle; Processing; Paused], [1], Paused, 1, Some (mkError "boom")).
Proof. reflexivity. Qed.

Example test_pause_then_throw_resumed :
  observe <$> run pause_then_throw_resumed (new_Queue true)
  = Some ([Idle; Processing; Paused; Processing; Idle], [1; 2], Idle, 0, None).
Proof. reflexivity. Qed.

Example test_swallow :
  observe <$> run swallow (new_Queue false)
  = Some ([Idle; Processing; Idle], [1; 2], Idle, 0, None).
Proof. reflexivity. Qed.

Example test_oops :
  observe <$> run oops (new_Queue true)
  = Some ([Idle; Processing; Paused], [1], Paused, 0, Some (mkError "oops")).
Proof. reflexivity. Qed.

Example test_oops_resumed :
  observe <$> run oops_resumed (new_Queue true)
  = Some ([Idle; Processing; Paused; Processing; Idle], [1], Idle, 0, None).
Proof. reflexivity. Qed.

Example test_cancel_inside :
  observe <$> run cancel_inside (new_Queue false)
  = Some ([Idle; Processing; Cancelled], [1], Cancelled, 0, None).
Proof. reflexivity. Qed.

Example test_cancel_inside_resurrected :
  observe <$> run cancel_inside_resurrected (new_Queue false)
  = Some ([Idle; Processing; Cancelled; Idle; Processing; Idle], [1; 2],
          Idle, 0, None).
Proof. reflexivity. Qed.

Example test_added_while_finalizing :
  observe <$> run added_while_finalizing (new_Queue false)
  = Some ([Idle; Processing; Idle], [1], Idle, 1, None).
Proof. reflexivity. Qed.

Example test_added_while_finalizing_resumed :
  observe <$> run added_while_finalizing_resumed (new_Queue false)
  = Some ([Idle; Processing; Idle; Processing; Idle], [1; 2], Idle, 0, None).
Proof. reflexivity. Qed.

Example test_clear_inside :
  observe <$> run clear_inside (new_Queue false)
  = Some ([Idle; Processing; Idle], [1; 2], Idle, 0, None).
Proof. reflexivity. Qed.

Example test_next_inside :
  observe <$> run next_inside (new_Queue false)
  = Some ([Idle; Processing; Idle], [1; 2; 3], Idle, 0, None).
Proof. reflexivity. Qed.

Example test_next_resurrects :
  observe <$> run next_resurrects (new_Queue false)
  = Some ([Idle; Cancelled; Idle; Processing; Idle], [1], Idle, 0, None).
Proof. reflexivity. Qed.

Example test_next_paused :
  observe <$> run next_paused (new_Queue false)
  = Some ([Idle; Processing; Paused; Processing; Idle], [1; 2; 3], Idle, 0,
          None).
Proof. reflexivity. Qed.

Example test_string_error :
  observe <$> run string_error (new_Queue true)
  = Some ([Idle; Processing; Paused], [1], Paused, 0,
          Some (mkError "string-error")).
Proof. reflexivity. Qed.

Example test_cancel_twice :
  observe <$> run [Call CancelQueue; Call CancelQueue] (new_Queue false)
  = Some ([Idle; Cancelled], [], Cancelled, 0, None).
Proof. reflexivity. Qed.

End TestSuite.

(** ** Reading and writing fields *)

(** Decide the tests of an unfolded method one after the other. *)
Ltac branches :=
  repeat first
    [ progress simpl in *
    | case_bool_decide
    | case_match ].

Lemma setStatus_change (s : QueueStatus) (q : Queue) :
  _status q ≠ s → setStatus s q = onStatusChange s (set__status s q).
Proof. intros H. unfold setStatus. by rewrite bool_decide_true. Qed.

Lemma status_setStatus (s : QueueStatus) (q : Queue) :
  _status (setStatus s q) = s.
Proof. unfold setStatus. case_bool_decide; simpl; [done | naive_solver]. Qed.

Lemma lastError_setStatus (s : QueueStatus) (q : Queue) :
  lastError (setStatus s q) = lastError q.
Proof. unfold setStatus. by case_match. Qed.

Lemma queue_setStatus (s : QueueStatus) (q : Queue) :
  queue (setStatus s q) = queue q.
Proof. unfold setStatus. by case_match. Qed.

Lemma runner_setStatus (s : QueueStatus) (q : Queue) :
  runner (setStatus s q) = runner q.
Proof. unfold setStatus. by case_match. Qed.

Lemma resumeResolve_setStatus (s : QueueStatus) (q : Queue) :
  resumeResolve (setStatus s q) = resumeResolve q.
Proof. unfold setStatus. by case_match. Qed.

Lemma pauseOnError_setStatus (s : QueueStatus) (q : Queue) :
  pauseOnError (setStatus s q) = pauseOnError q.
Proof. unfold setStatus. by case_match. Qed.

Lemma currentTaskKey_setStatus (s : QueueStatus) (q : Queue) :
  currentTaskKey (setStatus s q) = currentTaskKey q.
Proof. unfold setStatus. by case_match. Qed.

Lemma version_setStatus (s : QueueStatus) (q : Queue) :
  version (setStatus s q) = version q.
Proof. unfold setStatus. by case_match. Qed.

Lemma loops_setStatus (s : QueueStatus) (q : Queue) :
  loops (setStatus s q) = loops q.
Proof. unfold setStatus. by case_match. Qed.

Lemma stack_setStatus (s : QueueStatus) (q : Queue) :
  stack (setStatus s q) = stack q.
Proof. unfold setStatus. by case_match. Qed.

Lemma executed_setStatus (s : QueueStatus) (q : Queue) :
  executed (setStatus s q) = executed q.
Proof. unfold setStatus. by case_match. Qed.

Create Rewrite HintDb fields.

#[export] Hint Rewrite queue_setStatus runner_setStatus resumeResolve_setStatus
  pauseOnError_setStatus currentTaskKey_setStatus version_setStatus
  loops_setStatus stack_setStatus executed_setStatus lastError_setStatus
  status_setStatus : fields.

(** Compute the fields of a queue written with [setStatus] and assignments. *)
Ltac fields := repeat (progress (simpl; autorewrite with fields)).

(** ** Cancellation *)

(** X4.  What [cancelQueue] does.  It has no effect at all on a queue that
    is already [Cancelled], so a second call changes nothing and fires
    nothing.  On any other queue it sets the status to [Cancelled] and fires
    that one notification, empties the pending collection (size 0), clears
    the current-task key, increments the generation, empties the resume slot
    and releases the loop whose resolver the slot held; the other loops and
    the other fields are as they were. *)
Theorem cancelQueue_effect (q : Queue) :
  (status q = Cancelled → cancelQueue q = q) ∧
  (status q ≠ Cancelled →
     status (cancelQueue q) = Cancelled ∧
     notified (cancelQueue q) = notified q ++ [Cancelled] ∧
     queue (cancelQueue q) = [] ∧
     size (cancelQueue q) = 0 ∧
     currentTaskKey (cancelQueue q) = None ∧
     version (cancelQueue q) = S (version q) ∧
     resumeResolve (cancelQueue q) = None ∧
     (∀ lid cv released,
        resumeResolve q = Some lid →
        loops q !! lid = Some (mkLoop cv (AwaitResume released)) →
        loops (cancelQueue q) !! lid = Some (mkLoop cv (AwaitResume true))) ∧
     (∀ lid, resumeResolve q ≠ Some lid →
        loops (cancelQueue q) !! lid = loops q !! lid) ∧
     runner (cancelQueue q) = runner q ∧
     lastTaskError (cancelQueue q) = lastTaskError q ∧
     pauseOnError (cancelQueue q) = pauseOnError q ∧
     stack (cancelQueue q) = stack q ∧
     executed (cancelQueue q) = executed q) ∧
  cancelQueue (cancelQueue q) = cancelQueue q.
Proof.
  assert (Hdone : ∀ q', status q' = Cancelled → cancelQueue q' = q').
  { intros q' H. unfold cancelQueue, isCancelled.
    by rewrite bool_decide_true. }
  assert (Hst : status q ≠ Cancelled → status (cancelQueue q) = Cancelled).
  { intros H. unfold cancelQueue, isCancelled, call_resumeResolve, setStatus.
    rewrite bool_decide_false by done.
    destruct q; branches; done. }
  split; [apply Hdone|]. split.
  - intros H. split; [by apply Hst|].
    clear Hdone Hst.
    unfold cancelQueue, isCancelled. rewrite bool_decide_false by done.
    rewrite setStatus_change by done.
    unfold call_resumeResolve, lastTaskError, size.
    destruct q as [qu st rn rr le poe ck v ls sk asg ntf ex]; simpl in *.
    repeat split; try (by repeat case_match).
    + intros lid cv released -> Hl. rewrite Hl. simpl.
      apply list_lookup_insert_eq. by eapply lookup_lt_Some.
    + intros lid Hne. repeat case_match; simpl; try done.
      apply list_lookup_insert_ne. congruence.
  - destruct (decide (status q = Cancelled)) as [H|H].
    + by rewrite !(Hdone q H).
    + apply Hdone. by apply Hst.
Qed.

(** The theorem at a queue paused on a failure, whose loop is blocked on the
    resume signal, and at the queue that results. *)
Lemma cancelQueue_effect_witness :
  status Scenario.paused_on_error ≠ Cancelled ∧
  resumeResolve Scenario.paused_on_error = Some 0 ∧
  loops Scenario.paused_on_error !! 0 = Some (mkLoop 0 (AwaitResume false)) ∧
  loops (cancelQueue Scenario.paused_on_error) !! 0
    = Some (mkLoop 0 (AwaitResume true)) ∧
  notified (cancelQueue Scenario.paused_on_error)
    = [Idle; Processing; Paused; Cancelled] ∧
  status (cancelQueue Scenario.paused_on_error) = Cancelled ∧
  cancelQueue (cancelQueue Scenario.paused_on_error)
    = cancelQueue Scenario.paused_on_error.
Proof.
  assert (H1 : status Scenario.paused_on_error ≠ Cancelled) by discriminate.
  assert (H2 : resumeResolve Scenario.paused_on_error = Some 0) by reflexivity.
  assert (H3 : loops Scenario.paused_on_error !! 0
               = Some (mkLoop 0 (AwaitResume false))) by reflexivity.
  destruct (cancelQueue_effect Scenario.paused_on_error) as (_ & Heff & Hidem).
  destruct (Heff H1) as (Hs & Hn & _ & _ & _ & _ & _ & Hrel & _).
  split; [exact H1|]. split; [exact H2|]. split; [exact H3|].
  split; [exact (Hrel 0 0 false H2 H3)|].
  split; [exact Hn|]. split; [exact Hs|]. exact Hidem.
Defined.

(** ** Submission and adjacent-duplicate suppression *)

Lemma truthy_Some (K : string) : K ≠ "" → truthy (Some K) = true.
Proof. intros H. unfold truthy. by rewrite bool_decide_false. Qed.

Lemma queue_resurrect (q : Queue) : queue (resurrect q) = queue q.
Proof. unfold resurrect. by case_match. Qed.

Lemma currentTaskKey_resurrect (q : Queue) :
  currentTaskKey (resurrect q) = currentTaskKey q.
Proof. unfold resurrect. by case_match. Qed.

Lemma lastKey_resurrect (q : Queue) : lastKey (resurrect q) = lastKey q.
Proof.
  unfold lastKey. by rewrite queue_resurrect, currentTaskKey_resurrect.
Qed.

Lemma resurrect_not_cancelled (q : Queue) :
  _status q ≠ Cancelled → resurrect q = q.
Proof. intros H. unfold resurrect, isCancelled. by rewrite bool_decide_false. Qed.

Lemma lastKey_snoc (q : Queue) (es : list QueueEntry) (e : QueueEntry) :
  queue q = es ++ [e] → lastKey q = key e.
Proof.
  intros H. unfold lastKey. rewrite H, last_snoc, length_app. simpl.
  rewrite bool_decide_true by lia. done.
Qed.

Lemma lastKey_nil (q : Queue) : queue q = [] → lastKey q = currentTaskKey q.
Proof. intros H. unfold lastKey. by rewrite H. Qed.

Lemma queue_insert_end (e : QueueEntry) (q : Queue) :
  queue (insert_entry end_ e q) = queue q ++ [e].
Proof. done. Qed.

Lemma queue_insert_front (e : QueueEntry) (q : Queue) :
  queue (insert_entry front e q) = e :: queue q.
Proof. done. Qed.

(** [addTask] when the key under comparison is the submitted one. *)
Lemma addTask_duplicate (t : Task) (K : string) (q : Queue) :
  K ≠ "" → lastKey q = Some K →
  addTask t (Some K) q
  = (if isIdle (resurrect q) && bool_decide (0 < length (queue (resurrect q)))
     then startRunner (resurrect q) else resurrect q).
Proof.
  intros HK Hl. unfold addTask, enqueue.
  rewrite lastKey_resurrect, Hl, truthy_Some by done.
  by rewrite !bool_decide_true by done.
Qed.

(** [addTask] when it is another one, or when the submitted key is falsy. *)
Lemma addTask_inserts (t : Task) (k : option string) (q : Queue) :
  truthy k = false ∨ lastKey q ≠ k →
  addTask t k q
  = (if isIdle (insert_entry end_ (mkEntry t k) (resurrect q))
     then startRunner (insert_entry end_ (mkEntry t k) (resurrect q))
     else insert_entry end_ (mkEntry t k) (resurrect q)).
Proof.
  intros H. unfold addTask, enqueue. rewrite lastKey_resurrect.
  destruct H as [-> | H].
  - by rewrite andb_false_r.
  - by rewrite (bool_decide_false _ H), andb_false_r.
Qed.

(** A method that finds the queue [Processing] or [Paused] starts nothing. *)
Lemma addTask_busy (t : Task) (k : option string) (q : Queue) :
  status q = Processing ∨ status q = Paused →
  addTask t k q
  = (if truthy k && bool_decide (lastKey q = k) then q
     else insert_entry end_ (mkEntry t k) q).
Proof.
  intros H. unfold addTask, enqueue, status in *.
  rewrite resurrect_not_cancelled by (destruct H; congruence).
  rewrite bool_decide_true by done. simpl.
  assert (Hi : ∀ q', _status q' = _status q → isIdle q' = false).
  { intros q' E. unfold isIdle. rewrite E.
    apply bool_decide_false. destruct H; congruence. }
  rewrite !Hi by by destruct q. by case_match.
Qed.

Lemma addNextTask_busy (t : Task) (q : Queue) :
  status q = Processing ∨ status q = Paused →
  addNextTask t q = insert_entry front (mkEntry t None) q.
Proof.
  intros H. unfold addNextTask, enqueue, status in *.
  rewrite resurrect_not_cancelled by (destruct H; congruence).
  simpl. unfold isIdle. rewrite bool_decide_false; [done|].
  destruct q; simpl in *. destruct H; congruence.
Qed.

(** C9.  A call of [addTask] whose dedupe key is absent or the empty string
    always inserts its entry at the back of the pending collection, whatever
    the keys of the last pending entry and of the entry in flight: the
    insertion is made on the (resurrected) queue, then the loop is started if
    the status is [Idle].  In particular, while a task is in flight
    ([Processing] or [Paused]) the pending collection grows by that entry. *)
Theorem addTask_falsy_key_inserts (t : Task) (k : option string) (q : Queue) :
  k = None ∨ k = Some "" →
  queue (insert_entry end_ (mkEntry t k) (resurrect q)) = queue q ++ [mkEntry t k] ∧
  addTask t k q
  = (if isIdle (insert_entry end_ (mkEntry t k) (resurrect q))
     then startRunner (insert_entry end_ (mkEntry t k) (resurrect q))
     else insert_entry end_ (mkEntry t k) (resurrect q)) ∧
  (status q = Processing ∨ status q = Paused →
     queue (addTask t k q) = queue q ++ [mkEntry t k] ∧
     size (addTask t k q) = S (size q)).
Proof.
  intros Hk.
  assert (Hf : truthy k = false) by (destruct Hk as [-> | ->]; done).
  split; [by rewrite queue_insert_end, queue_resurrect|].
  split; [apply addTask_inserts; by left|].
  intros Hs. rewrite addTask_busy, Hf by done. simpl.
  unfold size. simpl. rewrite length_app. simpl. split; [done | lia].
Qed.

(** The theorem at a queue whose only pending entry already carries the empty
    key, a task being in flight. *)
Lemma addTask_falsy_key_inserts_witness :
  (Some "" = None ∨ Some "" = Some "") ∧
  (last (queue Scenario.busy_empty_key) ≫= key) = Some "" ∧
  (status Scenario.busy_empty_key = Processing
   ∨ status Scenario.busy_empty_key = Paused) ∧
  queue (addTask (Tests.plain 3) (Some "") Scenario.busy_empty_key)
  = queue Scenario.busy_empty_key ++ [mkEntry (Tests.plain 3) (Some "")] ∧
  size (addTask (Tests.plain 3) (Some "") Scenario.busy_empty_key) = 2.
Proof.
  assert (Hk : Some "" = None ∨ Some "" = Some "") by (right; reflexivity).
  assert (Hs : status Scenario.busy_empty_key = Processing
               ∨ status Scenario.busy_empty_key = Paused) by (left; reflexivity).
  destruct (addTask_falsy_key_inserts (Tests.plain 3) (Some "")
              Scenario.busy_empty_key Hk) as (_ & _ & H).
  destruct (H Hs) as (Hq & Hn).
  split; [exact Hk|]. split; [reflexivity|]. split; [exact Hs|].
  split; [exact Hq | exact Hn].
Defined.


(** ** The last-error slot *)

Lemma lastError_call_resumeResolve (q : Queue) :
  lastError (call_resumeResolve q) = lastError q.
Proof. unfold call_resumeResolve. by repeat case_match. Qed.

Lemma lastError_yield (start : bool) (lid : nat) (q : Queue) :
  lastError (yield_to_caller start lid q) = lastError q.
Proof. by destruct start. Qed.

Lemma lastError_exit (lid cv : nat) (q : Queue) :
  lastError (processLoop_exit lid cv q) = lastError q.
Proof.
  unfold processLoop_exit. simpl.
  repeat case_match; by rewrite ?lastError_setStatus.
Qed.

Lemma lastError_iterate (lid cv : nat) (start : bool) (q : Queue) :
  lastError (processLoop_iterate lid cv start q) = lastError q.
Proof.
  unfold processLoop_iterate.
  repeat case_match; by rewrite ?lastError_yield, ?lastError_exit.
Qed.

Lemma lastError_startRunner (q : Queue) :
  lastError (startRunner q) = lastError q.
Proof.
  unfold startRunner, processLoop.
  repeat case_match;
    by rewrite ?lastError_iterate; simpl; rewrite ?lastError_setStatus.
Qed.

Lemma lastError_enqueue (t : Task) (p : Position) (k : option string) (q : Queue) :
  lastError (enqueue t p k q) = lastError q.
Proof.
  unfold enqueue, resurrect, insert_entry.
  repeat case_match; by rewrite ?lastError_startRunner.
Qed.

Lemma lastError_pauseQueue (q : Queue) : lastError (pauseQueue q) = lastError q.
Proof. unfold pauseQueue. case_match; by rewrite ?lastError_setStatus. Qed.

Lemma lastError_cancelQueue (q : Queue) : lastError (cancelQueue q) = lastError q.
Proof.
  unfold cancelQueue. case_match; [done|]. simpl.
  by rewrite lastError_call_resumeResolve; simpl; rewrite lastError_setStatus.
Qed.

Lemma lastError_clearQueue (q : Queue) : lastError (clearQueue q) = lastError q.
Proof. unfold clearQueue. case_match; by rewrite ?lastError_setStatus. Qed.

Lemma lastError_resumeQueue (q : Queue) :
  lastError (resumeQueue q) = if isPaused q then None else lastError q.
Proof.
  unfold resumeQueue.
  repeat case_match; rewrite ?lastError_startRunner; simpl;
    by rewrite ?lastError_call_resumeResolve; simpl; rewrite ?lastError_setStatus.
Qed.

Lemma lastError_call (op : Op) (q : Queue) :
  lastError (call op q)
  = match op with
    | ClearLastError => None
    | ResumeQueue => if isPaused q then None else lastError q
    | _ => lastError q
    end.
Proof.
  destruct op; simpl; unfold addTask, addNextTask;
    auto using lastError_enqueue, lastError_pauseQueue, lastError_resumeQueue,
      lastError_cancelQueue, lastError_clearQueue.
Qed.

Lemma lastError_settled (lid cv : nat) (o : Outcome) (q : Queue) :
  lastError (processLoop_settled lid cv o q)
  = match o with
    | Rejects err => if pauseOnError q then Some (toError err) else lastError q
    | Fulfils => lastError q
    end.
Proof.
  unfold processLoop_settled. destruct o as [|err]; simpl.
  - by rewrite lastError_iterate.
  - destruct (pauseOnError q); simpl.
    + by rewrite lastError_setStatus.
    + by rewrite lastError_iterate.
Qed.

Lemma lastError_tick (f : Frame) (fs : list Frame) (q : Queue) :
  lastError (tick f fs q)
  = match fcalls f with
    | c :: _ =>
        match c with
        | ClearLastError => None
        | ResumeQueue => if isPaused q then None else lastError q
        | _ => lastError q
        end
    | [] => lastError q
    end.
Proof.
  unfold tick. destruct (fcalls f) as [|c cs].
  - by rewrite lastError_yield.
  - rewrite lastError_call. by destruct c.
Qed.

Lemma isPaused_true (q : Queue) : isPaused q = true ↔ status q = Paused.
Proof. unfold isPaused, status. by rewrite bool_decide_eq_true. Qed.

(** What an enabled event does to the slot. *)
Lemma lastError_step (e : Event) (q q' : Queue) :
  step e q = Some q' →
  lastError q'
  = match called e q, failing e q with
    | Some ClearLastError, _ => None
    | Some ResumeQueue, _ => if isPaused q then None else lastError q
    | _, Some err => if pauseOnError q then Some (toError err) else lastError q
    | _, _ => lastError q
    end.
Proof.
  unfold step, called, failing.
  destruct (stack q) as [|f fs] eqn:Hs, e as [op| |lid|lid|lid];
    try discriminate; intros H.
  - injection H as <-. rewrite lastError_call. by destruct op.
  - destruct (loops q !! lid) as [[cv [|o|?|?]]|]; try discriminate.
    injection H as <-. rewrite lastError_settled. by destruct o.
  - destruct (loops q !! lid) as [[cv [|?|[]|?]]|]; try discriminate.
    injection H as <-. by rewrite lastError_iterate.
  - destruct (loops q !! lid) as [[cv [|?|?|[]]]|]; try discriminate.
    by injection H as <-.
  - injection H as <-. rewrite lastError_tick.
    destruct (fcalls f) as [|c cs]; [done|]. by destruct c.
Qed.

(** C10.  [cancelQueue] and [clearQueue] leave [lastTaskError] as it is.
    [clearLastError], and [resumeQueue] called on a [Paused] queue, set it to
    null.  A task failure delivered to its loop while [pauseOnError] is
    enabled sets it to the captured error.  Whatever else happens (any other
    method call, whether from outside or from a running task, and any other
    step of a loop) leaves it unchanged. *)
Theorem lastError_frame (e : Event) (q q' : Queue) :
  step e q = Some q' →
  (called e q = Some CancelQueue ∨ called e q = Some ClearQueue →
     lastTaskError q' = lastTaskError q) ∧
  (called e q = Some ClearLastError
   ∨ (called e q = Some ResumeQueue ∧ status q = Paused) →
     lastTaskError q' = None) ∧
  (∀ err, failing e q = Some err → pauseOnError q = true →
     lastTaskError q' = Some (toError err)) ∧
  (lastTaskError q' ≠ lastTaskError q →
     (lastTaskError q' = None
      ∧ (called e q = Some ClearLastError
         ∨ (called e q = Some ResumeQueue ∧ status q = Paused)))
     ∨ (∃ err, failing e q = Some err ∧ pauseOnError q = true
               ∧ lastTaskError q' = Some (toError err))).
Proof.
  intros H. apply lastError_step in H. unfold lastTaskError.
  assert (Hcf : ∀ op, called e q = Some op → failing e q = None).
  { unfold called, failing. intros op. destruct e, (stack q); done. }
  repeat split.
  - intros [Hc | Hc]; by rewrite H, Hc, (Hcf _ Hc).
  - intros [Hc | [Hc Hp]]; rewrite H, Hc; [done|].
    apply isPaused_true in Hp. by rewrite Hp.
  - intros err Hf Hp. rewrite H, Hf, Hp.
    destruct (called e q) as [op|] eqn:Hc; [|done].
    by rewrite (Hcf _ eq_refl) in Hf.
  - intros Hne.
    destruct (called e q) as [op|] eqn:Hc.
    + rewrite (Hcf _ eq_refl) in H.
      destruct op; try congruence.
      * destruct (isPaused q) eqn:Hp; [|congruence].
        left. split; [done|]. right. split; [done|]. by apply isPaused_true.
      * left. split; [done|]. by left.
    + destruct (failing e q) as [err|] eqn:Hf; [|congruence].
      destruct (pauseOnError q) eqn:Hp; [|congruence].
      right. by exists err.
Qed.

(** The theorem at a queue paused on a failure: cancelling keeps the error,
    resuming clears it. *)
Lemma lastError_frame_witness :
  step (Call CancelQueue) Scenario.paused_on_error
    = Some (cancelQueue Scenario.paused_on_error) ∧
  lastTaskError (cancelQueue Scenario.paused_on_error) = Some (mkError "boom") ∧
  step (Call ResumeQueue) Scenario.paused_on_error
    = Some (resumeQueue Scenario.paused_on_error) ∧
  lastTaskError (resumeQueue Scenario.paused_on_error) = None.
Proof.
  assert (H1 : step (Call CancelQueue) Scenario.paused_on_error
               = Some (cancelQueue Scenario.paused_on_error)) by reflexivity.
  assert (H2 : step (Call ResumeQueue) Scenario.paused_on_error
               = Some (resumeQueue Scenario.paused_on_error)) by reflexivity.
  destruct (lastError_frame _ _ _ H1) as (Hkeep & _).
  destruct (lastError_frame _ _ _ H2) as (_ & Hclear & _).
  split; [exact H1|]. split; [|split; [exact H2|]].
  - exact (Hkeep (or_introl eq_refl)).
  - exact (Hclear (or_intror (conj eq_refl eq_refl))).
Defined.

(** ** Failure of a task *)

(** [pauseOnError] is set at construction and never written again. *)
Lemma pauseOnError_iterate (lid cv : nat) (start : bool) (q : Queue) :
  pauseOnError (processLoop_iterate lid cv start q) = pauseOnError q.
Proof.
  unfold processLoop_iterate, processLoop_exit, yield_to_caller, await_resume.
  repeat case_match; simpl; by autorewrite with fields.
Qed.

Lemma pauseOnError_startRunner (q : Queue) :
  pauseOnError (startRunner q) = pauseOnError q.
Proof.
  unfold startRunner, processLoop.
  repeat case_match; rewrite ?pauseOnError_iterate; simpl;
    by autorewrite with fields.
Qed.

Lemma pauseOnError_call (op : Op) (q : Queue) :
  pauseOnError (call op q) = pauseOnError q.
Proof.
  destruct op; simpl;
    unfold addTask, addNextTask, enqueue, resurrect, insert_entry, pauseQueue,
      resumeQueue, cancelQueue, clearQueue, clearLastError, call_resumeResolve;
    repeat case_match; rewrite ?pauseOnError_startRunner; simpl;
    by autorewrite with fields.
Qed.

Lemma pauseOnError_settled (lid cv : nat) (o : Outcome) (q : Queue) :
  pauseOnError (processLoop_settled lid cv o q) = pauseOnError q.
Proof.
  unfold processLoop_settled, await_resume.
  repeat case_match; rewrite ?pauseOnError_iterate; simpl;
    by autorewrite with fields.
Qed.

Lemma pauseOnError_step (e : Event) (q q' : Queue) :
  step e q = Some q' → pauseOnError q' = pauseOnError q.
Proof.
  unfold step, tick, yield_to_caller. intros H.
  repeat case_match; simplify_eq;
    by rewrite ?pauseOnError_call, ?pauseOnError_settled, ?pauseOnError_iterate.
Qed.

(** A queue built without [pauseOnError] never holds an error. *)
Lemma lastError_null_without_pauseOnError (es : list Event) :
  ∀ q q', pauseOnError q = false → lastError q = None →
    run es q = Some q' → pauseOnError q' = false ∧ lastError q' = None.
Proof.
  induction es as [|e es IH]; simpl; intros q q' Hp Hl Hr.
  - by simplify_eq.
  - destruct (step e q) as [q1|] eqn:Hs; [|done].
    apply (IH q1 q'); [by rewrite (pauseOnError_step _ _ _ Hs)| |done].
    rewrite (lastError_step _ _ _ Hs), Hp, Hl.
    by repeat case_match.
Qed.

(** The loop resumed after a failure, under [pauseOnError]. *)
Lemma settled_pauses (lid cv : nat) (err : Thrown) (q : Queue) :
  pauseOnError q = true →
  processLoop_settled lid cv (Rejects err) q
  = await_resume lid cv
      (setStatus Paused
         (set_lastError (Some (toError err)) (set_currentTaskKey None q))).
Proof. intros H. unfold processLoop_settled. simpl. by rewrite H. Qed.

(** The loop resumed after a failure that is absorbed. *)
Lemma settled_absorbs (lid cv : nat) (err : Thrown) (q : Queue) :
  pauseOnError q = false →
  processLoop_settled lid cv (Rejects err) q
  = processLoop_settled lid cv Fulfils q.
Proof. intros H. unfold processLoop_settled. simpl. by rewrite H. Qed.

(** One pass of the loop that finds the queue [Processing], its generation
    current and an entry pending: it takes the entry and invokes its task. *)
Lemma iterate_invokes (lid cv : nat) (start : bool) (e : QueueEntry)
    (rest : list QueueEntry) (q : Queue) :
  _status q = Processing → version q = cv → queue q = e :: rest →
  processLoop_iterate lid cv start q
  = set_stack
      (mkFrame lid (body (task e)) (outcome (task e)) start :: stack q)
      (set_loops (<[lid := mkLoop cv Running]> (loops q))
         (set_executed (executed q ++ [name (task e)])
            (set_currentTaskKey (key e) (set_queue rest q)))).
Proof.
  intros Hs Hv Hq. unfold processLoop_iterate, isCancelled, isPaused.
  rewrite Hq. simpl. rewrite Hs, Hv.
  rewrite !bool_decide_false by done. rewrite bool_decide_true by done.
  simpl. by rewrite bool_decide_false by naive_solver.
Qed.

Lemma step_TaskSettled (lid cv : nat) (o : Outcome) (q : Queue) :
  stack q = [] → loops q !! lid = Some (mkLoop cv (AwaitTask o)) →
  step (TaskSettled lid) q = Some (processLoop_settled lid cv o q).
Proof. intros Hs Hl. unfold step. rewrite Hs, Hl. reflexivity. Qed.

Lemma step_Resumed (lid cv : nat) (q : Queue) :
  stack q = [] → loops q !! lid = Some (mkLoop cv (AwaitResume true)) →
  step (Resumed lid) q = Some (processLoop_iterate lid cv false q).
Proof. intros Hs Hl. unfold step. rewrite Hs, Hl. reflexivity. Qed.

Lemma step_Finally (lid cv : nat) (q : Queue) :
  stack q = [] → loops q !! lid = Some (mkLoop cv (Returned false)) →
  step (Finally lid) q
  = Some (set_runner None
            (set_loops (<[lid := mkLoop cv (Returned true)]> (loops q)) q)).
Proof. intros Hs Hl. unfold step. rewrite Hs, Hl. reflexivity. Qed.

(** A loop blocked on a resume signal that was not given cannot move. *)
Lemma step_blocked (lid cv : nat) (q : Queue) :
  loops q !! lid = Some (mkLoop cv (AwaitResume false)) →
  step (TaskSettled lid) q = None ∧ step (Resumed lid) q = None
  ∧ step (Finally lid) q = None.
Proof. intros Hl. unfold step. rewrite Hl. by destruct (stack q). Qed.



(** ** Notifications *)

Lemma no_repeat_snoc (l : list QueueStatus) (a b : QueueStatus) :
  no_repeat l → last l = Some a → a ≠ b → no_repeat (l ++ [b]).
Proof.
  induction l as [|x [|y l'] IH]; simpl; intros Hn Hl Hab.
  - done.
  - injection Hl as ->. done.
  - destruct Hn as [Hxy Hn]. split; [done|]. by apply IH.
Qed.

(** A write to [_status] that changes it, followed by the notification. *)
Lemma notify_inv_change (s : QueueStatus) (q : Queue) :
  _status q ≠ s → notify_inv q →
  notify_inv (onStatusChange s (set__status s q)).
Proof.
  unfold notify_inv. intros Hne (Hn & Hl & Hr).
  cbn [onStatusChange set__status set_notified notified assigned _status].
  rewrite Hn, !app_comm_cons. split; [done|]. split.
  - apply last_snoc.
  - by apply (no_repeat_snoc _ (_status q)).
Qed.

Lemma notify_inv_setStatus (s : QueueStatus) (q : Queue) :
  notify_inv q → notify_inv (setStatus s q).
Proof.
  intros H. unfold setStatus. case_bool_decide; [|done].
  by apply notify_inv_change.
Qed.

Lemma notify_inv_new (pauseOnError : bool) : notify_inv (new_Queue pauseOnError).
Proof. by unfold notify_inv. Qed.

Section Preservation.
(** The invariant is preserved by each assignment to another field... *)
Variable q : Queue.
Hypothesis H : notify_inv q.

Lemma notify_inv_set_queue x : notify_inv (set_queue x q).
Proof using H. exact H. Qed.
Lemma notify_inv_set_runner x : notify_inv (set_runner x q).
Proof using H. exact H. Qed.
Lemma notify_inv_set_resumeResolve x : notify_inv (set_resumeResolve x q).
Proof using H. exact H. Qed.
Lemma notify_inv_set_lastError x : notify_inv (set_lastError x q).
Proof using H. exact H. Qed.
Lemma notify_inv_set_currentTaskKey x : notify_inv (set_currentTaskKey x q).
Proof using H. exact H. Qed.
Lemma notify_inv_set_version x : notify_inv (set_version x q).
Proof using H. exact H. Qed.
Lemma notify_inv_set_loops x : notify_inv (set_loops x q).
Proof using H. exact H. Qed.
Lemma notify_inv_set_stack x : notify_inv (set_stack x q).
Proof using H. exact H. Qed.
Lemma notify_inv_set_executed x : notify_inv (set_executed x q).
Proof using H. exact H. Qed.

End Preservation.

Create HintDb notify.

#[export] Hint Resolve notify_inv_setStatus notify_inv_set_queue
  notify_inv_set_runner notify_inv_set_resumeResolve notify_inv_set_lastError
  notify_inv_set_currentTaskKey notify_inv_set_version notify_inv_set_loops
  notify_inv_set_stack notify_inv_set_executed : notify.

(** ... and by each piece of the class. *)
Lemma notify_inv_call_resumeResolve (q : Queue) :
  notify_inv q → notify_inv (call_resumeResolve q).
Proof. intros H. unfold call_resumeResolve. by repeat case_match. Qed.

Lemma notify_inv_yield (start : bool) (lid : nat) (q : Queue) :
  notify_inv q → notify_inv (yield_to_caller start lid q).
Proof. by destruct start. Qed.

Lemma notify_inv_await_resume (lid cv : nat) (q : Queue) :
  notify_inv q → notify_inv (await_resume lid cv q).
Proof. done. Qed.

Lemma notify_inv_exit (lid cv : nat) (q : Queue) :
  notify_inv q → notify_inv (processLoop_exit lid cv q).
Proof.
  intros H. unfold processLoop_exit. apply notify_inv_set_loops.
  repeat case_match; auto with notify.
Qed.

Lemma notify_inv_resurrect (q : Queue) :
  notify_inv q → notify_inv (resurrect q).
Proof.
  intros H. unfold resurrect, isCancelled. case_bool_decide as Hc; [|done].
  apply (notify_inv_change Idle (set_version (S (version q)) q)); [|done].
  simpl. congruence.
Qed.

#[export] Hint Resolve notify_inv_call_resumeResolve notify_inv_yield
  notify_inv_await_resume notify_inv_exit notify_inv_resurrect : notify.

Lemma notify_inv_iterate (lid cv : nat) (start : bool) (q : Queue) :
  notify_inv q → notify_inv (processLoop_iterate lid cv start q).
Proof.
  intros H. unfold processLoop_iterate.
  repeat case_match; auto 10 with notify.
Qed.

Lemma notify_inv_startRunner (q : Queue) :
  notify_inv q → notify_inv (startRunner q).
Proof.
  intros H. unfold startRunner, processLoop.
  repeat case_match; auto 10 using notify_inv_iterate with notify.
Qed.

Lemma notify_inv_enqueue (t : Task) (p : Position) (k : option string) (q : Queue) :
  notify_inv q → notify_inv (enqueue t p k q).
Proof.
  intros H. unfold enqueue, insert_entry.
  repeat case_match; auto 10 using notify_inv_startRunner with notify.
Qed.

Lemma notify_inv_call (op : Op) (q : Queue) :
  notify_inv q → notify_inv (call op q).
Proof.
  intros H.
  destruct op; simpl;
    unfold addTask, addNextTask, pauseQueue, resumeQueue, cancelQueue,
      clearQueue, clearLastError;
    repeat case_match;
    auto 12 using notify_inv_enqueue, notify_inv_startRunner with notify.
Qed.

Lemma notify_inv_settled (lid cv : nat) (o : Outcome) (q : Queue) :
  notify_inv q → notify_inv (processLoop_settled lid cv o q).
Proof.
  intros H. unfold processLoop_settled.
  repeat case_match; auto 10 using notify_inv_iterate with notify.
Qed.

Lemma notify_inv_step (e : Event) (q q' : Queue) :
  step e q = Some q' → notify_inv q → notify_inv q'.
Proof.
  unfold step, tick. intros Hs H.
  repeat case_match; simplify_eq;
    auto 10 using notify_inv_call, notify_inv_settled, notify_inv_iterate
      with notify.
Qed.

Lemma notify_inv_run (es : list Event) (q q' : Queue) :
  run es q = Some q' → notify_inv q → notify_inv q'.
Proof.
  revert q. induction es as [|e es IH]; simpl; intros q Hr H.
  - by simplify_eq.
  - destruct (step e q) as [q1|] eqn:Hs; [|done].
    eauto using notify_inv_step.
Qed.

(** C2.  Whatever the callers and the loops do from construction on,
    [onStatusChange] has been invoked once with the initial [Idle] and then
    once for each write to the status, in order, with the value written; each
    of these writes changed the status, so no two successive invocations carry
    the same value; and the last invocation carries the current status. *)
Theorem onStatusChange_exactly_on_change
    (pauseOnError : bool) (es : list Event) (q : Queue) :
  run es (new_Queue pauseOnError) = Some q →
  notified q = Idle :: assigned q ∧
  no_repeat (Idle :: assigned q) ∧
  no_repeat (notified q) ∧
  last (notified q) = Some (status q).
Proof.
  intros Hr.
  destruct (notify_inv_run _ _ _ Hr (notify_inv_new pauseOnError)) as (Hn & Hl & Hp).
  rewrite Hn. done.
Qed.

(** The theorem on the scenario in which a queue is cancelled from inside a
    task, then resurrected. *)
Lemma onStatusChange_exactly_on_change_witness :
  run Tests.cancel_inside_resurrected (new_Queue false)
    = Some Scenario.resurrected ∧
  notified Scenario.resurrected
    = [Idle; Processing; Cancelled; Idle; Processing; Idle] ∧
  notified Scenario.resurrected = Idle :: assigned Scenario.resurrected ∧
  no_repeat (notified Scenario.resurrected) ∧
  last (notified Scenario.resurrected) = Some (status Scenario.resurrected).
Proof.
  assert (Hr : run Tests.cancel_inside_resurrected (new_Queue false)
               = Some Scenario.resurrected) by (vm_compute; reflexivity).
  destruct (onStatusChange_exactly_on_change false _ _ Hr) as (H1 & _ & H2 & H3).
  split; [exact Hr|]. split; [reflexivity|].
  split; [exact H1|]. split; [exact H2 | exact H3].
Defined.

(** ** A cancelled queue is empty *)

(** Settle a goal about a method unfolded on a queue given field by field. *)
Ltac by_cases :=
  simpl in *; repeat (case_match; simpl in *; simplify_eq); try done;
  try (intuition congruence).

Lemma cancelled_inv_alive (q : Queue) : _status q ≠ Cancelled → cancelled_inv q.
Proof. unfold cancelled_inv. done. Qed.

Lemma cancelled_inv_exit (lid cv : nat) (q : Queue) :
  cancelled_inv q → cancelled_inv (processLoop_exit lid cv q).
Proof.
  unfold cancelled_inv, processLoop_exit, setStatus, isCancelled.
  destruct q as [qu st rn rr le poe ck v ls sk asg ntf ex], st; by_cases.
Qed.

Lemma cancelled_inv_iterate (lid cv : nat) (start : bool) (q : Queue) :
  cancelled_inv q → cancelled_inv (processLoop_iterate lid cv start q).
Proof.
  intros H. unfold processLoop_iterate.
  destruct (negb (isCancelled q) && bool_decide (version q = cv)) eqn:Hg.
  - apply cancelled_inv_alive.
    apply andb_true_iff in Hg as [Hc _]. apply negb_true_iff in Hc.
    unfold isCancelled in Hc. apply bool_decide_eq_false in Hc.
    unfold yield_to_caller, await_resume, processLoop_exit, isCancelled, setStatus.
    destruct q as [qu st rn rr le poe ck v ls sk asg ntf ex], st, start;
      by_cases.
  - destruct start; simpl; by apply cancelled_inv_exit.
Qed.

Lemma cancelled_inv_startRunner (q : Queue) :
  cancelled_inv q → cancelled_inv (startRunner q).
Proof.
  intros H. unfold startRunner, processLoop.
  destruct (bool_decide (runner q ≠ None)); [done|].
  destruct (isCancelled q || bool_decide (length (queue q) = 0)) eqn:Hg.
  - revert H. unfold cancelled_inv, setStatus, isCancelled.
    destruct q as [qu st rn rr le poe ck v ls sk asg ntf ex], st; by_cases.
  - apply cancelled_inv_iterate, cancelled_inv_alive. simpl.
    rewrite status_setStatus. done.
Qed.

Lemma alive_resurrect (q : Queue) : _status (resurrect q) ≠ Cancelled.
Proof.
  unfold resurrect, isCancelled. case_bool_decide; simpl; [done|done].
Qed.

Lemma cancelled_inv_enqueue (t : Task) (p : Position) (k : option string)
    (q : Queue) :
  cancelled_inv (enqueue t p k q).
Proof.
  unfold enqueue. pose proof (alive_resurrect q) as Ha.
  repeat case_match;
    try apply cancelled_inv_startRunner; apply cancelled_inv_alive;
    by destruct p.
Qed.

Lemma cancelled_inv_call (op : Op) (q : Queue) :
  cancelled_inv q → cancelled_inv (call op q).
Proof.
  intros H. destruct op; simpl; unfold addTask, addNextTask;
    try apply cancelled_inv_enqueue.
  - unfold pauseQueue, isProcessing, setStatus. revert H. unfold cancelled_inv.
    destruct q as [qu st rn rr le poe ck v ls sk asg ntf ex], st; by_cases.
  - unfold resumeQueue.
    set (q1 := if isPaused q then _ else q).
    assert (H1 : cancelled_inv q1).
    { subst q1. revert H.
      unfold cancelled_inv, isPaused, setStatus, call_resumeResolve.
      destruct q as [qu st rn rr le poe ck v ls sk asg ntf ex], st; by_cases. }
    case_match; [by apply cancelled_inv_startRunner | done].
  - unfold cancelQueue, isCancelled, setStatus, call_resumeResolve.
    revert H. unfold cancelled_inv.
    destruct q as [qu st rn rr le poe ck v ls sk asg ntf ex], st; by_cases.
  - unfold clearQueue, isCancelled, isProcessing, isPaused, setStatus.
    revert H. unfold cancelled_inv.
    destruct q as [qu st rn rr le poe ck v ls sk asg ntf ex], st; by_cases.
  - done.
Qed.

Lemma cancelled_inv_settled (lid cv : nat) (o : Outcome) (q : Queue) :
  cancelled_inv q → cancelled_inv (processLoop_settled lid cv o q).
Proof.
  intros H. unfold processLoop_settled.
  assert (H1 : cancelled_inv (set_currentTaskKey None q)).
  { revert H. unfold cancelled_inv. simpl. intuition. }
  destruct o as [|err]; [by apply cancelled_inv_iterate|].
  simpl. destruct (pauseOnError q); [|by apply cancelled_inv_iterate].
  apply cancelled_inv_alive. unfold await_resume. simpl.
  by rewrite status_setStatus.
Qed.

Lemma cancelled_inv_step (e : Event) (q q' : Queue) :
  step e q = Some q' → cancelled_inv q → cancelled_inv q'.
Proof.
  unfold step, tick. intros Hs H.
  repeat case_match; simplify_eq;
    try (by apply cancelled_inv_call);
    try (by apply cancelled_inv_settled);
    try (by apply cancelled_inv_iterate);
    try done;
    by destruct (fstart _).
Qed.

Lemma cancelled_inv_run (es : list Event) (q q' : Queue) :
  run es q = Some q' → cancelled_inv q → cancelled_inv q'.
Proof.
  revert q. induction es as [|e es IH]; simpl; intros q Hr H.
  - by simplify_eq.
  - destruct (step e q) as [q1|] eqn:Hs; [|done].
    eauto using cancelled_inv_step.
Qed.

Lemma cancelled_inv_new (pauseOnError : bool) :
  cancelled_inv (new_Queue pauseOnError).
Proof. by apply cancelled_inv_alive. Qed.

(** ** The loop at work *)

Lemma run_app (es1 es2 : list Event) (q : Queue) :
  run (es1 ++ es2) q = run es1 q ≫= run es2.
Proof.
  revert q. induction es1 as [|e es1 IH]; intros q; simpl; [done|].
  destruct (step e q); [apply IH | done].
Qed.

Lemma step_Call (op : Op) (q : Queue) :
  stack q = [] → step (Call op) q = Some (call op q).
Proof. intros Hs. unfold step. by rewrite Hs. Qed.

Lemma step_Tick (f : Frame) (fs : list Frame) (q : Queue) :
  stack q = f :: fs → step Tick q = Some (tick f fs q).
Proof. intros Hs. unfold step. by rewrite Hs. Qed.

(** One pass of the loop that finds the queue [Processing], its generation
    current and nothing pending: the loop sets [Idle] and returns. *)
Lemma iterate_drained (lid cv : nat) (q : Queue) :
  _status q = Processing → version q = cv → queue q = [] →
  processLoop_iterate lid cv false q
  = set_loops (<[lid := mkLoop cv (Returned false)]> (loops q))
      (onStatusChange Idle (set__status Idle q)).
Proof.
  intros Hs Hv Hq.
  unfold processLoop_iterate, processLoop_exit, isCancelled, isPaused, setStatus.
  rewrite Hq, Hs, Hv. simpl.
  rewrite !bool_decide_true by done. simpl.
  by rewrite bool_decide_false by naive_solver.
Qed.

(** The in-flight task settles without pausing the queue, and an entry is
    pending: the loop pulls it and invokes its task. *)
Lemma settle_invokes (lid : nat) (o : Outcome) (e : QueueEntry)
    (rest : list QueueEntry) (q : Queue) :
  awaiting lid o q → harmless q o → queue q = e :: rest →
  step (TaskSettled lid) q
  = Some (set_stack [mkFrame lid (body (task e)) (outcome (task e)) false]
            (set_loops (<[lid := mkLoop (version q) Running]> (loops q))
               (set_executed (executed q ++ [name (task e)])
                  (set_currentTaskKey (key e) (set_queue rest q))))).
Proof.
  intros (Hk & Hs & Hl) Hh Hq.
  rewrite (step_TaskSettled lid (version q) o) by done. f_equal.
  assert (Hi : processLoop_settled lid (version q) o q
               = processLoop_iterate lid (version q) false
                   (set_currentTaskKey None q)).
  { destruct o as [|err]; [done|]. destruct Hh as [Hp|Ho]; [|done].
    unfold processLoop_settled. simpl. by rewrite Hp. }
  rewrite Hi, (iterate_invokes lid (version q) false e rest) by done.
  simpl. by rewrite Hk.
Qed.

(** One round: the in-flight task settles, the next entry is pulled, its
    task is invoked and returns its promise. *)
Lemma round (lid : nat) (o : Outcome) (e : QueueEntry)
    (rest : list QueueEntry) (q : Queue) :
  awaiting lid o q → harmless q o → queue q = e :: rest →
  body (task e) = [] →
  ∃ q', run [TaskSettled lid; Tick] q = Some q' ∧
    awaiting lid (outcome (task e)) q' ∧
    queue q' = rest ∧
    executed q' = executed q ++ [name (task e)] ∧
    notified q' = notified q ∧
    pauseOnError q' = pauseOnError q ∧
    runner q' = runner q.
Proof.
  intros Ha Hh Hq Hb. pose proof Ha as (Hk & Hs & Hl).
  assert (Hlt : lid < length (loops q)) by by eapply lookup_lt_Some.
  simpl. rewrite (settle_invokes lid o e rest) by done.
  erewrite step_Tick by done. eexists. split; [done|].
  unfold tick, awaiting. rewrite Hb. simpl.
  repeat (rewrite list_lookup_insert_eq by (by rewrite ?length_insert); simpl).
  done.
Qed.

(** The last round: the in-flight task settles and nothing is pending; the
    loop sets [Idle] and returns, and its [.finally] callback runs. *)
Lemma last_round (lid : nat) (o : Outcome) (q : Queue) :
  awaiting lid o q → harmless q o → queue q = [] →
  ∃ q', run [TaskSettled lid; Finally lid] q = Some q' ∧
    status q' = Idle ∧ queue q' = [] ∧ stack q' = [] ∧
    executed q' = executed q ∧
    notified q' = notified q ++ [Idle] ∧
    pauseOnError q' = pauseOnError q ∧
    runner q' = None ∧
    currentTaskKey q' = None.
Proof.
  intros (Hk & Hs & Hl) Hh Hq.
  assert (Hlt : lid < length (loops q)) by by eapply lookup_lt_Some.
  simpl. rewrite (step_TaskSettled lid (version q) o) by done.
  assert (Hi : processLoop_settled lid (version q) o q
               = processLoop_iterate lid (version q) false
                   (set_currentTaskKey None q)).
  { destruct o as [|err]; [done|]. destruct Hh as [Hp|Ho]; [|done].
    unfold processLoop_settled. simpl. by rewrite Hp. }
  rewrite Hi, iterate_drained by done.
  erewrite (step_Finally lid (version q)).
  - eexists. split; [done|]. simpl. by rewrite Hq.
  - done.
  - simpl. by apply list_lookup_insert_eq.
Qed.

(** The loop drains a pending collection of tasks that call nothing and
    whose failures do not pause the queue. *)
Lemma drain (lid : nat) (es : list QueueEntry) :
  ∀ (o : Outcome) (q : Queue),
    awaiting lid o q → queue q = es →
    Forall (λ e, body (task e) = []) es →
    harmless q o → Forall (λ e, harmless q (outcome (task e))) es →
    ∃ q', run (rounds lid (length es) ++ [TaskSettled lid; Finally lid]) q
          = Some q' ∧
      status q' = Idle ∧ queue q' = [] ∧ stack q' = [] ∧
      executed q' = executed q ++ (name ∘ task <$> es) ∧
      notified q' = notified q ++ [Idle] ∧
      pauseOnError q' = pauseOnError q ∧
      runner q' = None ∧
      currentTaskKey q' = None.
Proof.
  induction es as [|e es IH]; intros o q Ha Hq Hb Hh Hhs.
  - destruct (last_round lid o q Ha Hh Hq)
      as (q' & Hr & ? & ? & ? & Hx & ? & ? & ? & ?).
    exists q'. rewrite Hx, app_nil_r. done.
  - apply Forall_cons in Hb as [Hb Hbs]. apply Forall_cons in Hhs as [He Hhs].
    destruct (round lid o e es q Ha Hh Hq Hb)
      as (q1 & Hr1 & Ha1 & Hq1 & Hx1 & Hn1 & Hp1 & Hrn1).
    assert (Hh1 : ∀ o', harmless q o' → harmless q1 o').
    { intros o'. unfold harmless. by rewrite Hp1. }
    destruct (IH (outcome (task e)) q1 Ha1 Hq1 Hbs (Hh1 _ He))
      as (q' & Hr & ? & ? & ? & Hx & Hn & Hp & ? & ?).
    { eapply Forall_impl; [exact Hhs|]. intros e'. apply Hh1. }
    exists q'. split.
    + change (rounds lid (length (e :: es)) ++ [TaskSettled lid; Finally lid])
        with ([TaskSettled lid; Tick]
                ++ (rounds lid (length es) ++ [TaskSettled lid; Finally lid])).
      rewrite run_app, Hr1. exact Hr.
    + rewrite Hx, Hx1, Hn, Hn1, Hp, Hp1, <- app_assoc. done.
Qed.

(** [startRunner] on an idle queue with no runner and an entry pending
    starts a loop, which pulls the entry and invokes its task; the task
    returns its promise. *)
Lemma launch (e : QueueEntry) (rest : list QueueEntry) (q : Queue) :
  stack q = [] → runner q = None → _status q = Idle → queue q = e :: rest →
  body (task e) = [] →
  ∃ q', run [Tick] (startRunner q) = Some q' ∧
    awaiting (length (loops q)) (outcome (task e)) q' ∧
    queue q' = rest ∧
    executed q' = executed q ++ [name (task e)] ∧
    notified q' = notified q ++ [Processing] ∧
    pauseOnError q' = pauseOnError q ∧
    version q' = version q ∧
    currentTaskKey q' = key e.
Proof.
  intros Hk Hr Hs Hq Hb.
  assert (Hsr : startRunner q
    = set_stack [mkFrame (length (loops q)) [] (outcome (task e)) true]
        (set_loops (loops q ++ [mkLoop (version q) Running])
           (set_executed (executed q ++ [name (task e)])
              (set_currentTaskKey (key e)
                 (set_queue rest
                    (onStatusChange Processing (set__status Processing q))))))).
  { unfold startRunner, isCancelled, processLoop.
    rewrite Hr, Hs, Hq. simpl.
    rewrite setStatus_change by congruence.
    rewrite (iterate_invokes _ _ true e rest) by done.
    simpl. rewrite Hk, Hb. unfold set_stack, set_loops. simpl. do 2 f_equal.
    rewrite insert_app_r_alt by done. by rewrite Nat.sub_diag. }
  rewrite Hsr. simpl. eexists. split; [done|].
  unfold tick, awaiting. simpl.
  rewrite lookup_app_r, Nat.sub_diag by done. simpl.
  rewrite list_lookup_insert_eq by (rewrite length_app; simpl; lia).
  done.
Qed.

(** ** Resurrection of a cancelled queue *)

Lemma resurrect_cancelled (q : Queue) :
  _status q = Cancelled →
  resurrect q
  = onStatusChange Idle (set__status Idle (set_version (S (version q)) q)).
Proof. intros H. unfold resurrect, isCancelled. by rewrite bool_decide_true. Qed.

Lemma resurrect_idem (q : Queue) : resurrect (resurrect q) = resurrect q.
Proof. apply resurrect_not_cancelled, alive_resurrect. Qed.

Lemma enqueue_resurrect (t : Task) (p : Position) (k : option string) (q : Queue) :
  enqueue t p k q = enqueue t p k (resurrect q).
Proof. unfold enqueue. by rewrite resurrect_idem. Qed.

(** On an idle queue that is empty, has no current key and no runner, a
    submission starts a loop on the submitted task. *)
Lemma enqueue_idle_empty (t : Task) (p : Position) (k : option string) (q : Queue) :
  _status q = Idle → queue q = [] → currentTaskKey q = None →
  enqueue t p k q = startRunner (set_queue [mkEntry t k] q).
Proof.
  intros Hs Hq Hc. unfold enqueue.
  rewrite resurrect_not_cancelled by congruence.
  assert (Hd : bool_decide (p = end_) && truthy k && bool_decide (lastKey q = k)
               = false).
  { rewrite (lastKey_nil _ Hq), Hc.
    destruct k as [s|]; simpl; by rewrite ?andb_false_r. }
  rewrite Hd. unfold insert_entry, isIdle.
  destruct p; simpl; rewrite Hs, Hq; done.
Qed.



Lemma settled_when_loops_done (q : Queue) :
  stack q = [] →
  Forall (λ l, at_ l = Returned true ∨ at_ l = AwaitResume false) (loops q) →
  settled q.
Proof.
  intros Hk Hl e He. unfold step. rewrite Hk.
  assert (Hlook : ∀ lid l, loops q !! lid = Some l →
            at_ l = Returned true ∨ at_ l = AwaitResume false).
  { intros lid l Hlid. by eapply (Forall_lookup_1 _ _ _ _ Hl). }
  destruct e as [op| |lid|lid|lid]; [by destruct (He op)|done|..];
    destruct (loops q !! lid) as [[cv st]|] eqn:Hlid; try done;
    destruct (Hlook _ _ Hlid) as [Hst|Hst]; simpl in Hst; by subst st.
Qed.


(** ** First in, first out *)

Lemma accepted_falsy (k0 : option string) (subs : list Submission) :
  Forall (λ s, truthy s.2 = false) subs → accepted k0 subs = subs.
Proof.
  revert k0. induction subs as [|s subs IH]; intros k0 H; [done|].
  apply Forall_cons in H as [Hs H]. simpl. rewrite Hs. simpl. by rewrite IH.
Qed.

Lemma accepted_first (s : Submission) (subs : list Submission) :
  accepted None (s :: subs) = s :: accepted s.2 subs.
Proof.
  simpl. destruct s as [t [k|]]; simpl; by rewrite ?andb_false_r.
Qed.

Lemma accepted_sublist (k0 : option string) (subs : list Submission) :
  sublist (accepted k0 subs) subs.
Proof.
  revert k0. induction subs as [|s subs IH]; intros k0; simpl; [done|].
  case_match; [by apply sublist_cons | by apply sublist_skip].
Qed.

Lemma accepted_Forall (P : Submission → Prop) (k0 : option string)
    (subs : list Submission) :
  Forall P subs → Forall P (accepted k0 subs).
Proof.
  revert k0. induction subs as [|s subs IH]; intros k0 H; simpl; [done|].
  apply Forall_cons in H as [Hs H]. case_match; [by apply IH|].
  apply Forall_cons. split; [done | by apply IH].
Qed.

(** Submissions made while a task is in flight only extend the pending
    collection, by those that are not adjacent duplicates. *)
Lemma submit_while_busy (subs : list Submission) :
  ∀ q, stack q = [] → status q = Processing ∨ status q = Paused →
    run (map submit subs) q
    = Some (set_queue (queue q ++ (entry_of <$> accepted (lastKey q) subs)) q).
Proof.
  induction subs as [|s subs IH]; intros q Hk Hs.
  - simpl. rewrite app_nil_r. by destruct q.
  - cbn [map run]. unfold submit at 1. rewrite step_Call by done.
    cbn [call]. rewrite addTask_busy by done. cbn [accepted].
    destruct (truthy s.2 && bool_decide (lastKey q = s.2)); [by apply IH|].
    rewrite IH by done.
    rewrite (lastKey_snoc _ (queue q) (entry_of s)) by done.
    simpl. by rewrite <- app_assoc.
Qed.

Lemma at_rest_new (pauseOnError : bool) : at_rest (new_Queue pauseOnError).
Proof. by repeat split. Qed.




(** ** The order of executions *)

Lemma grows_same (q q' : Queue) : executed q' = executed q → grows q q'.
Proof. intros H. exists []. by rewrite app_nil_r. Qed.

Lemma grows_trans (q1 q2 q3 : Queue) : grows q1 q2 → grows q2 q3 → grows q1 q3.
Proof.
  intros [m1 H1] [m2 H2]. exists (m1 ++ m2). by rewrite H2, H1, app_assoc.
Qed.

Lemma pulls_front_grows (q q' : Queue) : pulls_front q q' → grows q q'.
Proof.
  intros [(H & _) | (e & rest & _ & H)]; [by apply grows_same|].
  by exists [name (task e)].
Qed.

(** [pulls_front] only reads the pending collection and the trace. *)
Lemma pulls_front_from (q0 q q' : Queue) :
  executed q = executed q0 → queue q = queue q0 →
  pulls_front q q' → pulls_front q0 q'.
Proof. unfold pulls_front. intros <- <-. done. Qed.

(** Settle a goal [pulls_front] after the cases of a method were split. *)
Ltac pulled :=
  first [ by left | right; eexists _, _; split; [reflexivity|]; done ].

Lemma pulls_front_iterate (lid cv : nat) (start : bool) (q : Queue) :
  pulls_front q (processLoop_iterate lid cv start q).
Proof.
  unfold pulls_front, processLoop_iterate, processLoop_exit, yield_to_caller,
    await_resume, setStatus, isCancelled, isPaused.
  destruct q as [qu st rn rr le poe ck v ls sk asg ntf ex], st, start;
    simpl;
    repeat (first [case_bool_decide | case_match]; simpl in *; simplify_eq);
    pulled.
Qed.

Lemma pulls_front_settled (lid cv : nat) (o : Outcome) (q : Queue) :
  pulls_front q (processLoop_settled lid cv o q).
Proof.
  unfold processLoop_settled.
  pose proof (pulls_front_iterate lid cv false (set_currentTaskKey None q)) as Hi.
  destruct o as [|err]; [exact Hi|]. simpl.
  destruct (pauseOnError q); [|exact Hi].
  left. unfold await_resume. simpl. by autorewrite with fields.
Qed.

Lemma pulls_front_startRunner (q : Queue) : pulls_front q (startRunner q).
Proof.
  unfold startRunner, processLoop.
  destruct (bool_decide (runner q ≠ None)); [by left|].
  destruct (isCancelled q || bool_decide (length (queue q) = 0)).
  - left. by autorewrite with fields.
  - eapply pulls_front_from; [| |apply pulls_front_iterate];
      simpl; by autorewrite with fields.
Qed.

Lemma pulls_front_resumeQueue (q : Queue) : pulls_front q (resumeQueue q).
Proof.
  unfold resumeQueue.
  set (q1 := if isPaused q then _ else q).
  assert (H1 : executed q1 = executed q ∧ queue q1 = queue q).
  { subst q1. unfold call_resumeResolve. destruct (isPaused q); [|done].
    simpl. repeat case_match; simpl; by autorewrite with fields. }
  destruct H1 as (Hx & Hq).
  destruct (isIdle q1 && bool_decide (0 < length (queue q1))); [|by left].
  by eapply pulls_front_from; [| |apply pulls_front_startRunner].
Qed.

Lemma pulls_front_call (op : Op) (q : Queue) :
  quiet (Some op) → pulls_front q (call op q).
Proof.
  intros Hop. destruct op; try done; simpl.
  - unfold pauseQueue. case_match; left; by autorewrite with fields.
  - apply pulls_front_resumeQueue.
  - by left.
Qed.

(** An event that is enabled and calls a method calls it on the queue as it
    is, but for the call stack. *)
Lemma step_called (e : Event) (op : Op) (q : Queue) :
  called e q = Some op →
  ∃ fs, step e q = Some (call op (set_stack fs q)).
Proof.
  unfold called, step.
  destruct e as [op'| |lid|lid|lid], (stack q) as [|f fs] eqn:Hk; try done.
  - intros [= ->]. exists []. rewrite <- Hk. by destruct q.
  - unfold tick. destruct (fcalls f) as [|c cs]; [done|].
    intros [= ->]. by eexists.
Qed.

(** An event that calls no method adding to the pending collection or
    emptying it changes that collection only by taking its front entry to
    execute it. *)
Lemma pulls_front_step (e : Event) (q q' : Queue) :
  quiet (called e q) → step e q = Some q' → pulls_front q q'.
Proof.
  intros Hquiet Hs.
  destruct (called e q) as [op|] eqn:Hc.
  - destruct (step_called e op q Hc) as (fs & Hs').
    rewrite Hs' in Hs. injection Hs as <-.
    by eapply pulls_front_from; [| |by apply pulls_front_call].
  - revert Hc Hs. unfold called, step, tick.
    destruct e as [op| |lid|lid|lid], (stack q) as [|f fs]; try done.
    + destruct (fcalls f); [|done]. intros _ [= <-].
      left. by destruct (fstart f).
    + destruct (loops q !! lid) as [[cv [|o|?|?]]|]; try done.
      intros _ [= <-]. apply pulls_front_settled.
    + destruct (loops q !! lid) as [[cv [|?|[]|?]]|]; try done.
      intros _ [= <-]. apply pulls_front_iterate.
    + destruct (loops q !! lid) as [[cv [|?|?|[]]]|]; try done.
      intros _ [= <-]. by left.
Qed.

(** Whatever happens, executions are only added at the end of the trace. *)
Lemma grows_startRunner (q : Queue) : grows q (startRunner q).
Proof. apply pulls_front_grows, pulls_front_startRunner. Qed.

Lemma grows_enqueue (t : Task) (p : Position) (k : option string) (q : Queue) :
  grows q (enqueue t p k q).
Proof.
  unfold enqueue.
  assert (H0 : executed (resurrect q) = executed q)
    by (unfold resurrect; by case_match).
  repeat case_match;
    try (eapply grows_trans; [|apply grows_startRunner]);
    apply grows_same; by destruct p.
Qed.

Lemma grows_call (op : Op) (q : Queue) : grows q (call op q).
Proof.
  destruct op; simpl; unfold addTask, addNextTask;
    try apply grows_enqueue.
  - unfold pauseQueue. case_match; apply grows_same; by autorewrite with fields.
  - apply pulls_front_grows, pulls_front_resumeQueue.
  - unfold cancelQueue, call_resumeResolve.
    repeat case_match; apply grows_same; simpl; by autorewrite with fields.
  - unfold clearQueue. case_match; apply grows_same; simpl;
      by autorewrite with fields.
  - by apply grows_same.
Qed.

Lemma grows_step (e : Event) (q q' : Queue) : step e q = Some q' → grows q q'.
Proof.
  intros Hs. destruct (called e q) as [op|] eqn:Hc.
  - destruct (step_called e op q Hc) as (fs & Hs').
    rewrite Hs' in Hs. injection Hs as <-.
    eapply grows_trans; [|apply grows_call]. by apply grows_same.
  - apply pulls_front_grows, (pulls_front_step e); [by rewrite Hc | done].
Qed.

Lemma grows_run (es : list Event) (q q' : Queue) :
  run es q = Some q' → grows q q'.
Proof.
  revert q. induction es as [|e es IH]; simpl; intros q H.
  - simplify_eq. by apply grows_same.
  - destruct (step e q) as [q1|] eqn:Hs; [|done].
    eapply grows_trans; [by eapply grows_step | by apply IH].
Qed.

(** As long as no method is called that adds to the pending collection or
    empties it, the entry at the front of the pending collection is the first
    to be executed. *)
Lemma front_runs_first (es : list Event) :
  ∀ (q q' : Queue) (e : QueueEntry) (rest : list QueueEntry),
    quietly es q → queue q = e :: rest →
    run es q = Some q' →
    (executed q' = executed q ∧ queue q' = e :: rest)
    ∨ (∃ more, executed q' = executed q ++ name (task e) :: more).
Proof.
  induction es as [|ev es IH]; intros q q' e rest Hquiet Hq Hr.
  - simpl in Hr. simplify_eq. by left.
  - simpl in Hr, Hquiet. destruct Hquiet as [Hev Hquiet].
    destruct (step ev q) as [q1|] eqn:Hs; [|done].
    destruct (pulls_front_step ev q q1 Hev Hs)
      as [(Hx & Hq1) | (e' & rest' & Hq1 & Hx)].
    + destruct (IH q1 q' e rest Hquiet (eq_trans Hq1 Hq) Hr)
        as [(Hx' & Hq') | (more & Hx')].
      * left. by rewrite Hx', Hx.
      * right. exists more. by rewrite Hx', Hx.
    + right. rewrite Hq in Hq1. simplify_eq.
      destruct (grows_run es q1 q' Hr) as [more Hm].
      exists more. by rewrite Hm, Hx, <- app_assoc.
Qed.

(** ** Running next *)

(** X6.  While the status is [Processing] or [Paused], a call of
    [addNextTask] puts
    the submitted entry ahead of all pending entries and changes nothing else:
    the task in flight is not preempted and nothing is executed by the call.
    When the task in flight then settles without pausing the queue, its loop
    pulls that entry and invokes the submitted task, while all entries that
    were pending stay pending.  In general, whether the call is made by a
    caller or by the running task itself, the submitted task is the first one
    executed after the call, as long as no method is called that adds to the
    pending collection or empties it. *)
Theorem addNextTask_runs_next (t : Task) (q : Queue) :
  status q = Processing ∨ status q = Paused →
  addNextTask t q = set_queue (mkEntry t None :: queue q) q ∧
  queue (addNextTask t q) = mkEntry t None :: queue q ∧
  executed (addNextTask t q) = executed q ∧
  loops (addNextTask t q) = loops q ∧
  stack (addNextTask t q) = stack q ∧
  currentTaskKey (addNextTask t q) = currentTaskKey q ∧
  (∀ lid o, awaiting lid o q → harmless q o →
   ∃ q', run [Call (AddNextTask t); TaskSettled lid] q = Some q' ∧
     executed q' = executed q ++ [name t] ∧
     queue q' = queue q ∧
     stack q' = [mkFrame lid (body t) (outcome t) false] ∧
     status q' = Processing) ∧
  (∀ e es q1 q',
     called e q = Some (AddNextTask t) →
     step e q = Some q1 → quietly es q1 → run es q1 = Some q' →
     (executed q' = executed q ∧ queue q' = mkEntry t None :: queue q)
     ∨ (∃ more, executed q' = executed q ++ name t :: more)).
Proof.
  intros Hs.
  assert (Hadd : addNextTask t q = set_queue (mkEntry t None :: queue q) q)
    by by apply addNextTask_busy.
  split; [done|]. rewrite Hadd.
  split; [done|]. split; [done|]. split; [done|]. split; [done|].
  split; [done|]. split.
  - intros lid o Ha Hh. pose proof Ha as (Hk & Hp & Hl).
    assert (Hlt : lid < length (loops q)) by by eapply lookup_lt_Some.
    cbn [run]. rewrite step_Call by done. cbn [call]. rewrite Hadd.
    rewrite (settle_invokes lid o (mkEntry t None) (queue q)) by done.
    eexists. split; [done|]. done.
  - intros e es q1 q' Hc Hs1 Hquiet Hr.
    destruct (step_called e _ q Hc) as (fs & Hs1').
    rewrite Hs1' in Hs1. injection Hs1 as <-. cbn [call] in *.
    assert (Hs' : status (set_stack fs q) = Processing
                  ∨ status (set_stack fs q) = Paused) by exact Hs.
    rewrite (addNextTask_busy t _ Hs') in Hr, Hquiet.
    by apply (front_runs_first es _ q' (mkEntry t None) (queue q) Hquiet).
Qed.

(** The theorem at a queue with task 1 in flight and tasks 2 and 3 pending:
    task 4, submitted with [addNextTask], is the next one executed. *)
Lemma addNextTask_runs_next_witness :
  (status Scenario.busy = Processing ∨ status Scenario.busy = Paused) ∧
  awaiting 0 Fulfils Scenario.busy ∧
  harmless Scenario.busy Fulfils ∧
  (name ∘ task <$> queue Scenario.busy) = [2; 3] ∧
  executed Scenario.busy = [1] ∧
  executed (addNextTask (Tests.plain 4) Scenario.busy) = [1] ∧
  ∃ q', run [Call (AddNextTask (Tests.plain 4)); TaskSettled 0] Scenario.busy
        = Some q' ∧
    executed q' = [1; 4] ∧
    (name ∘ task <$> queue q') = [2; 3].
Proof.
  assert (Hs : status Scenario.busy = Processing ∨ status Scenario.busy = Paused)
    by (left; reflexivity).
  assert (Ha : awaiting 0 Fulfils Scenario.busy) by (repeat split).
  assert (Hh : harmless Scenario.busy Fulfils) by (left; reflexivity).
  destruct (addNextTask_runs_next (Tests.plain 4) _ Hs)
    as (_ & _ & Hx & _ & _ & _ & Hnext & _).
  destruct (Hnext 0 Fulfils Ha Hh) as (q' & Hstep & Hx' & Hq' & _).
  split; [exact Hs|]. split; [exact Ha|]. split; [exact Hh|].
  split; [reflexivity|]. split; [reflexivity|]. split; [exact Hx|].
  exists q'. split; [exact Hstep|]. split; [exact Hx'|].
  rewrite Hq'. reflexivity.
Defined.

(** ** Loops of a cancelled generation *)

(** A loop whose generation is no longer the live one, resumed after its
    task, changes neither the status nor the notifications, provided the task
    did not fail under [pauseOnError]. *)
Lemma stale_loop_is_silent (lid cv : nat) (o : Outcome) (q : Queue) :
  version q ≠ cv → harmless q o →
  _status (processLoop_settled lid cv o q) = _status q ∧
  notified (processLoop_settled lid cv o q) = notified q ∧
  queue (processLoop_settled lid cv o q) = queue q ∧
  executed (processLoop_settled lid cv o q) = executed q.
Proof.
  intros Hv Hh.
  assert (Hi : processLoop_settled lid cv o q
               = processLoop_iterate lid cv false (set_currentTaskKey None q)).
  { destruct o as [|err]; [done|]. destruct Hh as [Hp|Ho]; [|done].
    unfold processLoop_settled. simpl. by rewrite Hp. }
  rewrite Hi. unfold processLoop_iterate, processLoop_exit. simpl.
  rewrite (bool_decide_false (version q = cv)) by done.
  rewrite andb_false_r. simpl. by rewrite bool_decide_true.
Qed.

(** But when its task fails under [pauseOnError], the loop sets the status
    to [Paused] and stores the error, whatever its generation. *)
Lemma stale_loop_pauses (lid cv : nat) (err : Thrown) (q : Queue) :
  pauseOnError q = true →
  _status (processLoop_settled lid cv (Rejects err) q) = Paused ∧
  lastError (processLoop_settled lid cv (Rejects err) q) = Some (toError err) ∧
  (_status q ≠ Paused →
   notified (processLoop_settled lid cv (Rejects err) q) = notified q ++ [Paused]).
Proof.
  intros Hp. rewrite settled_pauses by done. unfold await_resume.
  split; [by fields|]. split; [by fields|].
  intros Hs. simpl. by rewrite setStatus_change.
Qed.

(** C1 (the code departs from it).  Under [pauseOnError], a task calls
    [cancelQueue] and then fails.  When the failure is delivered, the queue is
    [Cancelled] and the generation (1) is past the one the loop captured (0);
    yet the loop sets the status to [Paused], and [onStatusChange] receives
    [Paused] after [Cancelled].  If the queue is then resumed, the loop winds
    down without a word and the status stays [Processing] with no loop left:
    a task submitted afterwards stays pending, and nothing happens any more
    unless a caller calls the queue again. *)
Theorem stale_loop_pauses_cancelled_queue :
  run Scenario.cancel_then_fail (new_Queue true) = Some Scenario.cancelled_inside ∧
  status Scenario.cancelled_inside = Cancelled ∧
  version Scenario.cancelled_inside = 1 ∧
  loops Scenario.cancelled_inside !! 0
  = Some (mkLoop 0 (AwaitTask (Rejects (ThrownError (mkError "late"))))) ∧
  (∃ q', step (TaskSettled 0) Scenario.cancelled_inside = Some q' ∧
     status q' = Paused ∧
     notified q' = [Idle; Processing; Cancelled; Paused] ∧
     lastTaskError q' = Some (mkError "late")) ∧
  run Scenario.resume_after_late_failure Scenario.cancelled_inside
    = Some Scenario.wedged ∧
  settled Scenario.wedged ∧
  status Scenario.wedged = Processing ∧
  notified Scenario.wedged = [Idle; Processing; Cancelled; Paused; Processing] ∧
  executed Scenario.wedged = [1] ∧
  size Scenario.wedged = 1.
Proof.
  split; [reflexivity|]. split; [reflexivity|]. split; [reflexivity|].
  split; [reflexivity|]. split.
  { eexists. split; [reflexivity|]. repeat split. }
  split; [reflexivity|]. split; [|repeat split].
  apply settled_when_loops_done; [reflexivity|].
  repeat constructor.
Qed.

(** ** Starting the loop *)

(** [startRunner] on an idle queue with no loop registered and an entry
    pending: a loop is started, takes the entry at the front and invokes its
    task. *)
Lemma startRunner_starts (e : QueueEntry) (rest : list QueueEntry) (q : Queue) :
  runner q = None → _status q = Idle → queue q = e :: rest →
  startRunner q
  = set_stack (mkFrame (length (loops q)) (body (task e)) (outcome (task e)) true
                 :: stack q)
      (set_loops (loops q ++ [mkLoop (version q) Running])
         (set_executed (executed q ++ [name (task e)])
            (set_currentTaskKey (key e)
               (set_queue rest
                  (onStatusChange Processing (set__status Processing q)))))).
Proof.
  intros Hr Hs Hq.
  unfold startRunner, isCancelled, processLoop.
  rewrite Hr, Hs, Hq. simpl.
  rewrite setStatus_change by congruence.
  rewrite (iterate_invokes _ _ true e rest) by done.
  simpl. unfold set_stack, set_loops. simpl. do 2 f_equal.
  rewrite insert_app_r_alt by done. by rewrite Nat.sub_diag.
Qed.

(** The guard of line 201. *)
Lemma startRunner_registered (q : Queue) :
  runner q ≠ None → startRunner q = q.
Proof. intros H. unfold startRunner. by rewrite bool_decide_true. Qed.

Lemma runner_resurrect (q : Queue) : runner (resurrect q) = runner q.
Proof. unfold resurrect. by case_match. Qed.

Lemma executed_resurrect (q : Queue) : executed (resurrect q) = executed q.
Proof. unfold resurrect. by case_match. Qed.

Lemma loops_resurrect (q : Queue) : loops (resurrect q) = loops q.
Proof. unfold resurrect. by case_match. Qed.

Lemma stack_resurrect (q : Queue) : stack (resurrect q) = stack q.
Proof. unfold resurrect. by case_match. Qed.

Lemma status_resurrect (q : Queue) :
  _status (resurrect q) = if isCancelled q then Idle else _status q.
Proof. unfold resurrect. by case_match. Qed.

Lemma idle_resurrect (q : Queue) :
  status q = Idle ∨ status q = Cancelled → _status (resurrect q) = Idle.
Proof.
  unfold status. rewrite status_resurrect. unfold isCancelled.
  intros [H|H]; rewrite H; done.
Qed.

(** What [enqueue] does once the entry is left out (line 143) or inserted
    (line 153), by the state [q] of the queue at that point. *)
Lemma skip_quiet (q : Queue) :
  _status q = Processing ∨ _status q = Paused ∨ queue q = [] ∨ runner q ≠ None →
  (if isIdle q && bool_decide (0 < length (queue q)) then startRunner q else q)
  = q.
Proof.
  unfold isIdle. intros [H|[H|[H|H]]].
  - by rewrite H.
  - by rewrite H.
  - rewrite H. simpl. by rewrite andb_false_r.
  - rewrite (startRunner_registered _ H). by case_match.
Qed.

Lemma insert_quiet (q : Queue) :
  _status q = Processing ∨ _status q = Paused ∨ runner q ≠ None →
  (if isIdle q then startRunner q else q) = q.
Proof.
  unfold isIdle. intros [H|[H|H]].
  - by rewrite H.
  - by rewrite H.
  - rewrite (startRunner_registered _ H). by case_match.
Qed.

Lemma skip_starts (q : Queue) :
  _status q = Idle → queue q ≠ [] →
  (if isIdle q && bool_decide (0 < length (queue q)) then startRunner q else q)
  = startRunner q.
Proof.
  intros Hs Hq. unfold isIdle. rewrite Hs. simpl.
  rewrite bool_decide_true; [done|]. destruct (queue q); simpl; [done|lia].
Qed.

Lemma insert_starts (q : Queue) :
  _status q = Idle → (if isIdle q then startRunner q else q) = startRunner q.
Proof. intros Hs. unfold isIdle. by rewrite Hs. Qed.

(** The loop that [startRunner] starts, as a caller sees it. *)
Lemma started (e : QueueEntry) (rest : list QueueEntry) (q : Queue) :
  runner q = None → _status q = Idle → queue q = e :: rest →
  status (startRunner q) = Processing ∧
  notified (startRunner q) = notified q ++ [Processing] ∧
  executed (startRunner q) = executed q ++ [name (task e)] ∧
  queue (startRunner q) = rest ∧
  currentTaskKey (startRunner q) = key e ∧
  loops (startRunner q) = loops q ++ [mkLoop (version q) Running] ∧
  stack (startRunner q)
  = mkFrame (length (loops q)) (body (task e)) (outcome (task e)) true
      :: stack q.
Proof. intros Hr Hs Hq. by rewrite (startRunner_starts e rest). Qed.

(** C6, as amended.  A call of [addTask] gives a non-empty dedupe key [K].
    If [K] is the key of the last pending entry or, the pending collection
    being empty, the current-task-key marker, no entry is inserted.  Then
    either the call changes nothing but to resurrect a cancelled queue, and
    the pending count is what it was: that is when the status is
    [Processing] or [Paused], when nothing is pending, or when a loop is
    still registered as the runner.  Or the queue is [Idle] (or [Cancelled],
    and resurrected) with entries pending and no loop registered: then the
    loop is started, the status becomes [Processing], and the loop takes the
    entry at the front and invokes its task, so that the pending count is
    less by one.  If the key compared with is another one, the entry is
    inserted at the back, even when [K] occurs further up in the pending
    collection: the pending collection is longer by that entry, unless the
    loop is started, which takes the entry at the front at once.
    [addNextTask] compares no key and always inserts at the front. *)
Theorem addTask_dedupe_effect (t : Task) (K : string) (q : Queue) :
  K ≠ "" →
  (((∃ es e, queue q = es ++ [e] ∧ key e = Some K)
    ∨ (queue q = [] ∧ currentTaskKey q = Some K)) →
   (status q = Processing ∨ status q = Paused ∨ queue q = [] ∨ runner q ≠ None →
      addTask t (Some K) q = resurrect q ∧
      queue (addTask t (Some K) q) = queue q ∧
      size (addTask t (Some K) q) = size q ∧
      executed (addTask t (Some K) q) = executed q) ∧
   (∀ e rest,
      status q = Idle ∨ status q = Cancelled → runner q = None →
      queue q = e :: rest →
      status (addTask t (Some K) q) = Processing ∧
      notified (addTask t (Some K) q) = notified (resurrect q) ++ [Processing] ∧
      executed (addTask t (Some K) q) = executed q ++ [name (task e)] ∧
      queue (addTask t (Some K) q) = rest ∧
      S (size (addTask t (Some K) q)) = size q)) ∧
  (((∃ es e, queue q = es ++ [e] ∧ key e ≠ Some K)
    ∨ (queue q = [] ∧ currentTaskKey q ≠ Some K)) →
   (status q = Processing ∨ status q = Paused ∨ runner q ≠ None →
      queue (addTask t (Some K) q) = queue q ++ [mkEntry t (Some K)] ∧
      size (addTask t (Some K) q) = S (size q) ∧
      executed (addTask t (Some K) q) = executed q) ∧
   (∀ e rest,
      status q = Idle ∨ status q = Cancelled → runner q = None →
      queue q ++ [mkEntry t (Some K)] = e :: rest →
      status (addTask t (Some K) q) = Processing ∧
      executed (addTask t (Some K) q) = executed q ++ [name (task e)] ∧
      queue (addTask t (Some K) q) = rest)) ∧
  ((status q = Processing ∨ status q = Paused ∨ runner q ≠ None →
      queue (addNextTask t q) = mkEntry t None :: queue q ∧
      size (addNextTask t q) = S (size q) ∧
      executed (addNextTask t q) = executed q) ∧
   (status q = Idle ∨ status q = Cancelled → runner q = None →
      status (addNextTask t q) = Processing ∧
      executed (addNextTask t q) = executed q ++ [name t] ∧
      queue (addNextTask t q) = queue q)).
Proof.
  intros HK.
  assert (Hbusy : ∀ q' : Queue,
            _status q' = _status (resurrect q) → runner q' = runner q →
            status q = Processing ∨ status q = Paused ∨ runner q ≠ None →
            _status q' = Processing ∨ _status q' = Paused ∨ runner q' ≠ None).
  { intros q' -> ->. rewrite status_resurrect. unfold status, isCancelled.
    intros [H|[H|H]]; rewrite ?H; auto. }
  split; [|split].
  - intros Hsame.
    assert (Hl : lastKey q = Some K).
    { destruct Hsame as [(es & e & Hq & He) | (Hq & Hc)].
      - by rewrite (lastKey_snoc _ _ _ Hq).
      - by rewrite (lastKey_nil _ Hq). }
    rewrite (addTask_duplicate t K q HK Hl). split.
    + intros Hc. rewrite skip_quiet.
      * unfold size. by rewrite queue_resurrect, executed_resurrect.
      * rewrite queue_resurrect, runner_resurrect, status_resurrect.
        unfold status, isCancelled in *.
        destruct Hc as [H|[H|[H|H]]]; rewrite ?H; simpl; auto.
    + intros e rest Hs Hr Hq.
      pose proof (idle_resurrect q Hs) as Hi.
      rewrite skip_starts by (by rewrite ?queue_resurrect, ?Hq).
      destruct (started e rest (resurrect q)) as (? & ? & Hx & Hq' & _);
        [by rewrite runner_resurrect | done | by rewrite queue_resurrect |].
      unfold size. rewrite Hq', Hq. rewrite executed_resurrect in Hx. done.
  - intros Hother.
    assert (Hl : lastKey q ≠ Some K).
    { destruct Hother as [(es & e & Hq & He) | (Hq & Hc)].
      - by rewrite (lastKey_snoc _ _ _ Hq).
      - by rewrite (lastKey_nil _ Hq). }
    rewrite (addTask_inserts t (Some K) q (or_intror Hl)).
    set (q1 := insert_entry end_ (mkEntry t (Some K)) (resurrect q)).
    assert (Hq1 : queue q1 = queue q ++ [mkEntry t (Some K)])
      by (subst q1; by rewrite queue_insert_end, queue_resurrect).
    assert (Hx1 : executed q1 = executed q)
      by (subst q1; simpl; apply executed_resurrect).
    assert (Hr1 : runner q1 = runner q)
      by (subst q1; simpl; apply runner_resurrect).
    assert (Hs1 : _status q1 = _status (resurrect q)) by done.
    clearbody q1. split.
    + intros Hc. rewrite insert_quiet by by apply Hbusy.
      unfold size. by rewrite Hq1, Hx1, length_app, Nat.add_comm.
    + intros e rest Hs Hr Hq.
      rewrite insert_starts by (by rewrite Hs1, idle_resurrect).
      destruct (started e rest q1) as (? & ? & Hx & Hq' & _);
        [congruence | by rewrite Hs1, idle_resurrect | congruence |].
      by rewrite Hx, Hx1.
  - unfold addNextTask, enqueue. simpl.
    set (q1 := set_queue (mkEntry t None :: queue (resurrect q)) (resurrect q)).
    assert (Hq1 : queue q1 = mkEntry t None :: queue q)
      by (subst q1; simpl; by rewrite queue_resurrect).
    assert (Hx1 : executed q1 = executed q)
      by (subst q1; simpl; apply executed_resurrect).
    assert (Hr1 : runner q1 = runner q)
      by (subst q1; simpl; apply runner_resurrect).
    assert (Hs1 : _status q1 = _status (resurrect q)) by done.
    clearbody q1. split.
    + intros Hc. rewrite insert_quiet by by apply Hbusy.
      unfold size. by rewrite Hq1, Hx1.
    + intros Hs Hr.
      rewrite insert_starts by (by rewrite Hs1, idle_resurrect).
      destruct (started (mkEntry t None) (queue q) q1) as (? & ? & Hx & Hq' & _);
        [congruence | by rewrite Hs1, idle_resurrect | congruence |].
      by rewrite Hx, Hx1.
Qed.

(** ** A loop left blocked for ever *)

Lemma forsaken_from (lid cv : nat) (q q' : Queue) :
  loops q' = loops q → resumeResolve q' = resumeResolve q →
  stack q' = stack q → forsaken lid cv q → forsaken lid cv q'.
Proof. unfold forsaken. by intros -> -> ->. Qed.

Lemma forsaken_setStatus (lid cv : nat) (s : QueueStatus) (q : Queue) :
  forsaken lid cv q → forsaken lid cv (setStatus s q).
Proof. apply forsaken_from; by autorewrite with fields. Qed.

Lemma forsaken_call_resumeResolve (lid cv : nat) (q : Queue) :
  forsaken lid cv q → forsaken lid cv (call_resumeResolve q).
Proof.
  intros H. pose proof H as (Hl & Hr & Hk). unfold call_resumeResolve.
  destruct (resumeResolve q) as [lid'|] eqn:E; [|done].
  destruct (loops q !! lid') as [[cv' []]|]; try done.
  split; [|split]; simpl.
  - rewrite list_lookup_insert_ne; [done | congruence].
  - by rewrite E.
  - done.
Qed.

Lemma forsaken_unset (lid cv : nat) (q : Queue) :
  forsaken lid cv q → forsaken lid cv (set_resumeResolve None q).
Proof. intros (Hl & Hr & Hk). by split. Qed.

Lemma forsaken_yield (lid cv : nat) (start : bool) (lid' : nat) (q : Queue) :
  forsaken lid cv q → forsaken lid cv (yield_to_caller start lid' q).
Proof. destruct start; [by apply forsaken_from | done]. Qed.

Lemma forsaken_await_resume (lid cv lid' cv' : nat) (q : Queue) :
  lid' ≠ lid → forsaken lid cv q → forsaken lid cv (await_resume lid' cv' q).
Proof.
  intros Hne (Hl & Hr & Hk). split; [|split]; simpl; [|congruence|done].
  by rewrite list_lookup_insert_ne.
Qed.

Lemma forsaken_exit (lid cv lid' cv' : nat) (q : Queue) :
  lid' ≠ lid → forsaken lid cv q → forsaken lid cv (processLoop_exit lid' cv' q).
Proof.
  intros Hne H. unfold processLoop_exit.
  set (q1 := if bool_decide (version q ≠ cv') then _ else _).
  assert (H1 : forsaken lid cv q1).
  { subst q1. repeat case_match; try done. by apply forsaken_setStatus. }
  clearbody q1. destruct H1 as (Hl & Hr & Hk).
  split; [|by split]. simpl. by rewrite list_lookup_insert_ne.
Qed.

Lemma forsaken_iterate (lid cv lid' cv' : nat) (start : bool) (q : Queue) :
  lid' ≠ lid → forsaken lid cv q →
  forsaken lid cv (processLoop_iterate lid' cv' start q).
Proof.
  intros Hne H. unfold processLoop_iterate.
  repeat case_match;
    first [ apply forsaken_yield;
            first [ by apply forsaken_await_resume
                  | by apply forsaken_exit
                  | apply forsaken_exit; [done|]; by eapply forsaken_from ]
          | destruct H as (Hl & Hr & Hk); split; [|split]; simpl;
            [ by rewrite list_lookup_insert_ne | done | by constructor ] ].
Qed.

Lemma forsaken_settled (lid cv lid' cv' : nat) (o : Outcome) (q : Queue) :
  lid' ≠ lid → forsaken lid cv q →
  forsaken lid cv (processLoop_settled lid' cv' o q).
Proof.
  intros Hne H. unfold processLoop_settled.
  assert (H1 : forsaken lid cv (set_currentTaskKey None q))
    by by eapply forsaken_from.
  destruct o as [|err]; [by apply forsaken_iterate|]. simpl.
  destruct (pauseOnError q).
  - apply forsaken_await_resume; [done|]. apply forsaken_setStatus.
    by eapply forsaken_from.
  - by apply forsaken_iterate.
Qed.

Lemma forsaken_startRunner (lid cv : nat) (q : Queue) :
  forsaken lid cv q → forsaken lid cv (startRunner q).
Proof.
  intros H. unfold startRunner, processLoop.
  repeat case_match; try done; try by apply forsaken_setStatus.
  assert (lid < length (loops q)) by (eapply lookup_lt_Some, H).
  autorewrite with fields.
  apply forsaken_iterate; [lia|].
  apply (forsaken_setStatus _ _ Processing) in H.
  destruct H as (Hl & Hr & Hk). split; [|by split]. simpl.
  autorewrite with fields in *. by rewrite lookup_app_l.
Qed.

Lemma forsaken_resurrect (lid cv : nat) (q : Queue) :
  forsaken lid cv q → forsaken lid cv (resurrect q).
Proof. unfold resurrect. case_match; [by apply forsaken_from | done]. Qed.

Lemma forsaken_enqueue (lid cv : nat) (t : Task) (p : Position)
    (k : option string) (q : Queue) :
  forsaken lid cv q → forsaken lid cv (enqueue t p k q).
Proof.
  intros H%forsaken_resurrect. unfold enqueue.
  assert (H1 : forsaken lid cv (insert_entry p (mkEntry t k) (resurrect q)))
    by (destruct p; by eapply forsaken_from).
  repeat case_match; try done; by apply forsaken_startRunner.
Qed.

Lemma forsaken_call (lid cv : nat) (op : Op) (q : Queue) :
  forsaken lid cv q → forsaken lid cv (call op q).
Proof.
  intros H. destruct op; simpl.
  - by apply forsaken_enqueue.
  - by apply forsaken_enqueue.
  - unfold pauseQueue. case_match; [by apply forsaken_setStatus | done].
  - unfold resumeQueue.
    set (q1 := if isPaused q then _ else q).
    assert (H1 : forsaken lid cv q1).
    { subst q1. case_match; [|done].
      apply forsaken_unset, forsaken_call_resumeResolve, forsaken_setStatus.
      by eapply forsaken_from. }
    case_match; [by apply forsaken_startRunner | done].
  - unfold cancelQueue. case_match; [done|].
    apply forsaken_unset, forsaken_call_resumeResolve.
    eapply forsaken_from; [..|by apply (forsaken_setStatus _ _ Cancelled)];
      done.
  - unfold clearQueue.
    assert (H1 : forsaken lid cv (set_queue [] q)) by by eapply forsaken_from.
    case_match; [|done]. apply forsaken_setStatus. by eapply forsaken_from.
  - by eapply forsaken_from.
Qed.

(** A loop that is blocked on the resume signal while the resume slot holds
    another resolver, or none, stays blocked whatever happens. *)
Lemma forsaken_step (lid cv : nat) (e : Event) (q q' : Queue) :
  step e q = Some q' → forsaken lid cv q → forsaken lid cv q'.
Proof.
  intros Hs H. pose proof H as (Hl & Hr & Hk). revert Hs. unfold step.
  destruct (stack q) as [|f fs] eqn:Hst.
  - destruct e as [op| |lid'|lid'|lid']; try done.
    + intros [= <-]. by apply forsaken_call.
    + destruct (loops q !! lid') as [[cv' [|o|?|?]]|] eqn:E; try done.
      intros [= <-]. apply forsaken_settled; [congruence | done].
    + destruct (loops q !! lid') as [[cv' [|?|[]|?]]|] eqn:E; try done.
      intros [= <-]. apply forsaken_iterate; [congruence | done].
    + destruct (loops q !! lid') as [[cv' [|?|?|[]]]|] eqn:E; try done.
      intros [= <-]. split; [|split]; simpl; [|done|apply H].
      rewrite list_lookup_insert_ne; [done | congruence].
  - destruct e; try done. intros [= <-]. unfold tick.
    apply Forall_cons in Hk as [Hf Hfs].
    destruct (fcalls f) as [|c cs].
    + apply forsaken_yield. split; [|split]; simpl; try done.
      by rewrite list_lookup_insert_ne.
    + apply forsaken_call. split; [|split]; simpl; try done.
      by constructor.
Qed.

Lemma forsaken_run (lid cv : nat) (es : list Event) (q q' : Queue) :
  run es q = Some q' → forsaken lid cv q → forsaken lid cv q'.
Proof.
  revert q. induction es as [|e es IH]; simpl; intros q Hr H.
  - by simplify_eq.
  - destruct (step e q) as [q1|] eqn:Hs; [|done].
    eauto using forsaken_step.
Qed.

(** ** The agenda *)

Lemma agenda_from (q0 q : Queue) :
  executed q = executed q0 → queue q = queue q0 → agenda q = agenda q0.
Proof. unfold agenda, pending_names. by intros -> ->. Qed.

Lemma agenda_iterate (lid cv : nat) (start : bool) (q : Queue) :
  agenda (processLoop_iterate lid cv start q) = agenda q.
Proof.
  unfold agenda, pending_names, processLoop_iterate, processLoop_exit,
    yield_to_caller, await_resume, setStatus, isCancelled, isPaused.
  destruct q as [qu st rn rr le poe ck v ls sk asg ntf ex], st, start;
    simpl;
    repeat (first [case_bool_decide | case_match]; simpl in *; simplify_eq);
    try done; by rewrite <- app_assoc.
Qed.

Lemma agenda_settled (lid cv : nat) (o : Outcome) (q : Queue) :
  agenda (processLoop_settled lid cv o q) = agenda q.
Proof.
  unfold processLoop_settled.
  pose proof (agenda_iterate lid cv false (set_currentTaskKey None q)) as Hi.
  destruct o as [|err]; [exact Hi|]. simpl.
  destruct (pauseOnError q); [|exact Hi].
  apply agenda_from; unfold await_resume; simpl; by autorewrite with fields.
Qed.

Lemma agenda_startRunner (q : Queue) : agenda (startRunner q) = agenda q.
Proof.
  unfold startRunner, processLoop.
  destruct (bool_decide (runner q ≠ None)); [done|].
  destruct (isCancelled q || bool_decide (length (queue q) = 0)).
  - apply agenda_from; by autorewrite with fields.
  - rewrite agenda_iterate. apply agenda_from; simpl; by autorewrite with fields.
Qed.

Lemma agenda_resumeQueue (q : Queue) : agenda (resumeQueue q) = agenda q.
Proof.
  unfold resumeQueue.
  set (q1 := if isPaused q then _ else q).
  assert (H1 : agenda q1 = agenda q).
  { subst q1. unfold call_resumeResolve. destruct (isPaused q); [|done].
    apply agenda_from; simpl; repeat case_match; simpl;
      by autorewrite with fields. }
  destruct (isIdle q1 && bool_decide (0 < length (queue q1))); [|done].
  by rewrite agenda_startRunner.
Qed.

Lemma agenda_enqueue (t : Task) (p : Position) (k : option string) (q : Queue) :
  agenda (enqueue t p k q)
  = match p with
    | end_ => if suppressed k q then agenda q else agenda q ++ [name t]
    | front => executed q ++ name t :: pending_names q
    end.
Proof.
  unfold enqueue, suppressed. rewrite lastKey_resurrect.
  assert (H0 : executed (resurrect q) = executed q)
    by (unfold resurrect; by case_match).
  pose proof (queue_resurrect q) as H1.
  assert (Hr : agenda (resurrect q) = agenda q) by by apply agenda_from.
  destruct p; simpl.
  - set (q1 := set_queue _ _).
    assert (agenda q1 = executed q ++ name t :: pending_names q) as <-.
    { unfold agenda, pending_names. subst q1. simpl. by rewrite H0, H1. }
    case_match; by rewrite ?agenda_startRunner.
  - destruct (truthy k && bool_decide (lastKey q = k)).
    + case_match; by rewrite ?agenda_startRunner.
    + set (q1 := set_queue _ _).
      assert (agenda q1 = agenda q ++ [name t]) as <-.
      { unfold agenda, pending_names. subst q1. simpl.
        by rewrite H0, H1, fmap_app, app_assoc. }
      case_match; by rewrite ?agenda_startRunner.
Qed.

Lemma agenda_call (op : Op) (q : Queue) :
  agenda (call op q)
  = match op with
    | AddTask t k => if suppressed k q then agenda q else agenda q ++ [name t]
    | AddNextTask t => executed q ++ name t :: pending_names q
    | CancelQueue => if isCancelled q then agenda q else executed q
    | ClearQueue => executed q
    | _ => agenda q
    end.
Proof.
  destruct op; simpl; unfold addTask, addNextTask.
  - by rewrite agenda_enqueue.
  - by rewrite agenda_enqueue.
  - unfold pauseQueue. case_match; apply agenda_from; by autorewrite with fields.
  - apply agenda_resumeQueue.
  - unfold cancelQueue, call_resumeResolve.
    destruct (isCancelled q); [done|].
    unfold agenda, pending_names.
    repeat case_match; simpl; autorewrite with fields; by rewrite app_nil_r.
  - unfold clearQueue, agenda, pending_names.
    case_match; simpl; autorewrite with fields; by rewrite app_nil_r.
  - done.
Qed.

Lemma agenda_loop (e : Event) (q q' : Queue) :
  called e q = None → step e q = Some q' → agenda q' = agenda q.
Proof.
  unfold called, step, tick.
  destruct e as [op| |lid|lid|lid], (stack q) as [|f fs]; try done.
  - destruct (fcalls f); [|done]. intros _ [= <-].
    apply agenda_from; by destruct (fstart f).
  - destruct (loops q !! lid) as [[cv [|o|?|?]]|]; try done.
    intros _ [= <-]. apply agenda_settled.
  - destruct (loops q !! lid) as [[cv [|?|[]|?]]|]; try done.
    intros _ [= <-]. apply agenda_iterate.
  - destruct (loops q !! lid) as [[cv [|?|?|[]]]|]; try done.
    by intros _ [= <-].
Qed.

Lemma agenda_step (e : Event) (q q' : Queue) :
  step e q = Some q' →
  agenda q'
  = match called e q with
    | Some (AddTask t k) =>
        if suppressed k q then agenda q else agenda q ++ [name t]
    | Some (AddNextTask t) => executed q ++ name t :: pending_names q
    | Some CancelQueue => if isCancelled q then agenda q else executed q
    | Some ClearQueue => executed q
    | _ => agenda q
    end.
Proof.
  intros Hs. destruct (called e q) as [op|] eqn:Hc.
  - destruct (step_called e op q Hc) as (fs & Hs').
    rewrite Hs' in Hs. injection Hs as <-.
    rewrite agenda_call. by destruct q.
  - by apply (agenda_loop e).
Qed.

(** X2.  How one event changes the agenda, that is the tasks executed so
    far followed by the pending ones.  A step of a loop, the end of a task
    body, [pauseQueue], [resumeQueue] and [clearLastError] leave it as it
    is, whether or not a loop takes an entry on the way.  [addTask] puts the
    task at its end, unless the call is suppressed; [addNextTask] puts it
    right after the tasks executed; [cancelQueue], on a queue that is not
    [Cancelled], and [clearQueue] cut it down to the tasks executed. *)
Theorem agenda_changes_by_calls (e : Event) (q q' : Queue) :
  step e q = Some q' →
  agenda q'
  = match called e q with
    | Some (AddTask t k) =>
        if suppressed k q then agenda q else agenda q ++ [name t]
    | Some (AddNextTask t) => executed q ++ name t :: pending_names q
    | Some CancelQueue => if isCancelled q then agenda q else executed q
    | Some ClearQueue => executed q
    | _ => agenda q
    end.
Proof.
  intros Hs. destruct (called e q) as [op|] eqn:Hc.
  - destruct (step_called e op q Hc) as (fs & Hs').
    rewrite Hs' in Hs. injection Hs as <-.
    rewrite agenda_call. by destruct q.
  - by apply (agenda_loop e).
Qed.

Lemma takes_none (q q' : Queue) :
  executed q' = executed q → queue q' = queue q → takes q q'.
Proof. intros Hx Hq. exists 0. by rewrite Hx, Hq, drop_0, app_nil_r. Qed.

Lemma takes_trans (q1 q2 q3 : Queue) : takes q1 q2 → takes q2 q3 → takes q1 q3.
Proof.
  intros (k1 & Hx1 & Hq1) (k2 & Hx2 & Hq2). exists (k1 + k2).
  rewrite Hx2, Hq2, Hx1, Hq1, drop_drop, <- take_take_drop, fmap_app.
  by rewrite app_assoc.
Qed.

Lemma takes_from (q0 q q' : Queue) :
  executed q = executed q0 → queue q = queue q0 → takes q q' → takes q0 q'.
Proof. unfold takes. by intros <- <-. Qed.

Lemma takes_agenda (q q' : Queue) : takes q q' → agenda q' = agenda q.
Proof.
  intros (k & Hx & Hq). unfold agenda, pending_names.
  rewrite Hx, Hq, <- app_assoc, <- fmap_app. by rewrite take_drop.
Qed.

Lemma takes_iterate (lid cv : nat) (start : bool) (q : Queue) :
  takes q (processLoop_iterate lid cv start q).
Proof.
  unfold takes, processLoop_iterate, processLoop_exit, yield_to_caller,
    await_resume, setStatus, isCancelled, isPaused.
  destruct q as [qu st rn rr le poe ck v ls sk asg ntf ex], st, start;
    simpl;
    repeat (first [case_bool_decide | case_match]; simpl in *; simplify_eq);
    first [ by exists 0; rewrite app_nil_r | by exists 1 ].
Qed.

Lemma takes_settled (lid cv : nat) (o : Outcome) (q : Queue) :
  takes q (processLoop_settled lid cv o q).
Proof.
  unfold processLoop_settled.
  pose proof (takes_iterate lid cv false (set_currentTaskKey None q)) as Hi.
  destruct o as [|err]; [exact Hi|]. simpl.
  destruct (pauseOnError q); [|exact Hi].
  apply takes_none; unfold await_resume; simpl; by autorewrite with fields.
Qed.

Lemma takes_startRunner (q : Queue) : takes q (startRunner q).
Proof.
  unfold startRunner, processLoop.
  destruct (bool_decide (runner q ≠ None)); [by apply takes_none|].
  destruct (isCancelled q || bool_decide (length (queue q) = 0)).
  - apply takes_none; by autorewrite with fields.
  - eapply takes_from; [| |apply takes_iterate];
      simpl; by autorewrite with fields.
Qed.

Lemma takes_resumeQueue (q : Queue) : takes q (resumeQueue q).
Proof.
  unfold resumeQueue.
  set (q1 := if isPaused q then _ else q).
  assert (H1 : executed q1 = executed q ∧ queue q1 = queue q).
  { subst q1. unfold call_resumeResolve. destruct (isPaused q); [|done].
    simpl. repeat case_match; simpl; by autorewrite with fields. }
  destruct H1 as (Hx & Hq).
  destruct (isIdle q1 && bool_decide (0 < length (queue q1)));
    [|by apply takes_none].
  by eapply takes_from; [| |apply takes_startRunner].
Qed.

Lemma takes_call (op : Op) (q : Queue) :
  quiet (Some op) → takes q (call op q).
Proof.
  intros Hop. destruct op; try done; simpl.
  - unfold pauseQueue. case_match; apply takes_none; by autorewrite with fields.
  - apply takes_resumeQueue.
  - by apply takes_none.
Qed.

Lemma takes_step (e : Event) (q q' : Queue) :
  quiet (called e q) → step e q = Some q' → takes q q'.
Proof.
  intros Hquiet Hs.
  destruct (called e q) as [op|] eqn:Hc.
  - destruct (step_called e op q Hc) as (fs & Hs').
    rewrite Hs' in Hs. injection Hs as <-.
    by eapply takes_from; [| |by apply takes_call].
  - revert Hc Hs. unfold called, step, tick.
    destruct e as [op| |lid|lid|lid], (stack q) as [|f fs]; try done.
    + destruct (fcalls f); [|done]. intros _ [= <-].
      apply takes_none; by destruct (fstart f).
    + destruct (loops q !! lid) as [[cv [|o|?|?]]|]; try done.
      intros _ [= <-]. apply takes_settled.
    + destruct (loops q !! lid) as [[cv [|?|[]|?]]|]; try done.
      intros _ [= <-]. apply takes_iterate.
    + destruct (loops q !! lid) as [[cv [|?|?|[]]]|]; try done.
      intros _ [= <-]. by apply takes_none.
Qed.

(** X1.  As long as no method is called that adds to the pending
    collection or empties it ([pauseQueue], [resumeQueue] and
    [clearLastError] may be called), the tasks executed are those of pending
    entries taken from the front, in order, each once, and the entries
    behind them stay pending in their order. *)
Theorem pending_run_from_the_front (es : list Event) (q q' : Queue) :
  quietly es q → run es q = Some q' →
  ∃ k, executed q' = executed q ++ (name ∘ task <$> take k (queue q))
       ∧ queue q' = drop k (queue q).
Proof.
  revert q. induction es as [|e es IH]; simpl; intros q Hquiet Hr.
  - simplify_eq. by apply takes_none.
  - destruct Hquiet as [He Hquiet].
    destruct (step e q) as [q1|] eqn:Hs; [|done].
    eapply takes_trans; [by eapply takes_step | by apply IH].
Qed.

Lemma agenda_bounded_step (e : Event) (q q' : Queue) :
  step e q = Some q' → agenda q' ⊆+ agenda q ++ submitted_by (called e q).
Proof.
  intros Hs. destruct (called e q) as [op|] eqn:Hc.
  - destruct (step_called e op q Hc) as (fs & Hs').
    rewrite Hs' in Hs. injection Hs as <-.
    rewrite agenda_call.
    assert (Ha : agenda (set_stack fs q) = agenda q) by by destruct q.
    assert (Hx : executed (set_stack fs q) = executed q) by by destruct q.
    assert (Hp : pending_names (set_stack fs q) = pending_names q)
      by by destruct q.
    rewrite Ha, Hx, Hp. clear Ha Hx Hp.
    assert (Hex : ∀ l, executed q ⊆+ agenda q ++ l).
    { intros l. unfold agenda. rewrite <- app_assoc.
      apply submseteq_inserts_r. done. }
    destruct op; simpl; try (by rewrite app_nil_r); try apply Hex.
    + case_match; [by apply submseteq_inserts_r | done].
    + unfold agenda. rewrite <- app_assoc. apply submseteq_skips_l.
      by rewrite Permutation_cons_append.
    + case_match; [by rewrite app_nil_r | apply Hex].
  - rewrite (agenda_loop e q q' Hc Hs). simpl. by rewrite app_nil_r.
Qed.

Lemma agenda_bounded_run (es : list Event) :
  ∀ q q', run es q = Some q' → agenda q' ⊆+ agenda q ++ submitted es q.
Proof.
  induction es as [|e es IH]; simpl; intros q q' Hr.
  - simplify_eq. by rewrite app_nil_r.
  - destruct (step e q) as [q1|] eqn:Hs; [|done].
    etrans; [by apply IH|].
    rewrite app_assoc. apply submseteq_skips_r.
    by apply agenda_bounded_step.
Qed.

Lemma submseteq_NoDup (l k : list nat) : l ⊆+ k → NoDup k → NoDup l.
Proof.
  intros (l2 & Hsub & Hperm)%submseteq_sublist_l Hk.
  apply (sublist_NoDup l l2); [|done]. by rewrite Hperm.
Qed.

(** X3.  Along any schedule, the tasks executed together with the pending
    ones are, counted with their multiplicity, among those that were
    executed or pending at the start and those submitted since, by callers
    or by running tasks.  So no task is executed that was not submitted;
    and when these names are all different, no task is executed twice, or
    executed and still pending. *)
Theorem only_submitted_tasks_run (es : list Event) (q q' : Queue) :
  run es q = Some q' →
  executed q' ++ pending_names q'
    ⊆+ (executed q ++ pending_names q) ++ submitted es q ∧
  (∀ n, n ∈ executed q' →
     n ∈ executed q ∨ n ∈ pending_names q ∨ n ∈ submitted es q) ∧
  (NoDup ((executed q ++ pending_names q) ++ submitted es q) →
     NoDup (executed q') ∧ NoDup (pending_names q') ∧
     ∀ n, n ∈ executed q' → n ∉ pending_names q').
Proof.
  intros Hr. pose proof (agenda_bounded_run es q q' Hr) as Hb.
  unfold agenda in Hb. split; [exact Hb|]. split.
  - intros n Hn.
    assert (Hin : n ∈ (executed q ++ pending_names q) ++ submitted es q).
    { eapply elem_of_submseteq; [|exact Hb]. apply elem_of_app. by left. }
    rewrite !elem_of_app in Hin. tauto.
  - intros Hnd. pose proof (submseteq_NoDup _ _ Hb Hnd) as H.
    apply NoDup_app in H as (H1 & H2 & H3). done.
Qed.


Lemma accepted_along_app (es1 es2 : list Event) :
  ∀ q q1, run es1 q = Some q1 →
    accepted_along (es1 ++ es2) q = accepted_along es1 q ++ accepted_along es2 q1.
Proof.
  induction es1 as [|e es1 IH]; simpl; intros q q1 Hr.
  - by simplify_eq.
  - destruct (step e q) as [q2|] eqn:Hs; [|done].
    by rewrite (IH q2 q1 Hr), app_assoc.
Qed.

Lemma keyless_accepted (es : list Event) :
  ∀ q, keyless es q → accepted_along es q = submitted es q.
Proof.
  induction es as [|e es IH]; simpl; intros q Hk; [done|].
  destruct Hk as [He Hk]. f_equal.
  - destruct (called e q) as [[t k| | | | | |]|]; try done.
    simpl in *. unfold suppressed. by rewrite He.
  - destruct (step e q); [by apply IH | done].
Qed.

(** ** Submissions at any moment *)

Lemma orderly_eq p t :
  orderly p t = match outcome t with Fulfils => true | Rejects _ => negb p end
                && forallb (orderly_op p) (body t).
Proof. by destruct t. Qed.

Lemma weight_eq t : weight t = 2 + list_sum (op_weight <$> body t).
Proof. by destruct t. Qed.

Lemma orderly_harmless (q : Queue) (t : Task) :
  orderly (pauseOnError q) t = true → harmless q (outcome t).
Proof.
  rewrite orderly_eq. intros [H _]%andb_true_iff. unfold harmless.
  destruct (outcome t); [by right|]. left. by destruct (pauseOnError q).
Qed.

Lemma orderly_body (p : bool) (t : Task) :
  orderly p t = true → forallb (orderly_op p) (body t) = true.
Proof. rewrite orderly_eq. by intros [_ H]%andb_true_iff. Qed.

(** A submission to a queue at rest starts a loop, which takes the entry and
    invokes its task. *)
Lemma submit_at_rest (t : Task) (k : option string) (q : Queue) :
  resting q → orderly (pauseOnError q) t = true →
  ∃ q', step (Call (AddTask t k)) q = Some q' ∧
    invoking (length (loops q)) q' ∧
    stack q' = [mkFrame (length (loops q)) (body t) (outcome t) true] ∧
    queue q' = [] ∧ pauseOnError q' = pauseOnError q.
Proof.
  intros (Hk & Hs & Hr & Hc & Hq & Hl) Ht.
  rewrite step_Call by done. eexists. split; [done|].
  simpl. unfold addTask. rewrite enqueue_idle_empty by done.
  rewrite (startRunner_starts (mkEntry t k) []) by done. simpl.
  rewrite Hk. split; [|done].
  exists (body t), (outcome t), true. simpl.
  split; [done|]. split; [done|]. split; [done|]. split; [|split; [|split]].
  - by rewrite lookup_app_r, Nat.sub_diag.
  - unfold others_done. simpl. intros i l Hi Hil.
    destruct (decide (i < length (loops q))) as [Hlt|Hge].
    + rewrite lookup_app_l in Hil by done.
      by eapply (Forall_lookup_1 _ _ _ _ Hl).
    + rewrite lookup_app_r in Hil by lia.
      destruct (i - length (loops q)) as [|n] eqn:E; [lia|done].
  - exact (orderly_harmless q t Ht).
  - by apply orderly_body.
Qed.

Lemma step_inv (e : Event) (q q' : Queue) :
  step e q = Some q' →
  (∃ f fs, stack q = f :: fs ∧ e = Tick ∧ q' = tick f fs q)
  ∨ (stack q = []
     ∧ ((∃ op, e = Call op ∧ q' = call op q)
        ∨ (∃ lid cv o, e = TaskSettled lid
             ∧ loops q !! lid = Some (mkLoop cv (AwaitTask o))
             ∧ q' = processLoop_settled lid cv o q)
        ∨ (∃ lid cv, e = Resumed lid
             ∧ loops q !! lid = Some (mkLoop cv (AwaitResume true))
             ∧ q' = processLoop_iterate lid cv false q)
        ∨ (∃ lid cv, e = Finally lid
             ∧ loops q !! lid = Some (mkLoop cv (Returned false))
             ∧ q' = set_runner None
                      (set_loops (<[lid := mkLoop cv (Returned true)]> (loops q))
                         q)))).
Proof.
  unfold step. destruct (stack q) as [|f fs] eqn:Hk.
  - intros H. right. split; [done|].
    destruct e as [op| |lid|lid|lid]; try done.
    + left. exists op. by simplify_eq.
    + right. left.
      destruct (loops q !! lid) as [[cv [|o|?|?]]|] eqn:E; try done.
      exists lid, cv, o. by simplify_eq.
    + right. right. left.
      destruct (loops q !! lid) as [[cv [|?|[]|?]]|] eqn:E; try done.
      exists lid, cv. by simplify_eq.
    + right. right. right.
      destruct (loops q !! lid) as [[cv [|?|?|[]]]|] eqn:E; try done.
      exists lid, cv. by simplify_eq.
  - intros H. left. exists f, fs. destruct e; try done. by simplify_eq.
Qed.

(** A failure that does not pause the queue is passed over. *)
Lemma settled_harmless (lid cv : nat) (o : Outcome) (q : Queue) :
  harmless q o →
  processLoop_settled lid cv o q
  = processLoop_iterate lid cv false (set_currentTaskKey None q).
Proof.
  intros Hh. destruct o as [|err]; [done|]. destruct Hh as [Hp|Ho]; [|done].
  unfold processLoop_settled. simpl. by rewrite Hp.
Qed.

Lemma addTask_processing (t : Task) (k : option string) (q : Queue) :
  _status q = Processing →
  addTask t k q
  = (if suppressed k q then q else set_queue (queue q ++ [mkEntry t k]) q).
Proof. intros H. rewrite addTask_busy by by left. done. Qed.

Lemma work_snoc (e : QueueEntry) (q : Queue) :
  work (set_queue (queue q ++ [e]) q) = work q + weight (task e).
Proof.
  unfold work. simpl. rewrite fmap_app, list_sum_app. simpl. lia.
Qed.

Lemma orderly_queue_snoc (t : Task) (k : option string) (q : Queue) :
  orderly (pauseOnError q) t = true → orderly_queue q →
  orderly_queue (set_queue (queue q ++ [mkEntry t k]) q).
Proof.
  unfold orderly_queue. simpl. intros Ht Hq.
  apply Forall_app. split; [done|]. by constructor.
Qed.

(** The task that is running submits a task. *)
Lemma submit_inside (lid : nat) (t : Task) (k : option string) (cs : list Op)
    (o : Outcome) (start : bool) (q : Queue) :
  invoking lid q → orderly_queue q →
  stack q = [mkFrame lid (AddTask t k :: cs) o start] →
  ∃ q', step Tick q = Some q' ∧ invoking lid q' ∧ orderly_queue q' ∧
    pauseOnError q' = pauseOnError q ∧ work q' < work q.
Proof.
  intros (cs' & o' & start' & Hk' & Hs & Hr & Hl & Ho & Hh & Hcs) Hq Hk.
  rewrite Hk in Hk'. simplify_eq. simpl in Hcs.
  apply andb_true_iff in Hcs as [Ht Hcs].
  rewrite (step_Tick _ _ _ Hk). eexists. split; [done|].
  unfold tick. simpl. rewrite addTask_processing by done.
  set (q1 := set_stack [mkFrame lid cs o' start'] q).
  assert (Hi : invoking lid q1) by (by exists cs, o', start').
  assert (Hw : work q1 + S (weight t) = work q).
  { unfold work. subst q1. simpl. rewrite Hk. simpl. unfold fmap. lia. }
  assert (Hq1 : orderly_queue q1) by done.
  assert (Hp : pauseOnError q1 = pauseOnError q) by done.
  clearbody q1. destruct (suppressed k q1).
  - split; [done|]. split; [done|]. split; [done|]. lia.
  - split; [|split; [|split]].
    + destruct Hi as (cs1 & o1 & s1 & Hi). by exists cs1, o1, s1.
    + apply orderly_queue_snoc; [by rewrite Hp | done].
    + done.
    + rewrite work_snoc. simpl. lia.
Qed.

(** The task that is running comes to the end of its body and returns its
    promise. *)
Lemma body_ends (lid : nat) (o : Outcome) (start : bool) (q : Queue) :
  invoking lid q → stack q = [mkFrame lid [] o start] →
  ∃ q', step Tick q = Some q' ∧ in_flight lid q' ∧ queue q' = queue q ∧
    pauseOnError q' = pauseOnError q ∧ S (work q') = work q.
Proof.
  intros (cs' & o' & start' & Hk' & Hs & Hr & Hl & Ho & Hh & Hcs) Hk.
  rewrite Hk in Hk'. simplify_eq.
  assert (Hlt : lid < length (loops q)) by by eapply lookup_lt_Some.
  rewrite (step_Tick _ _ _ Hk). eexists. split; [done|].
  unfold tick. simpl. rewrite Hl. simpl.
  split; [|split; [|split]].
  - exists o'. unfold awaiting, others_done, harmless.
    destruct start'; simpl;
      (split; [split; [done|split; [done|]]|split; [done|split; [done|]]]);
      try (by rewrite list_lookup_insert_eq);
      intros i l Hi; rewrite list_lookup_insert_ne by done; by apply Ho.
  - by destruct start'.
  - by destruct start'.
  - unfold work. destruct start'; simpl; rewrite Hk; simpl; lia.
Qed.

(** The task in flight settles and an entry is pending: the loop takes it
    and invokes its task. *)
Lemma settle_takes (lid : nat) (e : QueueEntry) (rest : list QueueEntry)
    (q : Queue) :
  in_flight lid q → orderly_queue q → queue q = e :: rest →
  ∃ q', step (TaskSettled lid) q = Some q' ∧ invoking lid q' ∧
    orderly_queue q' ∧ pauseOnError q' = pauseOnError q ∧
    S (work q') = work q.
Proof.
  intros (o & Ha & Hh & Hr & Ho) Hoq Hq.
  pose proof Ha as (Hk & Hs & Hl).
  assert (Hlt : lid < length (loops q)) by by eapply lookup_lt_Some.
  rewrite (settle_invokes lid o e rest) by done.
  eexists. split; [done|].
  unfold orderly_queue in Hoq. rewrite Hq in Hoq.
  apply Forall_cons in Hoq as [He Hrest].
  split; [|split; [|split]].
  - exists (body (task e)), (outcome (task e)), false. simpl.
    split; [done|]. split; [done|]. split; [done|].
    split; [by rewrite list_lookup_insert_eq|].
    split; [|split].
    + unfold others_done. simpl. intros i l Hi.
      rewrite list_lookup_insert_ne by done. by apply Ho.
    + exact (orderly_harmless q _ He).
    + by apply orderly_body.
  - done.
  - done.
  - unfold work. simpl. rewrite Hq, Hk. simpl. rewrite weight_eq.
    unfold fmap. lia.
Qed.

(** The task in flight settles and nothing is pending: the loop sets [Idle]
    and returns. *)
Lemma settle_returns (lid : nat) (q : Queue) :
  in_flight lid q → queue q = [] →
  ∃ q', step (TaskSettled lid) q = Some q' ∧ finalizing lid q' ∧
    pauseOnError q' = pauseOnError q ∧ executed q' = executed q.
Proof.
  intros (o & Ha & Hh & Hr & Ho) Hq.
  pose proof Ha as (Hk & Hs & Hl).
  assert (Hlt : lid < length (loops q)) by by eapply lookup_lt_Some.
  rewrite (step_TaskSettled lid (version q) o) by done.
  rewrite settled_harmless, iterate_drained by done.
  eexists. split; [done|]. split; [|done].
  unfold finalizing. simpl.
  split; [done|]. split; [done|]. split; [done|]. split; [done|].
  split; [done|]. split; [by rewrite list_lookup_insert_eq|].
  unfold others_done. simpl. intros i l Hi.
  rewrite list_lookup_insert_ne by done. by apply Ho.
Qed.

(** The [.finally] callback of the loop that has returned runs. *)
Lemma finalizes (lid : nat) (q : Queue) :
  finalizing lid q →
  ∃ q', step (Finally lid) q = Some q' ∧ resting q' ∧
    pauseOnError q' = pauseOnError q ∧ executed q' = executed q.
Proof.
  intros (Hk & Hs & Hr & Hc & Hq & Hl & Ho).
  rewrite (step_Finally lid (version q)) by done.
  eexists. split; [done|]. split; [|done].
  unfold resting. simpl. repeat (split; [done|]).
  apply Forall_lookup. intros i l.
  destruct (decide (i = lid)) as [->|Hi].
  - rewrite list_lookup_insert_eq by by eapply lookup_lt_Some.
    by intros [= <-].
  - rewrite list_lookup_insert_ne by done. by apply Ho.
Qed.

(** A caller submits a task while a task is in flight. *)
Lemma submit_in_flight (lid : nat) (t : Task) (k : option string) (q : Queue) :
  in_flight lid q → orderly_queue q → orderly (pauseOnError q) t = true →
  ∃ q', step (Call (AddTask t k)) q = Some q' ∧ in_flight lid q' ∧
    orderly_queue q' ∧ pauseOnError q' = pauseOnError q.
Proof.
  intros Hi Hoq Ht. pose proof Hi as (o & (Hk & Hs & Hl) & Hh & Hr & Ho).
  rewrite step_Call by done. eexists. split; [done|]. simpl.
  rewrite addTask_processing by done.
  destruct (suppressed k q); [done|].
  split; [|split; [by apply orderly_queue_snoc | done]].
  by exists o.
Qed.

Lemma in_flight_loops (lid i : nat) (l : Loop) (q : Queue) :
  in_flight lid q → loops q !! i = Some l →
  (i = lid ∧ ∃ o, at_ l = AwaitTask o) ∨ at_ l = Returned true.
Proof.
  intros (o & (Hk & Hs & Hl) & Hh & Hr & Ho) Hi.
  destruct (decide (i = lid)) as [->|Hne]; [|right; by eapply Ho].
  left. split; [done|]. exists o. rewrite Hl in Hi. by simplify_eq.
Qed.

Lemma finalizing_loops (lid i : nat) (l : Loop) (q : Queue) :
  finalizing lid q → loops q !! i = Some l →
  (i = lid ∧ at_ l = Returned false) ∨ at_ l = Returned true.
Proof.
  intros (Hk & Hs & Hr & Hc & Hq & Hl & Ho) Hi.
  destruct (decide (i = lid)) as [->|Hne]; [|right; by eapply Ho].
  left. split; [done|]. rewrite Hl in Hi. by simplify_eq.
Qed.

Lemma orderly_queue_from (q q' : Queue) :
  queue q' = queue q → pauseOnError q' = pauseOnError q →
  orderly_queue q → orderly_queue q'.
Proof. unfold orderly_queue. by intros -> ->. Qed.

(** Submissions and the steps of the loop keep the queue in one of the four
    phases. *)
Lemma fifo_step (e : Event) (q q' : Queue) :
  fifo_inv q → admissible q e → step e q = Some q' →
  fifo_inv q' ∧ pauseOnError q' = pauseOnError q.
Proof.
  intros [Hoq Hph] Had Hs. pose proof Hs as Hs0.
  destruct Hph as [Hrest | (lid & [Hinv | [Hfl | Hfin]])].
  - pose proof Hrest as (Hk & Hst & Hr & Hc & Hq & Hl).
    apply step_inv in Hs0
      as [(f & fs & Hk' & _)
         | (_ & [(op & -> & _) | [(i & cv & o & -> & Hi & _)
                | [(i & cv & -> & Hi & _) | (i & cv & -> & Hi & _)]]])];
      [congruence| |by apply (Forall_lookup_1 _ _ _ _ Hl) in Hi..].
    destruct op as [t k| | | | | |]; try done. destruct Had as [Ht _].
    destruct (submit_at_rest t k q Hrest Ht) as (q1 & Hs1 & Hi1 & _ & Hq1 & Hp1).
    rewrite Hs1 in Hs. injection Hs as <-.
    split; [|done]. split.
    + unfold orderly_queue. rewrite Hq1. constructor.
    + right. eexists. by left.
  - pose proof Hinv as (cs & o & start & Hk & _).
    destruct e; try (unfold step in Hs; rewrite Hk in Hs; done).
    destruct cs as [|c cs].
    + destruct (body_ends lid o start q Hinv Hk) as (q1 & Hs1 & Hi1 & Hq1 & Hp1 & _).
      rewrite Hs1 in Hs. injection Hs as <-. split; [|done].
      split; [by eapply orderly_queue_from|]. right. exists lid. auto.
    + assert (∃ t k, c = AddTask t k) as (t & k & ->).
      { destruct Hinv as (cs' & o' & start' & Hk' & _ & _ & _ & _ & _ & Hcs).
        rewrite Hk in Hk'. simplify_eq. simpl in Hcs.
        destruct c; try done. by eexists _, _. }
      destruct (submit_inside lid t k cs o start q Hinv Hoq Hk)
        as (q1 & Hs1 & Hi1 & Hq1 & Hp1 & _).
      rewrite Hs1 in Hs. injection Hs as <-. split; [|done].
      split; [done|]. right. exists lid. auto.
  - apply step_inv in Hs0
      as [(f & fs & Hk' & _)
         | (_ & [(op & -> & _) | [(i & cv & o' & -> & Hi & _)
                | [(i & cv & -> & Hi & _) | (i & cv & -> & Hi & _)]]])].
    + destruct Hfl as (o & (Hk & _) & _). congruence.
    + destruct op as [t k| | | | | |]; try done. destruct Had as [Ht _].
      destruct (submit_in_flight lid t k q Hfl Hoq Ht)
        as (q1 & Hs1 & Hi1 & Hq1 & Hp1).
      rewrite Hs1 in Hs. injection Hs as <-.
      split; [|done]. split; [done|]. right. exists lid. auto.
    + destruct (in_flight_loops _ _ _ _ Hfl Hi) as [[-> _]|?]; [|done].
      destruct (queue q) as [|e rest] eqn:Hq.
      * destruct (settle_returns lid q Hfl Hq) as (q1 & Hs1 & Hi1 & Hp1 & _).
        rewrite Hs1 in Hs. injection Hs as <-. split; [|done]. split.
        -- unfold orderly_queue. destruct Hi1 as (_ & _ & _ & _ & -> & _).
           constructor.
        -- right. exists lid. auto.
      * destruct (settle_takes lid e rest q Hfl Hoq Hq)
          as (q1 & Hs1 & Hi1 & Hq1 & Hp1 & _).
        rewrite Hs1 in Hs. injection Hs as <-. split; [|done].
        split; [done|]. right. exists lid. auto.
    + by destruct (in_flight_loops _ _ _ _ Hfl Hi) as [[_ [? ?]]|?].
    + by destruct (in_flight_loops _ _ _ _ Hfl Hi) as [[_ [? ?]]|?].
  - pose proof Hfin as (Hk & Hst & Hr & Hc & Hq & Hl & Ho).
    apply step_inv in Hs0
      as [(f & fs & Hk' & _)
         | (_ & [(op & -> & _) | [(i & cv & o' & -> & Hi & _)
                | [(i & cv & -> & Hi & _) | (i & cv & -> & Hi & _)]]])];
      [congruence|..].
    + destruct op as [t k| | | | | |]; try done. destruct Had as [_ Hno].
      rewrite (Hno Hst) in Hr. done.
    + by destruct (finalizing_loops _ _ _ _ Hfin Hi) as [[_ ?]|?].
    + by destruct (finalizing_loops _ _ _ _ Hfin Hi) as [[_ ?]|?].
    + destruct (finalizing_loops _ _ _ _ Hfin Hi) as [[-> _]|?]; [|done].
      destruct (finalizes lid q Hfin) as (q1 & Hs1 & Hi1 & Hp1 & _).
      rewrite Hs1 in Hs. injection Hs as <-. split; [|done]. split; [|by left].
      unfold orderly_queue. destruct Hi1 as (_ & _ & _ & _ & -> & _).
      constructor.
Qed.

Lemma fifo_run (es : list Event) :
  ∀ q q', fifo_inv q → submitting es q → run es q = Some q' →
    fifo_inv q' ∧ pauseOnError q' = pauseOnError q.
Proof.
  induction es as [|e es IH]; simpl; intros q q' Hi Hsub Hr.
  - by simplify_eq.
  - destruct Hsub as [Had Hsub].
    destruct (step e q) as [q1|] eqn:Hs; [|done].
    destruct (fifo_step e q q1 Hi Had Hs) as [Hi1 Hp1].
    destruct (IH q1 q' Hi1 Hsub Hr) as [Hi' Hp']. split; [done|congruence].
Qed.

(** In such a schedule the only method called is [addTask]. *)
Lemma called_submits (e : Event) (q : Queue) :
  fifo_inv q → admissible q e →
  called e q = None ∨ ∃ t k, called e q = Some (AddTask t k).
Proof.
  intros [_ Hph] Had. unfold called.
  destruct e as [op| |lid|lid|lid]; try (left; by destruct (stack q)).
  - destruct op as [t k| | | | | |]; try done.
    destruct (stack q); [right; by eexists _, _ | by left].
  - destruct (stack q) as [|f fs] eqn:Hk; [by left|].
    destruct Hph as [Hrest | (lid & [Hinv | [Hfl | Hfin]])].
    + destruct Hrest as (Hk' & _). congruence.
    + destruct Hinv as (cs & o & start & Hk' & _ & _ & _ & _ & _ & Hcs).
      rewrite Hk in Hk'. simplify_eq. simpl.
      destruct cs as [|c cs]; [by left|]. simpl in Hcs.
      destruct c; try done. right. by eexists _, _.
    + destruct Hfl as (o & (Hk' & _) & _). congruence.
    + destruct Hfin as (Hk' & _). congruence.
Qed.

Lemma agenda_submitting (es : list Event) :
  ∀ q q', fifo_inv q → submitting es q → run es q = Some q' →
    agenda q' = agenda q ++ accepted_along es q.
Proof.
  induction es as [|e es IH]; simpl; intros q q' Hi Hsub Hr.
  - simplify_eq. by rewrite app_nil_r.
  - destruct Hsub as [Had Hsub].
    destruct (step e q) as [q1|] eqn:Hs; [|done].
    destruct (fifo_step e q q1 Hi Had Hs) as [Hi1 _].
    rewrite (IH q1 q' Hi1 Hsub Hr), (agenda_step e q q1 Hs), app_assoc.
    f_equal.
    destruct (called_submits e q Hi Had) as [-> | (t & k & ->)]; simpl.
    + by rewrite app_nil_r.
    + destruct (suppressed k q); by rewrite ?app_nil_r.
Qed.

Lemma loop_events_submitting (es : list Event) :
  Forall (λ e, ∀ op, e ≠ Call op) es → ∀ q, submitting es q.
Proof.
  induction 1 as [|e es He Hes IH]; simpl; intros q; [done|]. split.
  - destruct e as [op| | | |]; try done. by destruct (He op).
  - destruct (step e q); [apply IH | done].
Qed.

(** Left alone, the loop winds down: it runs the pending tasks, and those
    they submit, and comes to rest. *)
Lemma winds_down (n : nat) :
  ∀ q, fifo_inv q → (work q ≤ n)%nat →
    ∃ es q', Forall (λ e, ∀ op, e ≠ Call op) es ∧ run es q = Some q'
             ∧ resting q'.
Proof.
  induction n as [n IH] using lt_wf_ind. intros q [Hoq Hph] Hw.
  destruct Hph as [Hrest | (lid & [Hinv | [Hfl | Hfin]])].
  - exists [], q. split; [constructor|]. by split.
  - pose proof Hinv as (cs & o & start & Hk & _).
    assert (∃ q1, step Tick q = Some q1 ∧ fifo_inv q1 ∧ work q1 < work q)
      as (q1 & Hs1 & Hi1 & Hw1).
    { destruct cs as [|c cs].
      - destruct (body_ends lid o start q Hinv Hk)
          as (q1 & Hs1 & Hi1 & Hq1 & Hp1 & Hw1).
        exists q1. split; [done|]. split; [|lia].
        split; [by eapply orderly_queue_from|]. right. exists lid. auto.
      - assert (∃ t k, c = AddTask t k) as (t & k & ->).
        { destruct Hinv as (cs' & o' & start' & Hk' & _ & _ & _ & _ & _ & Hcs).
          rewrite Hk in Hk'. simplify_eq. simpl in Hcs.
          destruct c; try done. by eexists _, _. }
        destruct (submit_inside lid t k cs o start q Hinv Hoq Hk)
          as (q1 & Hs1 & Hi1 & Hq1 & Hp1 & Hw1).
        exists q1. split; [done|]. split; [|done].
        split; [done|]. right. exists lid. auto. }
    destruct (IH (work q1) ltac:(lia) q1 Hi1 ltac:(lia))
      as (es & q' & Hes & Hr & Hrest).
    exists (Tick :: es), q'. split; [by constructor|]. split; [|done].
    simpl. by rewrite Hs1.
  - destruct (queue q) as [|e rest] eqn:Hq.
    + destruct (settle_returns lid q Hfl Hq) as (q1 & Hs1 & Hi1 & _).
      destruct (finalizes lid q1 Hi1) as (q2 & Hs2 & Hi2 & _).
      exists [TaskSettled lid; Finally lid], q2.
      split; [by repeat constructor|]. split; [|done].
      simpl. by rewrite Hs1, Hs2.
    + destruct (settle_takes lid e rest q Hfl Hoq Hq)
        as (q1 & Hs1 & Hi1 & Hq1 & Hp1 & Hw1).
      assert (Hinv1 : fifo_inv q1).
      { split; [done|]. right. exists lid. auto. }
      destruct (IH (work q1) ltac:(lia) q1 Hinv1 ltac:(lia))
        as (es & q' & Hes & Hr & Hrest).
      exists (TaskSettled lid :: es), q'. split; [by constructor|].
      split; [|done]. simpl. by rewrite Hs1.
  - destruct (finalizes lid q Hfin) as (q1 & Hs1 & Hi1 & _).
    exists [Finally lid], q1. split; [by repeat constructor|].
    split; [|done]. simpl. by rewrite Hs1.
Qed.

Lemma resting_settled (q : Queue) : resting q → settled q.
Proof.
  intros (Hk & _ & _ & _ & _ & Hl).
  apply settled_when_loops_done; [done|].
  eapply Forall_impl; [exact Hl|]. intros l. by left.
Qed.

Lemma resting_inv (q : Queue) : resting q → fifo_inv q.
Proof.
  intros H. split; [|by left].
  unfold orderly_queue. destruct H as (_ & _ & _ & _ & -> & _). constructor.
Qed.

Lemma fifo_status (q : Queue) :
  fifo_inv q →
  (status q = Idle ∨ status q = Processing) ∧ (status q = Idle → queue q = []).
Proof.
  unfold status. intros [_ [Hrest | (lid & [Hinv | [Hfl | Hfin]])]].
  - destruct Hrest as (_ & -> & _ & _ & -> & _). auto.
  - destruct Hinv as (? & ? & ? & _ & -> & _). split; [auto|done].
  - destruct Hfl as (? & (_ & -> & _) & _). split; [auto|done].
  - destruct Hfin as (_ & -> & _ & _ & -> & _). auto.
Qed.

(** C3, as amended.  A queue is at rest: no task body is running, no loop
    is left, nothing is pending.  From then on the only method called is
    [addTask]: by callers, at any moment, and by the tasks themselves while
    they run.  The tasks do nothing else to the queue and each of them
    fulfils, unless [pauseOnError] is off; and no caller submits in the
    window in which the loop has set [Idle] and returned while its
    [.finally] callback has not run yet.  Then, at every moment: the tasks
    executed so far, followed by the pending ones, are the submissions
    accepted so far, in the order of submission, where a submission is
    accepted unless it is suppressed as an adjacent duplicate (so that all
    are when no non-empty key is given); the status is [Idle] or
    [Processing]; whenever it is [Idle] nothing is pending and every
    accepted submission has been executed, once; and the loop, left alone,
    winds down: it executes what is pending and what the tasks submit
    meanwhile, in that order, and ends [Idle] with nothing pending and
    nothing left to happen. *)
Theorem submissions_run_in_order (q0 : Queue) (es : list Event) (q : Queue) :
  resting q0 → submitting es q0 → run es q0 = Some q →
  executed q ++ pending_names q = executed q0 ++ accepted_along es q0 ∧
  (keyless es q0 → accepted_along es q0 = submitted es q0) ∧
  (status q = Idle ∨ status q = Processing) ∧
  (status q = Idle →
     size q = 0 ∧ executed q = executed q0 ++ accepted_along es q0) ∧
  ∃ es' q',
    Forall (λ e, ∀ op, e ≠ Call op) es' ∧ run es' q = Some q' ∧
    settled q' ∧ status q' = Idle ∧ size q' = 0 ∧
    executed q'
    = executed q0 ++ accepted_along es q0 ++ accepted_along es' q.
Proof.
  intros Hrest Hsub Hr.
  pose proof (resting_inv q0 Hrest) as Hi0.
  destruct (fifo_run es q0 q Hi0 Hsub Hr) as [Hi _].
  pose proof (agenda_submitting es q0 q Hi0 Hsub Hr) as Ha.
  assert (Ha0 : agenda q0 = executed q0).
  { unfold agenda, pending_names.
    destruct Hrest as (_ & _ & _ & _ & -> & _). apply app_nil_r. }
  rewrite Ha0 in Ha.
  destruct (fifo_status q Hi) as [Hst Hidle].
  split; [exact Ha|]. split; [apply keyless_accepted|]. split; [exact Hst|].
  split.
  - intros Hs. specialize (Hidle Hs). unfold size. rewrite Hidle.
    split; [done|]. rewrite <- Ha. unfold agenda, pending_names.
    rewrite Hidle. by rewrite app_nil_r.
  - destruct (winds_down (work q) q Hi (le_n _)) as (es' & q' & Hes & Hr' & Hrest').
    exists es', q'. split; [done|]. split; [done|].
    pose proof (loop_events_submitting es' Hes q) as Hsub'.
    pose proof (agenda_submitting es' q q' Hi Hsub' Hr') as Ha'.
    pose proof Hrest' as (_ & Hs' & _ & _ & Hq' & _).
    split; [by apply resting_settled|]. split; [done|].
    unfold size. rewrite Hq'. split; [done|].
    rewrite app_assoc, <- Ha, <- Ha'. unfold agenda at 1, pending_names.
    rewrite Hq'. by rewrite app_nil_r.
Qed.

(** ** The statements at concrete queues *)

Lemma resting_new (pauseOnError : bool) : resting (new_Queue pauseOnError).
Proof. repeat split. constructor. Qed.

(** The theorem at a new queue and submissions spread over its life, one
    of them made by a running task and one suppressed. *)
Lemma submissions_run_in_order_witness :
  resting (new_Queue false) ∧
  submitting Cases.spread (new_Queue false) ∧
  run Cases.spread (new_Queue false) = Some Cases.spread_out ∧
  submitted Cases.spread (new_Queue false) = [1; 2; 6; 3; 4; 5] ∧
  accepted_along Cases.spread (new_Queue false) = [1; 2; 6; 3; 5] ∧
  executed Cases.spread_out = [1; 2; 6] ∧
  pending_names Cases.spread_out = [3; 5] ∧
  status Cases.spread_out = Processing ∧
  ∃ es' q',
    Forall (λ e, ∀ op, e ≠ Call op) es' ∧
    run es' Cases.spread_out = Some q' ∧
    settled q' ∧ status q' = Idle ∧ size q' = 0 ∧
    executed q' = [1; 2; 6; 3; 5] ++ accepted_along es' Cases.spread_out.
Proof.
  assert (H0 : resting (new_Queue false)) by apply resting_new.
  assert (H1 : submitting Cases.spread (new_Queue false)).
  { vm_compute. repeat split; done. }
  assert (H2 : run Cases.spread (new_Queue false)
               = Some Cases.spread_out) by reflexivity.
  destruct (submissions_run_in_order _ _ _ H0 H1 H2) as (_ & _ & _ & _ & Hgo).
  split; [exact H0|]. split; [exact H1|]. split; [exact H2|].
  split; [reflexivity|]. split; [reflexivity|]. split; [reflexivity|].
  split; [reflexivity|]. split; [reflexivity|].
  exact Hgo.
Defined.

(** C3 as stated fails in three ways, in schedules in which [addTask] is
    the only method called.  Two submissions made back to back with the same
    key: the second is suppressed and task 2 is never executed.  A
    submission made after the loop has set [Idle] and returned, and before
    its [.finally] callback has run (the scenario of 'queues work added
    during idle notification and restarts runner' in
    [__tests__/queue.test.ts]): no loop is started, task 2 stays pending and
    nothing happens any more.  And, under [pauseOnError], a task that fails:
    the queue is [Paused], not [Idle], and task 2 stays pending. *)
Lemma addTask_order_exceptions :
  (run (batch 0 Scenario.twins) (new_Queue false) = Some Scenario.after_twins ∧
   settled Scenario.after_twins ∧
   (name ∘ fst <$> Scenario.twins) = [1; 2] ∧
   executed Scenario.after_twins = [1] ∧
   size Scenario.after_twins = 0 ∧
   status Scenario.after_twins = Idle) ∧
  (run Tests.added_while_finalizing (new_Queue false) = Some Cases.late ∧
   submitted Tests.added_while_finalizing (new_Queue false) = [1; 2] ∧
   settled Cases.late ∧
   executed Cases.late = [1] ∧
   pending_names Cases.late = [2] ∧
   status Cases.late = Idle) ∧
  (run Cases.failed_first (new_Queue true)
     = Some Cases.paused_by_failure ∧
   submitted Cases.failed_first (new_Queue true) = [1; 2] ∧
   settled Cases.paused_by_failure ∧
   executed Cases.paused_by_failure = [1] ∧
   pending_names Cases.paused_by_failure = [2] ∧
   status Cases.paused_by_failure = Paused).
Proof.
  split; [|split].
  - split; [reflexivity|]. split; [|repeat split].
    apply settled_when_loops_done; [reflexivity|]. repeat constructor.
  - split; [reflexivity|]. split; [reflexivity|]. split; [|repeat split].
    apply settled_when_loops_done; [reflexivity|]. repeat constructor.
  - split; [reflexivity|]. split; [reflexivity|]. split; [|repeat split].
    apply settled_when_loops_done; [reflexivity|].
    constructor; [by right | constructor].
Qed.

(** The theorem at a queue with task 1 in flight and keys "a" then "b"
    pending: "b" is suppressed, "a" is inserted again; and at an idle queue
    with an entry of key "k" pending and no loop registered: the submission
    with key "k" is suppressed and the loop is started. *)
Lemma addTask_dedupe_effect_witness :
  "b" ≠ "" ∧ "a" ≠ "" ∧ "k" ≠ "" ∧
  (key <$> queue Scenario.busy) = [Some "a"; Some "b"] ∧
  status Scenario.busy = Processing ∧
  addTask (Tests.plain 4) (Some "b") Scenario.busy = Scenario.busy ∧
  queue (addTask (Tests.plain 4) (Some "a") Scenario.busy)
  = queue Scenario.busy ++ [mkEntry (Tests.plain 4) (Some "a")] ∧
  queue (addNextTask (Tests.plain 4) Scenario.busy)
  = mkEntry (Tests.plain 4) None :: queue Scenario.busy ∧
  status Cases.dup_stranded = Idle ∧
  runner Cases.dup_stranded = None ∧
  (key <$> queue Cases.dup_stranded) = [Some "k"] ∧
  status (addTask (Tests.plain 3) (Some "k") Cases.dup_stranded)
  = Processing ∧
  executed (addTask (Tests.plain 3) (Some "k") Cases.dup_stranded)
  = [1; 2] ∧
  queue (addTask (Tests.plain 3) (Some "k") Cases.dup_stranded) = [].
Proof.
  assert (Hb : "b" ≠ "") by discriminate.
  assert (Ha : "a" ≠ "") by discriminate.
  assert (Hk : "k" ≠ "") by discriminate.
  assert (Hs : status Scenario.busy = Processing ∨ status Scenario.busy = Paused
               ∨ queue Scenario.busy = [] ∨ runner Scenario.busy ≠ None)
    by (left; reflexivity).
  assert (Hs' : status Scenario.busy = Processing ∨ status Scenario.busy = Paused
                ∨ runner Scenario.busy ≠ None)
    by (left; reflexivity).
  destruct (addTask_dedupe_effect (Tests.plain 4) "b" Scenario.busy Hb)
    as (Hdup & _ & Hnext & _).
  destruct (addTask_dedupe_effect (Tests.plain 4) "a" Scenario.busy Ha)
    as (_ & Hins & _).
  destruct (addTask_dedupe_effect (Tests.plain 3) "k" Cases.dup_stranded Hk)
    as (Hstart & _).
  assert (Hlast : ∀ K, K = "b" ∨ K ≠ "b" →
            ∃ es e, queue Scenario.busy = es ++ [e] ∧ key e = Some "b").
  { intros _ _. by exists [mkEntry (Tests.plain 2) (Some "a")],
      (mkEntry (Tests.plain 3) (Some "b")). }
  destruct Hdup as [Hd _]; [left; exact (Hlast "b" (or_introl eq_refl))|].
  destruct Hins as [Hi _].
  { left. exists [mkEntry (Tests.plain 2) (Some "a")],
      (mkEntry (Tests.plain 3) (Some "b")). split; [reflexivity|discriminate]. }
  destruct Hstart as [_ Hst].
  { left. exists [], (mkEntry (Tests.plain 2) (Some "k")). split; reflexivity. }
  destruct (Hst (mkEntry (Tests.plain 2) (Some "k")) []
              (or_introl eq_refl) eq_refl eq_refl) as (H1 & _ & H2 & H3 & _).
  split; [exact Hb|]. split; [exact Ha|]. split; [exact Hk|].
  split; [reflexivity|]. split; [reflexivity|].
  split; [exact (proj1 (Hd Hs))|].
  split; [exact (proj1 (Hi Hs'))|].
  split; [exact (proj1 (Hnext Hs'))|].
  split; [reflexivity|]. split; [reflexivity|]. split; [reflexivity|].
  split; [exact H1|]. split; [exact H2 | exact H3].
Defined.

(** C6 as stated fails in four ways.  The empty key: it is a key that was
    supplied and that equals the key of the last pending entry, and yet the
    entry is inserted (1 to 2 pending).  The key of the entry that is
    executing, once [cancelQueue] has cleared the marker: task 1, of key
    "k", is still in flight, nothing is pending, and the submission with key
    "k" is inserted.  A suppressed submission to an idle queue with work
    pending, while the loop that has returned is still registered as the
    runner: the loop is not started.  And the same once the [.finally]
    callback has run: the loop is started and takes the pending entry, so
    that the pending count is not unchanged but goes from 1 to 0. *)
Lemma addTask_dedupe_exceptions :
  (run Scenario.empty_key_pending (new_Queue false)
     = Some Scenario.busy_empty_key ∧
   (last (queue Scenario.busy_empty_key) ≫= key) = Some "" ∧
   size Scenario.busy_empty_key = 1 ∧
   size (addTask (Tests.plain 3) (Some "") Scenario.busy_empty_key) = 2) ∧
  (run [Call (AddTask (Tests.plain 1) (Some "k")); Tick] (new_Queue false)
     = Some Cases.keyed_in_flight ∧
   currentTaskKey Cases.keyed_in_flight = Some "k" ∧
   step (Call CancelQueue) Cases.keyed_in_flight
     = Some Cases.keyed_cancelled ∧
   loops Cases.keyed_cancelled !! 0 = Some (mkLoop 0 (AwaitTask Fulfils)) ∧
   executed Cases.keyed_cancelled = [1] ∧
   size Cases.keyed_cancelled = 0 ∧
   currentTaskKey Cases.keyed_cancelled = None ∧
   size (addTask (Tests.plain 2) (Some "k") Cases.keyed_cancelled) = 1) ∧
  (run [Call (AddTask (Tests.plain 1) None); Tick; TaskSettled 0;
        Call (AddTask (Tests.plain 2) (Some "k"))] (new_Queue false)
     = Some Cases.dup_in_window ∧
   status Cases.dup_in_window = Idle ∧
   (key <$> queue Cases.dup_in_window) = [Some "k"] ∧
   runner Cases.dup_in_window = Some 0 ∧
   addTask (Tests.plain 3) (Some "k") Cases.dup_in_window
     = Cases.dup_in_window) ∧
  (step (Finally 0) Cases.dup_in_window = Some Cases.dup_stranded ∧
   status Cases.dup_stranded = Idle ∧
   (key <$> queue Cases.dup_stranded) = [Some "k"] ∧
   size Cases.dup_stranded = 1 ∧
   size (addTask (Tests.plain 3) (Some "k") Cases.dup_stranded) = 0 ∧
   status (addTask (Tests.plain 3) (Some "k") Cases.dup_stranded)
     = Processing ∧
   executed (addTask (Tests.plain 3) (Some "k") Cases.dup_stranded)
     = [1; 2]).
Proof. repeat split. Qed.

(** C4 (the code departs from it).  Under [pauseOnError], a task cancels
    the queue, submits a second task, which starts a second loop, and fails.
    The loop of the cancelled generation pauses the queue and blocks on the
    resume signal (the departure of C1), and so does the second loop once
    its task has settled, which stores its resolver in the resume slot in
    place of the first.  Both loops are now blocked.  [cancelQueue] sets
    [Cancelled] and releases the loop whose resolver is in the slot; the
    other one stays blocked, whatever happens afterwards. *)
Theorem cancelQueue_leaves_a_loop_blocked :
  run Cases.overlap (new_Queue true) = Some Cases.two_blocked ∧
  status Cases.two_blocked = Paused ∧
  loops Cases.two_blocked
  = [mkLoop 0 (AwaitResume false); mkLoop 2 (AwaitResume false)] ∧
  resumeResolve Cases.two_blocked = Some 1 ∧
  step (Call CancelQueue) Cases.two_blocked
    = Some (cancelQueue Cases.two_blocked) ∧
  status (cancelQueue Cases.two_blocked) = Cancelled ∧
  loops (cancelQueue Cases.two_blocked)
  = [mkLoop 0 (AwaitResume false); mkLoop 2 (AwaitResume true)] ∧
  resumeResolve (cancelQueue Cases.two_blocked) = None ∧
  ∀ es q', run es (cancelQueue Cases.two_blocked) = Some q' →
    loops q' !! 0 = Some (mkLoop 0 (AwaitResume false)) ∧
    step (TaskSettled 0) q' = None ∧ step (Resumed 0) q' = None ∧
    step (Finally 0) q' = None.
Proof.
  do 8 (split; [reflexivity|]).
  intros es q' Hr.
  assert (H : forsaken 0 0 (cancelQueue Cases.two_blocked)).
  { split; [reflexivity|]. split; [discriminate|constructor]. }
  destruct (forsaken_run 0 0 es _ q' Hr H) as (Hl & _).
  split; [exact Hl|]. by apply (step_blocked 0 0).
Qed.

(** C5 (the code departs from it).  Task 1 is submitted, the queue is
    cancelled while it is in flight, and task 2 is submitted before task 1
    has settled.  The queue is resurrected, but the loop of the cancelled
    generation is still registered as the runner, so [startRunner] returns
    at line 201 and no loop is started: the notifications after [Cancelled]
    stop at [Idle], and once the old loop has wound down nothing happens any
    more; task 2 is pending and has not been executed.  With the same
    calls, the cancellation made once task 1 has settled and its loop has
    wound down, the notifications go on [Cancelled], [Idle], [Processing],
    [Idle] and task 2 is executed. *)
Theorem resurrection_while_runner_in_flight :
  run Scenario.cancel_in_flight (new_Queue false)
    = Some Scenario.cancelled_in_flight ∧
  status Scenario.cancelled_in_flight = Cancelled ∧
  run Scenario.resurrect_early Scenario.cancelled_in_flight
    = Some Scenario.resurrected_early ∧
  settled Scenario.resurrected_early ∧
  notified Scenario.resurrected_early = [Idle; Processing; Cancelled; Idle] ∧
  executed Scenario.resurrected_early = [1] ∧
  pending_names Scenario.resurrected_early = [2] ∧
  status Scenario.resurrected_early = Idle ∧
  observe <$> run Cases.cancel_at_rest (new_Queue false)
  = Some ([Idle; Processing; Idle; Cancelled; Idle; Processing; Idle],
          [1; 2], Idle, 0, None).
Proof.
  split; [reflexivity|]. split; [reflexivity|]. split; [reflexivity|].
  split; [|repeat split].
  apply settled_when_loops_done; [reflexivity|].
  repeat constructor.
Qed.

(** C8 (the code departs from it).  Task 1 is in flight when the queue is
    cancelled, and task 2 is submitted with [addNextTask] while task 1 is
    still executing.  The entry is inserted, but the loop of the cancelled
    generation is still registered as the runner, so no loop is started
    (line 201): when task 1 has settled and its loop has wound down, nothing
    happens any more, and task 2 is pending and has not been executed.  On
    a queue cancelled at rest, [addNextTask] does start a loop and the task
    is executed. *)
Theorem addNextTask_stranded_after_cancel :
  run Scenario.cancel_in_flight (new_Queue false)
    = Some Scenario.cancelled_in_flight ∧
  loops Scenario.cancelled_in_flight !! 0 = Some (mkLoop 0 (AwaitTask Fulfils)) ∧
  executed Scenario.cancelled_in_flight = [1] ∧
  run Cases.next_early Scenario.cancelled_in_flight
    = Some Cases.stranded_next ∧
  settled Cases.stranded_next ∧
  executed Cases.stranded_next = [1] ∧
  pending_names Cases.stranded_next = [2] ∧
  status Cases.stranded_next = Idle ∧
  notified Cases.stranded_next = [Idle; Processing; Cancelled; Idle] ∧
  observe <$> run Tests.next_resurrects (new_Queue false)
  = Some ([Idle; Cancelled; Idle; Processing; Idle], [1], Idle, 0, None).
Proof.
  split; [reflexivity|]. split; [reflexivity|]. split; [reflexivity|].
  split; [reflexivity|]. split; [|repeat split].
  apply settled_when_loops_done; [reflexivity|].
  repeat constructor.
Qed.

(** X1 at the queue with task 1 in flight and tasks 2 and 3 pending, which
    is paused and resumed between the two. *)
Lemma pending_run_from_the_front_witness :
  quietly Cases.pause_between Scenario.busy ∧
  run Cases.pause_between Scenario.busy = Some Cases.busy_drained ∧
  (name ∘ task <$> queue Scenario.busy) = [2; 3] ∧
  executed Cases.busy_drained = [1; 2; 3] ∧
  ∃ k, executed Cases.busy_drained
       = executed Scenario.busy ++ (name ∘ task <$> take k (queue Scenario.busy))
       ∧ queue Cases.busy_drained = drop k (queue Scenario.busy).
Proof.
  assert (Hq : quietly Cases.pause_between Scenario.busy)
    by (vm_compute; tauto).
  assert (Hr : run Cases.pause_between Scenario.busy
               = Some Cases.busy_drained) by reflexivity.
  split; [exact Hq|]. split; [exact Hr|]. split; [reflexivity|].
  split; [reflexivity|].
  exact (pending_run_from_the_front _ _ _ Hq Hr).
Defined.

(** X2 at the same queue, for a call of [addNextTask]. *)
Lemma agenda_changes_by_calls_witness :
  step (Call (AddNextTask (Tests.plain 4))) Scenario.busy
    = Some (addNextTask (Tests.plain 4) Scenario.busy) ∧
  agenda Scenario.busy = [1; 2; 3] ∧
  agenda (addNextTask (Tests.plain 4) Scenario.busy) = [1; 4; 2; 3].
Proof.
  assert (Hs : step (Call (AddNextTask (Tests.plain 4))) Scenario.busy
               = Some (addNextTask (Tests.plain 4) Scenario.busy))
    by reflexivity.
  split; [exact Hs|]. split; [reflexivity|].
  exact (agenda_changes_by_calls _ _ _ Hs).
Defined.

(** X3 on the submissions spread over the life of a queue. *)
Lemma only_submitted_tasks_run_witness :
  run Cases.spread (new_Queue false) = Some Cases.spread_out ∧
  submitted Cases.spread (new_Queue false) = [1; 2; 6; 3; 4; 5] ∧
  executed Cases.spread_out = [1; 2; 6] ∧
  pending_names Cases.spread_out = [3; 5] ∧
  NoDup (executed Cases.spread_out) ∧
  NoDup (pending_names Cases.spread_out).
Proof.
  assert (Hr : run Cases.spread (new_Queue false)
               = Some Cases.spread_out) by reflexivity.
  assert (Hnd : NoDup ((executed (new_Queue false)
                        ++ pending_names (new_Queue false))
                       ++ submitted Cases.spread (new_Queue false))).
  { vm_compute. repeat constructor;
      intros H; repeat (apply elem_of_cons in H as [H|H]; [discriminate H|]);
      by apply elem_of_nil in H. }
  destruct (only_submitted_tasks_run _ _ _ Hr) as (_ & _ & Hgo).
  destruct (Hgo Hnd) as (H1 & H2 & _).
  split; [exact Hr|]. split; [reflexivity|]. split; [reflexivity|].
  split; [reflexivity|]. split; [exact H1 | exact H2].
Defined.

(** ** The current-task key *)

Lemma marks_same (q q' : Queue) :
  executed q' = executed q → queue q' = queue q →
  currentTaskKey q' = currentTaskKey q → marks q q'.
Proof. intros. by right. Qed.

Lemma marks_from (q0 q q' : Queue) :
  executed q = executed q0 → queue q = queue q0 →
  currentTaskKey q = currentTaskKey q0 → marks q q' → marks q0 q'.
Proof. unfold marks. by intros <- <- <-. Qed.

Lemma marks_iterate (lid cv : nat) (start : bool) (q : Queue) :
  marks q (processLoop_iterate lid cv start q).
Proof.
  unfold marks, processLoop_iterate, processLoop_exit, yield_to_caller,
    await_resume, setStatus, isCancelled, isPaused.
  destruct q as [qu st rn rr le poe ck v ls sk asg ntf ex], st, start;
    simpl;
    repeat (first [case_bool_decide | case_match]; simpl in *; simplify_eq);
    first [ by right | left; by eexists _, _ ].
Qed.

Lemma marks_startRunner (q : Queue) : marks q (startRunner q).
Proof.
  unfold startRunner, processLoop.
  destruct (bool_decide (runner q ≠ None)); [by right|].
  destruct (isCancelled q || bool_decide (length (queue q) = 0)).
  - apply marks_same; by autorewrite with fields.
  - eapply marks_from; [| | |apply marks_iterate];
      simpl; by autorewrite with fields.
Qed.

Lemma marks_maybe (q : Queue) (b : bool) :
  marks q (if b then startRunner q else q).
Proof. destruct b; [apply marks_startRunner | by right]. Qed.

Lemma marks_resumeQueue (q : Queue) : marks q (resumeQueue q).
Proof.
  unfold resumeQueue.
  set (q1 := if isPaused q then _ else q).
  assert (H1 : executed q1 = executed q ∧ queue q1 = queue q
               ∧ currentTaskKey q1 = currentTaskKey q).
  { subst q1. unfold call_resumeResolve. destruct (isPaused q); [|done].
    simpl. repeat case_match; simpl; by autorewrite with fields. }
  destruct H1 as (Hx & Hq & Hc).
  eapply marks_from; [done..|]. apply marks_maybe.
Qed.

Lemma marks_settled (lid cv : nat) (o : Outcome) (q : Queue) :
  marks (set_currentTaskKey None q) (processLoop_settled lid cv o q).
Proof.
  unfold processLoop_settled.
  pose proof (marks_iterate lid cv false (set_currentTaskKey None q)) as Hi.
  destruct o as [|err]; [exact Hi|]. simpl.
  destruct (pauseOnError q); [|exact Hi].
  apply marks_same; unfold await_resume; simpl; by autorewrite with fields.
Qed.

Lemma marks_enqueue (t : Task) (p : Position) (k : option string) (q : Queue) :
  marks (set_queue (match p with
                    | end_ => if suppressed k q then queue q
                              else queue q ++ [mkEntry t k]
                    | front => mkEntry t k :: queue q
                    end) q)
    (enqueue t p k q).
Proof.
  unfold enqueue, suppressed. rewrite lastKey_resurrect.
  assert (H0 : executed (resurrect q) = executed q)
    by (unfold resurrect; by case_match).
  pose proof (queue_resurrect q) as H1.
  pose proof (currentTaskKey_resurrect q) as H2.
  destruct p; simpl.
  - eapply marks_from; [| | |apply marks_maybe]; simpl; by rewrite ?H1.
  - destruct (truthy k && bool_decide (lastKey q = k)).
    + eapply marks_from; [| | |apply marks_maybe]; simpl; by rewrite ?H1.
    + eapply marks_from; [| | |apply marks_maybe]; simpl; by rewrite ?H1.
Qed.

Lemma marks_call (op : Op) (q : Queue) :
  match op with
  | AddTask t k =>
      marks (set_queue (if suppressed k q then queue q
                        else queue q ++ [mkEntry t k]) q) (call op q)
  | AddNextTask t => marks (set_queue (mkEntry t None :: queue q) q) (call op q)
  | ResumeQueue => marks q (call op q)
  | CancelQueue =>
      executed (call op q) = executed q
      ∧ currentTaskKey (call op q)
        = (if isCancelled q then currentTaskKey q else None)
  | ClearQueue =>
      executed (call op q) = executed q
      ∧ currentTaskKey (call op q) = (if isIdle q then None else currentTaskKey q)
  | _ =>
      executed (call op q) = executed q
      ∧ currentTaskKey (call op q) = currentTaskKey q
  end.
Proof.
  destruct op as [t k|t| | | | |]; simpl.
  - apply (marks_enqueue t end_ k q).
  - apply (marks_enqueue t front None q).
  - unfold pauseQueue, setStatus, isProcessing.
    repeat case_match; simpl; by autorewrite with fields.
  - apply marks_resumeQueue.
  - unfold cancelQueue, call_resumeResolve, setStatus, isCancelled.
    destruct q as [qu st rn rr le poe ck v ls sk asg ntf ex], st; simpl;
      repeat case_match; simpl; by autorewrite with fields.
  - unfold clearQueue, setStatus, isProcessing, isPaused, isCancelled, isIdle.
    destruct q as [qu st rn rr le poe ck v ls sk asg ntf ex], st; simpl;
      repeat case_match; simpl; by autorewrite with fields.
  - by unfold clearLastError.
Qed.

(** X8.  The life of the current-task key, which the dedupe test reads when
    nothing is pending.  At every enabled event either a loop takes the
    entry at the front of the pending collection (with the entry the event
    submits, if any), invokes its task and makes its key the current one; or
    no task is invoked, and the current key is cleared when the event is a
    task settling, a call of [cancelQueue] on a queue that is not
    [Cancelled] or a call of [clearQueue] on an idle queue, and is left as
    it is by every other event. *)
Theorem currentTaskKey_lifecycle (e : Event) (q q' : Queue) :
  step e q = Some q' →
  (∃ e0 rest, offered e q = e0 :: rest
     ∧ executed q' = executed q ++ [name (task e0)]
     ∧ queue q' = rest ∧ currentTaskKey q' = key e0)
  ∨ (executed q' = executed q
     ∧ currentTaskKey q' = if clears_key e q then None else currentTaskKey q).
Proof.
  intros Hs. unfold offered, clears_key.
  destruct (called e q) as [op|] eqn:Hc.
  - destruct (step_called e op q Hc) as (fs & Hs').
    rewrite Hs' in Hs. injection Hs as <-.
    pose proof (marks_call op (set_stack fs q)) as H.
    assert (Hsup : ∀ k, suppressed k (set_stack fs q) = suppressed k q)
      by (intros k; by destruct q).
    assert (Hcan : isCancelled (set_stack fs q) = isCancelled q) by by destruct q.
    assert (Hidl : isIdle (set_stack fs q) = isIdle q) by by destruct q.
    destruct op as [t k|t| | | | |]; simpl in H |- *;
      rewrite ?Hsup, ?Hcan, ?Hidl in H; autorewrite with fields in H.
    + destruct H as [(e0 & rest & H1 & H2 & H3 & H4)|(H1 & H2 & H3)].
      * left. exists e0, rest. revert H1 H2. by autorewrite with fields.
      * right. revert H1 H3. by autorewrite with fields.
    + destruct H as [(e0 & rest & H1 & H2 & H3 & H4)|(H1 & H2 & H3)].
      * left. exists e0, rest. revert H1 H2. by autorewrite with fields.
      * right. revert H1 H3. by autorewrite with fields.
    + right. done.
    + destruct H as [(e0 & rest & H1 & H2 & H3 & H4)|(H1 & H2 & H3)].
      * left. exists e0, rest. revert H1 H2. by autorewrite with fields.
      * right. revert H1 H3. by autorewrite with fields.
    + right. destruct H as [H1 H2]. split; [done|].
      rewrite H2. by destruct (isCancelled q).
    + right. done.
    + right. done.
  - revert Hc Hs. unfold called, step, tick.
    destruct e as [op| |lid|lid|lid], (stack q) as [|f fs]; try done.
    + destruct (fcalls f); [|done]. intros _ [= <-]. right.
      unfold yield_to_caller. destruct (fstart f); simpl;
        by autorewrite with fields.
    + destruct (loops q !! lid) as [[cv [|o|?|?]]|]; try done.
      intros _ [= <-].
      destruct (marks_settled lid cv o q)
        as [(e0 & rest & H1 & H2 & H3 & H4)|(H1 & H2 & H3)].
      * left. exists e0, rest. revert H1 H2. by autorewrite with fields.
      * right. revert H1 H3. by autorewrite with fields.
    + destruct (loops q !! lid) as [[cv [|?|[]|?]]|]; try done.
      intros _ [= <-].
      destruct (marks_iterate lid cv false q)
        as [(e0 & rest & H1 & H2 & H3 & H4)|(H1 & H2 & H3)].
      * left. by exists e0, rest.
      * by right.
    + destruct (loops q !! lid) as [[cv [|?|?|[]]]|]; try done.
      intros _ [= <-]. right. by autorewrite with fields.
Qed.

(** X8 on the queue with task 1, submitted with key "k", in flight: the
    task settles, nothing is pending, and the key is cleared. *)
Lemma currentTaskKey_lifecycle_witness :
  step (TaskSettled 0) Cases.keyed_in_flight
    = Some (processLoop_settled 0 0 Fulfils Cases.keyed_in_flight) ∧
  currentTaskKey Cases.keyed_in_flight = Some "k" ∧
  clears_key (TaskSettled 0) Cases.keyed_in_flight = true ∧
  ((∃ e0 rest, offered (TaskSettled 0) Cases.keyed_in_flight = e0 :: rest
      ∧ executed (processLoop_settled 0 0 Fulfils Cases.keyed_in_flight)
        = executed Cases.keyed_in_flight ++ [name (task e0)]
      ∧ queue (processLoop_settled 0 0 Fulfils Cases.keyed_in_flight) = rest
      ∧ currentTaskKey (processLoop_settled 0 0 Fulfils Cases.keyed_in_flight)
        = key e0)
   ∨ (executed (processLoop_settled 0 0 Fulfils Cases.keyed_in_flight)
      = executed Cases.keyed_in_flight
      ∧ currentTaskKey (processLoop_settled 0 0 Fulfils Cases.keyed_in_flight)
        = if clears_key (TaskSettled 0) Cases.keyed_in_flight then None
          else currentTaskKey Cases.keyed_in_flight)).
Proof.
  assert (Hs : step (TaskSettled 0) Cases.keyed_in_flight
               = Some (processLoop_settled 0 0 Fulfils Cases.keyed_in_flight))
    by reflexivity.
  split; [exact Hs|]. split; [reflexivity|]. split; [reflexivity|].
  exact (currentTaskKey_lifecycle _ _ _ Hs).
Defined.

(** ** The other methods *)

(** X9.  What [clearQueue] does.  The pending collection is emptied; the
    status is never changed and no notification is fired, whatever the
    status; the current-task key is cleared when the queue is [Idle] and
    kept otherwise; nothing else changes: the loops, hence the task in
    flight, the runner, the generation, the stored error and the tasks
    executed are as they were.  A second call changes nothing. *)
Theorem clearQueue_effect (q : Queue) :
  clearQueue q
  = set_queue [] (if isIdle q then set_currentTaskKey None q else q)
  ∧ size (clearQueue q) = 0
  ∧ status (clearQueue q) = status q
  ∧ notified (clearQueue q) = notified q
  ∧ currentTaskKey (clearQueue q)
    = (if isIdle q then None else currentTaskKey q)
  ∧ loops (clearQueue q) = loops q ∧ runner (clearQueue q) = runner q
  ∧ version (clearQueue q) = version q
  ∧ lastTaskError (clearQueue q) = lastTaskError q
  ∧ executed (clearQueue q) = executed q
  ∧ clearQueue (clearQueue q) = clearQueue q.
Proof.
  unfold clearQueue, setStatus, isProcessing, isPaused, isCancelled, isIdle,
    size, status, lastTaskError.
  by destruct q as [qu [] rn rr le poe ck v ls sk asg ntf ex].
Qed.

(** X10.  What [pauseQueue] does.  On a queue that is [Processing] it sets
    the status to [Paused] and fires that one notification, and changes
    nothing else: no loop is touched, so the task in flight goes on.  On any
    other queue it does nothing.  A second call changes nothing. *)
Theorem pauseQueue_effect (q : Queue) :
  (status q = Processing →
     pauseQueue q = onStatusChange Paused (set__status Paused q)
     ∧ status (pauseQueue q) = Paused
     ∧ notified (pauseQueue q) = notified q ++ [Paused]
     ∧ queue (pauseQueue q) = queue q ∧ loops (pauseQueue q) = loops q
     ∧ executed (pauseQueue q) = executed q)
  ∧ (status q ≠ Processing → pauseQueue q = q)
  ∧ pauseQueue (pauseQueue q) = pauseQueue q.
Proof.
  unfold pauseQueue, setStatus, isProcessing, status.
  by destruct q as [qu [] rn rr le poe ck v ls sk asg ntf ex].
Qed.

(** X11.  What [resumeQueue] does.  On a [Paused] queue it clears the stored
    error, sets the status to [Processing] with that one notification,
    releases the loop whose resolver the resume slot holds and empties the
    slot; it invokes no task itself and leaves the pending collection as it
    is.  On an [Idle] queue with an entry pending and no loop registered as
    the runner it starts the loop, which takes the entry at the front and
    invokes its task.  On any other queue it does nothing. *)
Theorem resumeQueue_effect (q : Queue) :
  (status q = Paused →
     status (resumeQueue q) = Processing
     ∧ notified (resumeQueue q) = notified q ++ [Processing]
     ∧ lastTaskError (resumeQueue q) = None
     ∧ resumeResolve (resumeQueue q) = None
     ∧ queue (resumeQueue q) = queue q
     ∧ executed (resumeQueue q) = executed q
     ∧ runner (resumeQueue q) = runner q
     ∧ version (resumeQueue q) = version q
     ∧ loops (resumeQueue q)
       = match resumeResolve q with
         | Some lid =>
             match loops q !! lid with
             | Some (mkLoop cv (AwaitResume _)) =>
                 <[lid := mkLoop cv (AwaitResume true)]> (loops q)
             | _ => loops q
             end
         | None => loops q
         end)
  ∧ (∀ e rest, status q = Idle → runner q = None → queue q = e :: rest →
       status (resumeQueue q) = Processing
       ∧ notified (resumeQueue q) = notified q ++ [Processing]
       ∧ executed (resumeQueue q) = executed q ++ [name (task e)]
       ∧ queue (resumeQueue q) = rest
       ∧ loops (resumeQueue q) = loops q ++ [mkLoop (version q) Running])
  ∧ (status q = Processing ∨ status q = Cancelled
     ∨ (status q = Idle ∧ (queue q = [] ∨ runner q ≠ None)) →
     resumeQueue q = q).
Proof.
  unfold status, lastTaskError. split; [|split].
  - intros Hs. unfold resumeQueue, isPaused, isIdle. rewrite Hs. simpl.
    rewrite setStatus_change by (simpl; congruence).
    unfold call_resumeResolve. simpl.
    destruct (resumeResolve q) as [lid|]; simpl; [|done].
    destruct (loops q !! lid) as [[cv [| |b|]]|]; simpl; done.
  - intros e rest Hs Hr Hq. unfold resumeQueue, isPaused, isIdle.
    rewrite Hs. simpl. rewrite Hs, Hq. simpl.
    by destruct (started e rest q Hr Hs Hq) as (?&?&?&?&?&?&?).
  - intros H. unfold resumeQueue, isPaused, isIdle.
    destruct H as [H|[H|[H [Hq|Hr]]]]; rewrite H; simpl; rewrite ?H;
      simpl; try done.
    + by rewrite Hq.
    + destruct (bool_decide (0 < length (queue q))); [|done].
      by apply startRunner_registered.
Qed.

(** ** Loops of a cancelled generation, again *)

(** X12.  The generation guard at work.  Let a loop whose generation is no
    longer the live one continue: after the resume signal, or after its task
    has settled, unless the task failed under [pauseOnError].  Then the loop
    returns and does nothing else, but to clear the current-task key when it
    comes back from a task: the status, the notifications, the pending
    collection, the tasks executed, the stored error, the resume slot and the
    runner are as they were. *)
Theorem stale_loop_just_returns (e : Event) (lid cv : nat) (st : LoopState)
    (q q' : Queue) :
  loops q !! lid = Some (mkLoop cv st) → cv ≠ version q →
  e = Resumed lid ∨ (e = TaskSettled lid
                     ∧ (pauseOnError q = false ∨ st = AwaitTask Fulfils)) →
  step e q = Some q' →
  q' = set_loops (<[lid := mkLoop cv (Returned false)]> (loops q))
         (match e with TaskSettled _ => set_currentTaskKey None q | _ => q end)
  ∧ status q' = status q ∧ notified q' = notified q ∧ queue q' = queue q
  ∧ executed q' = executed q ∧ lastTaskError q' = lastTaskError q
  ∧ resumeResolve q' = resumeResolve q ∧ runner q' = runner q
  ∧ version q' = version q.
Proof.
  intros Hl Hv He Hs.
  assert (Hexit : ∀ q0, version q0 = version q →
            processLoop_iterate lid cv false q0
            = set_loops (<[lid := mkLoop cv (Returned false)]> (loops q0)) q0).
  { intros q0 H0. unfold processLoop_iterate, processLoop_exit. simpl.
    rewrite H0. rewrite (bool_decide_false (version q = cv)) by done.
    rewrite andb_false_r. simpl. by rewrite bool_decide_true. }
  assert (Hq' : q' = set_loops (<[lid := mkLoop cv (Returned false)]> (loops q))
         (match e with TaskSettled _ => set_currentTaskKey None q | _ => q end)).
  { revert Hs. unfold step. destruct (stack q); [|by destruct He as [->|[-> _]]].
    destruct He as [->|[-> Ho]]; rewrite Hl.
    - destruct st as [| |[]|]; try done. intros [= <-]. by apply Hexit.
    - destruct st as [|o| |]; try done. intros [= <-].
      unfold processLoop_settled.
      destruct o as [|err].
      + by rewrite Hexit.
      + destruct Ho as [Hp|[=]]. simpl. rewrite Hp. by rewrite Hexit. }
  split; [exact Hq'|]. rewrite Hq'.
  unfold status, lastTaskError. by destruct e.
Qed.

(** ** While the queue is paused *)

Lemma paused_iterate (lid cv : nat) (q : Queue) :
  _status q = Paused →
  _status (processLoop_iterate lid cv false q) = Paused
  ∧ executed (processLoop_iterate lid cv false q) = executed q
  ∧ notified (processLoop_iterate lid cv false q) = notified q.
Proof.
  unfold processLoop_iterate, processLoop_exit, yield_to_caller, await_resume,
    setStatus, isCancelled, isPaused.
  destruct q as [qu st rn rr le poe ck v ls sk asg ntf ex]. simpl.
  intros ->. simpl. by repeat (case_bool_decide; simpl).
Qed.

Lemma paused_call (op : Op) (q : Queue) :
  _status q = Paused →
  executed (call op q) = executed q
  ∧ (holding (Some op) →
     _status (call op q) = Paused ∧ notified (call op q) = notified q).
Proof.
  intros Hs. destruct op as [t k|t| | | | |]; simpl.
  - unfold addTask, enqueue, resurrect, isCancelled, isIdle, insert_entry.
    rewrite Hs. simpl. rewrite Hs.
    by destruct (truthy k && bool_decide (lastKey q = k)).
  - unfold addNextTask, enqueue, resurrect, isCancelled, isIdle, insert_entry.
    rewrite Hs. simpl. by rewrite Hs.
  - unfold pauseQueue, isProcessing. by rewrite Hs.
  - split; [|done]. unfold resumeQueue, isPaused, isIdle. rewrite Hs. simpl.
    rewrite setStatus_change by (simpl; congruence).
    unfold call_resumeResolve. simpl. by repeat case_match.
  - split; [|done]. unfold cancelQueue, isCancelled. rewrite Hs. simpl.
    unfold call_resumeResolve. simpl. repeat case_match; by fields.
  - unfold clearQueue, isProcessing, isPaused, isCancelled. simpl.
    by rewrite Hs.
  - done.
Qed.

Lemma paused_step (e : Event) (q q' : Queue) :
  _status q = Paused → step e q = Some q' →
  executed q' = executed q
  ∧ (holding (called e q) → _status q' = Paused ∧ notified q' = notified q).
Proof.
  intros Hp Hs. destruct (called e q) as [op|] eqn:Hc.
  - destruct (step_called e op q Hc) as (fs & Hs').
    rewrite Hs' in Hs. injection Hs as <-.
    by apply (paused_call op (set_stack fs q)).
  - revert Hc Hs. unfold called, step, tick.
    destruct e as [op| |lid|lid|lid], (stack q) as [|f fs]; try done.
    + destruct (fcalls f); [|done]. intros _ [= <-].
      unfold yield_to_caller. by destruct (fstart f).
    + destruct (loops q !! lid) as [[cv [|o|?|?]]|]; try done.
      intros _ [= <-]. unfold processLoop_settled.
      pose proof (paused_iterate lid cv (set_currentTaskKey None q) Hp)
        as (H1 & H2 & H3).
      destruct o as [|err]; [done|]. simpl.
      destruct (pauseOnError q); [|done].
      unfold await_resume, setStatus. simpl. rewrite Hp. by simpl.
    + destruct (loops q !! lid) as [[cv [|?|[]|?]]|]; try done.
      intros _ [= <-].
      by pose proof (paused_iterate lid cv q Hp) as (H1 & H2 & H3).
    + destruct (loops q !! lid) as [[cv [|?|?|[]]]|]; try done.
      by intros _ [= <-].
Qed.

(** X13.  While the queue is [Paused], processing is blocked.  No event at
    all invokes a task on a paused queue: not a loop that continues, not a
    submission, not even [resumeQueue] itself, which only releases the loop.
    And as long as neither [resumeQueue] nor [cancelQueue] is called, by a
    caller or by the task in flight, the queue stays [Paused], no task is
    invoked and no notification is fired, whatever else happens: tasks
    settle or fail, submissions are made, the pending collection is
    cleared. *)
Theorem paused_queue_invokes_no_task (q : Queue) :
  status q = Paused →
  (∀ e q1, step e q = Some q1 → executed q1 = executed q)
  ∧ (∀ es q', held es q → run es q = Some q' →
       status q' = Paused ∧ executed q' = executed q
       ∧ notified q' = notified q).
Proof.
  unfold status. intros Hp. split.
  - intros e q1 Hs. by apply (paused_step e q q1).
  - intros es. revert q Hp.
    induction es as [|e es IH]; intros q Hp q' Hh Hr; simpl in Hr, Hh.
    + by injection Hr as <-.
    + destruct (step e q) as [q1|] eqn:Hs; [|done]. destruct Hh as [Hc Hh].
      destruct (paused_step e q q1 Hp Hs) as (Hx & Hk).
      destruct (Hk Hc) as (Hp1 & Hn1).
      destruct (IH q1 Hp1 q' Hh Hr) as (H1 & H2 & H3).
      split; [done|]. split; congruence.
Qed.

(** ** While the queue is cancelled *)

Lemma cancelled_iterate (lid cv : nat) (q : Queue) :
  _status q = Cancelled →
  processLoop_iterate lid cv false q
  = set_loops (<[lid := mkLoop cv (Returned false)]> (loops q)) q.
Proof.
  intros Hs. unfold processLoop_iterate, processLoop_exit, isCancelled.
  rewrite Hs. simpl. by destruct (bool_decide (version q ≠ cv)).
Qed.

Lemma cancelled_call (op : Op) (q : Queue) :
  _status q = Cancelled → queue q = [] →
  match op with AddTask _ _ | AddNextTask _ => False | _ => True end →
  _status (call op q) = Cancelled ∧ executed (call op q) = executed q
  ∧ notified (call op q) = notified q ∧ queue (call op q) = [].
Proof.
  intros Hs Hq Hop. destruct op as [t k|t| | | | |]; simpl; try done.
  - unfold pauseQueue, isProcessing. by rewrite Hs.
  - unfold resumeQueue, isPaused, isIdle. rewrite Hs. simpl. by rewrite Hs.
  - unfold cancelQueue, isCancelled. by rewrite Hs.
  - unfold clearQueue, isProcessing, isPaused, isCancelled. simpl.
    by rewrite Hs.
Qed.

Lemma cancelled_step (e : Event) (q q' : Queue) :
  _status q = Cancelled → queue q = [] → inert q e → step e q = Some q' →
  _status q' = Cancelled ∧ executed q' = executed q
  ∧ notified q' = notified q ∧ queue q' = []
  ∧ pauseOnError q' = pauseOnError q.
Proof.
  intros Hc Hq Hi Hs.
  assert (Hp : pauseOnError q' = pauseOnError q) by by eapply pauseOnError_step.
  cut (_status q' = Cancelled ∧ executed q' = executed q
       ∧ notified q' = notified q ∧ queue q' = []);
    [by intros (? & ? & ? & ?)|].
  clear Hp. revert Hi. unfold inert.
  destruct (called e q) as [op|] eqn:Hcl.
  - destruct (step_called e op q Hcl) as (fs & Hs').
    rewrite Hs' in Hs. injection Hs as <-. intros Hi.
    apply (cancelled_call op (set_stack fs q)); [done|done|].
    by destruct op.
  - revert Hcl Hs. unfold called, failing, step, tick.
    destruct e as [op| |lid|lid|lid], (stack q) as [|f fs]; try done.
    + destruct (fcalls f); [|done]. intros _ [= <-] _.
      unfold yield_to_caller. by destruct (fstart f).
    + destruct (loops q !! lid) as [[cv [|o|?|?]]|]; try done.
      intros _ [= <-] Hi. unfold processLoop_settled.
      assert (H1 : _status (set_currentTaskKey None q) = Cancelled) by done.
      pose proof (cancelled_iterate lid cv _ H1) as Hit.
      destruct o as [|err]; [by rewrite Hit|]. simpl.
      destruct (pauseOnError q); [by specialize (Hi eq_refl)|].
      by rewrite cancelled_iterate.
    + destruct (loops q !! lid) as [[cv [|?|[]|?]]|]; try done.
      intros _ [= <-] _. by rewrite cancelled_iterate.
    + destruct (loops q !! lid) as [[cv [|?|?|[]]]|]; try done.
      by intros _ [= <-] _.
Qed.

(** X15.  Once cancelled, the queue stays as it is until a task is
    submitted.  On a [Cancelled] queue with nothing pending, as every
    cancelled queue reached from construction is, along any schedule on
    which no task is submitted and no task fails under [pauseOnError]: the
    status stays [Cancelled], no notification is fired, no task is invoked
    and nothing becomes pending, whatever happens: the task in flight at the
    cancellation settles, its loop returns, [pauseQueue], [resumeQueue],
    [clearQueue], [cancelQueue] are called. *)
Theorem cancelled_queue_stays_cancelled (es : list Event) (q q' : Queue) :
  status q = Cancelled → size q = 0 → dormant es q → run es q = Some q' →
  status q' = Cancelled ∧ notified q' = notified q
  ∧ executed q' = executed q ∧ size q' = 0.
Proof.
  unfold status, size. intros Hc Hq%length_zero_iff_nil. revert q Hc Hq.
  induction es as [|e es IH]; intros q Hc Hq Hd Hr; simpl in Hr, Hd.
  - injection Hr as <-. by rewrite Hq.
  - destruct (step e q) as [q1|] eqn:Hs; [|done]. destruct Hd as [Hi Hd].
    destruct (cancelled_step e q q1 Hc Hq Hi Hs) as (H1 & H2 & H3 & H4 & _).
    destruct (IH q1 H1 H4 Hd Hr) as (? & ? & ? & ?).
    split; [done|]. split; [congruence|]. split; [congruence|done].
Qed.

(** ** One loop at a time *)

Lemma single_from (q q' : Queue) :
  loops q' = loops q → version q' = version q → stack q' = stack q →
  _status q' = _status q ∨ _status q' = Processing ∨ _status q' = Paused →
  single_inv q → single_inv q'.
Proof.
  intros Hl Hv Hk Hs (HA & HB & HC & HF). unfold single_inv, live.
  rewrite Hl, Hv, Hk. split; [done|]. split; [done|]. split; [|done].
  intros i l Hi Hlive. destruct Hs as [->|Hs]; [by eapply HC | done].
Qed.

(** A change of generation leaves no loop live. *)
Lemma single_bump (q q' : Queue) :
  loops q' = loops q → version q' = S (version q) → stack q' = stack q →
  single_inv q → single_inv q'.
Proof.
  intros Hl Hv Hk (HA & HB & HC & HF). unfold single_inv, live.
  rewrite Hl, Hv, Hk.
  assert (Hno : ∀ i l, loops q !! i = Some l →
                  ¬ (currentVersion l = S (version q) ∧ returned (at_ l) = false)).
  { intros i l Hi [Hcv _]. apply HA in Hi. lia. }
  split; [|split; [|split]]; [| | |done].
  - intros i l Hi. apply HA in Hi. lia.
  - intros i j li lj Hi _ H _. by destruct (Hno i li Hi).
  - intros i l Hi H. by destruct (Hno i l Hi).
Qed.

(** A loop moves on: its generation is kept. *)
Lemma single_update (lid cv : nat) (st st' : LoopState) (q q' : Queue) :
  single_inv q → loops q !! lid = Some (mkLoop cv st) →
  loops q' = <[lid := mkLoop cv st']> (loops q) → version q' = version q →
  (returned st' = false → returned st = false) →
  (∀ f, f ∈ stack q' →
     (f ∈ stack q ∧ (returned st' = true → floop f ≠ lid))
     ∨ (floop f = lid ∧ returned st' = false)) →
  _status q' = _status q ∨ _status q' = Processing ∨ _status q' = Paused
  ∨ (cv = version q ∧ returned st = false ∧ returned st' = true) →
  single_inv q'.
Proof.
  intros (HA & HB & HC & HF) Hl Hl' Hv Hal Hk Hs.
  assert (Hlen : (lid < length (loops q))%nat) by by eapply lookup_lt_Some.
  assert (Hold : ∀ i l, loops q' !! i = Some l →
            ∃ l0, loops q !! i = Some l0
                  ∧ currentVersion l0 = currentVersion l
                  ∧ (returned (at_ l) = false → returned (at_ l0) = false)
                  ∧ (i = lid → l = mkLoop cv st')).
  { intros i l. rewrite Hl'. destruct (decide (i = lid)) as [->|Hne].
    - rewrite list_lookup_insert_eq by done. intros [= <-].
      by exists (mkLoop cv st).
    - rewrite list_lookup_insert_ne by done. intros Hi. by exists l. }
  unfold single_inv, live. rewrite Hv.
  split; [|split; [|split]].
  - intros i l Hi. destruct (Hold i l Hi) as (l0 & Hi0 & <- & _).
    by eapply HA.
  - intros i j li lj Hi Hj [Hci Hri] [Hcj Hrj].
    destruct (Hold i li Hi) as (li0 & Hi0 & Hc0 & Hr0 & _).
    destruct (Hold j lj Hj) as (lj0 & Hj0 & Hc1 & Hr1 & _).
    apply (HB i j li0 lj0); try done; split; auto; congruence.
  - intros i l Hi [Hci Hri].
    destruct (Hold i l Hi) as (l0 & Hi0 & Hc0 & Hr0 & Hlid).
    assert (Hlive0 : live q l0) by (split; [congruence | auto]).
    destruct Hs as [->|[?|[?|(Hcv & Hst & Hst')]]]; auto; [by eapply HC|].
    assert (i = lid) as ->.
    { apply (HB i lid l0 (mkLoop cv st)); try done. }
    rewrite (Hlid eq_refl) in Hri. simpl in Hri. congruence.
  - intros f Hf. rewrite Hl'. destruct (Hk f Hf) as [[Hf0 Hne]|[-> Hst']].
    + destruct (HF f Hf0) as (l & Hi & Hr).
      destruct (decide (floop f = lid)) as [E|E].
      * rewrite E, list_lookup_insert_eq by done. eexists. split; [done|].
        simpl. destruct (returned st') eqn:R; [|done]. by destruct Hne.
      * rewrite list_lookup_insert_ne by done. by exists l.
    + rewrite list_lookup_insert_eq by done. by eexists.
Qed.

Lemma single_call_resumeResolve (q : Queue) :
  single_inv q → single_inv (call_resumeResolve q).
Proof.
  intros H. unfold call_resumeResolve.
  destruct (resumeResolve q) as [lid|]; [|done].
  destruct (loops q !! lid) as [[cv [| |b|]]|] eqn:Hl; try done.
  eapply (single_update lid cv (AwaitResume b) (AwaitResume true) q);
    [done|done|done|done|done| |by left].
  intros f Hf. left. by split.
Qed.

Lemma single_yield (start : bool) (lid : nat) (q : Queue) :
  single_inv q → single_inv (yield_to_caller start lid q).
Proof.
  unfold yield_to_caller. destruct start; [|done].
  apply single_from; auto.
Qed.

Lemma single_exit (lid cv : nat) (st : LoopState) (q : Queue) :
  single_inv q → loops q !! lid = Some (mkLoop cv st) →
  returned st = false → (∀ f, f ∈ stack q → floop f ≠ lid) →
  single_inv (processLoop_exit lid cv q).
Proof.
  intros H Hl Hst Hk. unfold processLoop_exit.
  set (q0 := if bool_decide (version q ≠ cv) then q else _).
  assert (H0 : loops q0 = loops q ∧ version q0 = version q
               ∧ stack q0 = stack q).
  { subst q0. by repeat case_match; autorewrite with fields. }
  destruct H0 as (H1 & H2 & H3).
  eapply (single_update lid cv st (Returned false) q); simpl;
    [done|done|by rewrite H1|done|done| |].
  - rewrite H3. intros f Hf. left. split; [done|]. intros _. by apply Hk.
  - subst q0. case_bool_decide as Hv; [by left|].
    destruct (isCancelled q); [by left|].
    right; right; right. split; [|done]. by destruct (decide (version q = cv)).
Qed.

Lemma single_await_resume (lid cv : nat) (st : LoopState) (q : Queue) :
  single_inv q → loops q !! lid = Some (mkLoop cv st) →
  returned st = false → single_inv (await_resume lid cv q).
Proof.
  intros H Hl Hst. unfold await_resume.
  eapply (single_update lid cv st (AwaitResume false) q); try done;
    [|by left].
  simpl. intros f Hf. left. by split.
Qed.

Lemma single_iterate (lid cv : nat) (st : LoopState) (start : bool) (q : Queue) :
  single_inv q → loops q !! lid = Some (mkLoop cv st) →
  returned st = false → (∀ f, f ∈ stack q → floop f ≠ lid) →
  single_inv (processLoop_iterate lid cv start q).
Proof.
  intros H Hl Hst Hk. unfold processLoop_iterate.
  destruct (negb (isCancelled q) && bool_decide (version q = cv)) eqn:Hlive;
    [|by eapply single_yield, single_exit].
  destruct (isPaused q);
    [by eapply single_yield, single_await_resume|].
  destruct (queue q) as [|e rest] eqn:Hq;
    [by eapply single_yield, single_exit|].
  assert (H1 : single_inv (set_queue rest q)) by (revert H; by apply single_from; auto).
  destruct (isCancelled (set_queue rest q)
            || bool_decide (version (set_queue rest q) ≠ cv)).
  { by eapply single_yield, (single_exit lid cv st). }
  eapply (single_update lid cv st Running q); try done; simpl; [|by left].
  intros f [->|Hf]%elem_of_cons; [by right | left; by split].
Qed.

Lemma single_settled (lid cv : nat) (o : Outcome) (q : Queue) :
  single_inv q → loops q !! lid = Some (mkLoop cv (AwaitTask o)) →
  stack q = [] → single_inv (processLoop_settled lid cv o q).
Proof.
  intros H Hl Hk.
  assert (Hno : ∀ f, f ∈ stack (set_currentTaskKey None q) → floop f ≠ lid).
  { simpl. rewrite Hk. by intros f ?%elem_of_nil. }
  assert (H1 : single_inv (set_currentTaskKey None q))
    by (revert H; by apply single_from; auto).
  pose proof (single_iterate lid cv (AwaitTask o) false
                (set_currentTaskKey None q) H1 Hl eq_refl Hno) as Hi.
  unfold processLoop_settled. destruct o as [|err]; [exact Hi|]. simpl.
  destruct (pauseOnError q); [|exact Hi].
  eapply (single_await_resume _ _ (AwaitTask (Rejects err)));
    [|by autorewrite with fields|done].
  revert H. apply single_from; autorewrite with fields; simpl; auto.
Qed.

Lemma single_no_live (q : Queue) :
  single_inv q → _status q = Idle ∨ _status q = Cancelled →
  ∀ i l, loops q !! i = Some l → ¬ live q l.
Proof.
  intros (_ & _ & HC & _) Hs i l Hi Hlive.
  destruct (HC i l Hi Hlive) as [E|E]; rewrite E in Hs; by destruct Hs.
Qed.

Lemma single_startRunner (q : Queue) :
  _status q = Idle → single_inv q → single_inv (startRunner q).
Proof.
  intros Hs H. unfold startRunner, isCancelled. rewrite Hs. simpl.
  destruct (bool_decide (runner q ≠ None)); [done|].
  destruct (bool_decide (length (queue q) = 0)).
  { revert H. apply single_from; autorewrite with fields; auto. }
  unfold processLoop. autorewrite with fields.
  pose proof (single_no_live q H (or_introl Hs)) as Hno.
  destruct H as (HA & HB & HC & HF).
  eapply (single_iterate _ _ Running); simpl; autorewrite with fields.
  - unfold single_inv, live. simpl. autorewrite with fields.
    assert (Hlook : ∀ i l,
              (loops q ++ [mkLoop (version q) Running]) !! i = Some l →
              loops q !! i = Some l
              ∨ (i = length (loops q) ∧ l = mkLoop (version q) Running)).
    { intros i l Hi. apply lookup_app_Some in Hi as [Hi|[Hge Hi]]; [by left|].
      right. apply list_lookup_singleton_Some in Hi as [Hi <-].
      split; [lia|done]. }
    split; [|split; [|split]].
    + intros i l [Hi|[_ ->]]%Hlook; [by eapply HA | done].
    + intros i j li lj [Hi|[-> ->]]%Hlook [Hj|[-> ->]]%Hlook Hli Hlj;
        try done; exfalso; by eapply Hno.
    + intros _ _ _ _. by left.
    + intros f Hf. destruct (HF f Hf) as (l & Hi & Hr). exists l.
      split; [|done]. by apply lookup_app_l_Some.
  - by rewrite lookup_app_r, Nat.sub_diag.
  - done.
  - intros f Hf. destruct (HF f Hf) as (l & Hi & _).
    apply lookup_lt_Some in Hi. lia.
Qed.

Lemma single_resurrect (q : Queue) : single_inv q → single_inv (resurrect q).
Proof.
  unfold resurrect. destruct (isCancelled q); [|done].
  by apply single_bump.
Qed.

Lemma single_enqueue (t : Task) (p : Position) (k : option string) (q : Queue) :
  single_inv q → single_inv (enqueue t p k q).
Proof.
  intros H%single_resurrect. unfold enqueue.
  assert (H1 : single_inv (insert_entry p (mkEntry t k) (resurrect q)))
    by (revert H; destruct p; by apply single_from; auto).
  destruct (bool_decide (p = end_) && truthy k
            && bool_decide (lastKey (resurrect q) = k)).
  - unfold isIdle. case_bool_decide; simpl; [|done].
    destruct (bool_decide (0 < length (queue (resurrect q)))); [|done].
    by apply single_startRunner.
  - unfold isIdle. case_bool_decide as Hs; [|done].
    apply single_startRunner; [|done]. by destruct p.
Qed.

Lemma single_call (op : Op) (q : Queue) :
  single_inv q → single_inv (call op q).
Proof.
  intros H. destruct op; simpl.
  - by apply single_enqueue.
  - by apply single_enqueue.
  - unfold pauseQueue. destruct (isProcessing q); [|done].
    revert H. apply single_from; autorewrite with fields; auto.
  - unfold resumeQueue.
    set (q1 := if isPaused q then _ else q).
    assert (H1 : single_inv q1).
    { subst q1. destruct (isPaused q); [|done].
      assert (H2 : single_inv (setStatus Processing (set_lastError None q)))
        by (revert H; apply single_from; autorewrite with fields; auto).
      apply single_call_resumeResolve in H2. revert H2.
      by apply single_from; auto. }
    unfold isIdle. case_bool_decide; simpl; [|done].
    destruct (bool_decide (0 < length (queue q1))); [|done].
    by apply single_startRunner.
  - unfold cancelQueue. destruct (isCancelled q); [done|].
    assert (H2 : single_inv (set_version (S (version (set_currentTaskKey None
                   (set_queue [] (setStatus Cancelled q)))))
                   (set_currentTaskKey None (set_queue []
                      (setStatus Cancelled q)))))
      by (revert H; apply single_bump; simpl; by autorewrite with fields).
    apply single_call_resumeResolve in H2. revert H2.
    by apply single_from; auto.
  - unfold clearQueue, isProcessing, isPaused, isCancelled. simpl.
    assert (H1 : single_inv (set_queue [] q))
      by (revert H; by apply single_from; auto).
    destruct (negb (bool_decide (_status q = Processing))
              && negb (bool_decide (_status q = Paused))
              && negb (bool_decide (_status q = Cancelled))) eqn:E; [|done].
    revert H. apply single_from; autorewrite with fields; simpl; auto.
    left. destruct (_status q); done.
  - revert H. by apply single_from; auto.
Qed.

Lemma single_step (e : Event) (q q' : Queue) :
  step e q = Some q' → single_inv q → single_inv q'.
Proof.
  intros Hs H. revert Hs. unfold step.
  destruct (stack q) as [|f fs] eqn:Hst.
  - assert (Hno : ∀ lid f, f ∈ stack q → floop f ≠ lid)
      by (rewrite Hst; by intros lid f ?%elem_of_nil).
    destruct e as [op| |lid|lid|lid]; try done.
    + intros [= <-]. by apply single_call.
    + destruct (loops q !! lid) as [[cv [|o|?|?]]|] eqn:E; try done.
      intros [= <-]. by apply single_settled.
    + destruct (loops q !! lid) as [[cv [|?|[]|?]]|] eqn:E; try done.
      intros [= <-]. eapply single_iterate; eauto.
    + destruct (loops q !! lid) as [[cv [|?|?|[]]]|] eqn:E; try done.
      intros [= <-].
      eapply (single_update lid cv (Returned false) (Returned true) q);
        try done; simpl; [|by left].
      rewrite Hst. by intros f ?%elem_of_nil.
  - destruct e; try done. intros [= <-]. unfold tick.
    pose proof H as (HA & HB & HC & HF).
    destruct (HF f) as ([cv st] & Hl & Hr); [rewrite Hst; by left|].
    simpl in Hr.
    destruct (fcalls f) as [|c cs].
    + rewrite Hl. simpl. apply single_yield.
      eapply (single_update (floop f) cv st (AwaitTask (foutcome f)) q);
        try done; simpl; [|by left].
      intros f' Hf'. left. split; [|done]. rewrite Hst. by right.
    + apply single_call.
      destruct H as (_ & _ & _ & _).
      split; [done|]. split; [done|]. split; [done|]. simpl.
      intros f' [->|Hf']%elem_of_cons.
      * simpl. by eexists.
      * apply HF. rewrite Hst. by right.
Qed.

Lemma single_run (es : list Event) (q q' : Queue) :
  run es q = Some q' → single_inv q → single_inv q'.
Proof.
  revert q. induction es as [|e es IH]; simpl; intros q Hr H.
  - by simplify_eq.
  - destruct (step e q) as [q1|] eqn:Hs; [|done].
    eauto using single_step.
Qed.

Lemma single_new (p : bool) : single_inv (new_Queue p).
Proof.
  split; [|split; [|split]]; simpl.
  - intros i l Hi. by rewrite lookup_nil in Hi.
  - intros i j li lj Hi. by rewrite lookup_nil in Hi.
  - intros i l Hi. by rewrite lookup_nil in Hi.
  - by intros f ?%elem_of_nil.
Qed.

(** X14.  One loop at a time.  On every queue reached from construction, at
    most one loop is live, that is has not returned and has the generation
    of the queue; a live loop exists only while the status is [Processing]
    or [Paused]; and no loop has a generation ahead of that of the queue.
    The loops that are not live have returned or are stale, and a stale loop
    takes no entry. *)
Theorem one_live_loop (p : bool) (es : list Event) (q : Queue) :
  run es (new_Queue p) = Some q →
  (∀ i j li lj, loops q !! i = Some li → loops q !! j = Some lj →
     live q li → live q lj → i = j)
  ∧ (∀ l, l ∈ loops q → live q l →
       status q = Processing ∨ status q = Paused)
  ∧ (∀ l, l ∈ loops q → (currentVersion l ≤ version q)%nat).
Proof.
  intros Hr.
  destruct (single_run es _ q Hr (single_new p)) as (HA & HB & HC & _).
  split; [exact HB|]. split.
  - intros l [i Hi]%list_elem_of_lookup. by apply (HC i).
  - intros l [i Hi]%list_elem_of_lookup. by apply (HA i).
Qed.

(** X14 on the queue with two loops blocked on the resume signal: the
    first one is of generation 0, the second one of the generation of the
    queue, 2. *)
Lemma one_live_loop_witness :
  run Cases.overlap (new_Queue true) = Some Cases.two_blocked ∧
  loops Cases.two_blocked
  = [mkLoop 0 (AwaitResume false); mkLoop 2 (AwaitResume false)] ∧
  version Cases.two_blocked = 2 ∧ status Cases.two_blocked = Paused ∧
  (∀ i j li lj,
     loops Cases.two_blocked !! i = Some li →
     loops Cases.two_blocked !! j = Some lj →
     live Cases.two_blocked li → live Cases.two_blocked lj → i = j)
  ∧ (∀ l, l ∈ loops Cases.two_blocked → live Cases.two_blocked l →
       status Cases.two_blocked = Processing
       ∨ status Cases.two_blocked = Paused)
  ∧ (∀ l, l ∈ loops Cases.two_blocked →
       (currentVersion l ≤ version Cases.two_blocked)%nat).
Proof.
  assert (Hr : run Cases.overlap (new_Queue true) = Some Cases.two_blocked)
    by reflexivity.
  split; [exact Hr|]. split; [reflexivity|]. split; [reflexivity|].
  split; [reflexivity|].
  exact (one_live_loop true Cases.overlap Cases.two_blocked Hr).
Defined.

(** ** These properties at concrete queues *)

(** X10 on the queue with task 1 in flight: the call pauses it, and the
    loop, which awaits task 1, is not touched. *)
Lemma pauseQueue_effect_witness :
  status Scenario.busy = Processing ∧
  status (pauseQueue Scenario.busy) = Paused ∧
  notified (pauseQueue Scenario.busy) = [Idle; Processing; Paused] ∧
  loops (pauseQueue Scenario.busy) = [mkLoop 0 (AwaitTask Fulfils)] ∧
  pending_names (pauseQueue Scenario.busy) = [2; 3].
Proof.
  destruct (pauseQueue_effect Scenario.busy) as (H & _ & _).
  destruct (H eq_refl) as (_ & H1 & H2 & H3 & H4 & _).
  split; [reflexivity|]. split; [exact H1|]. split; [exact H2|].
  split; [exact H4|]. unfold pending_names. rewrite H3. reflexivity.
Defined.

(** X11 on the queue paused by the failure of its first task: the error is
    cleared and the loop released; task 2 is still pending. *)
Lemma resumeQueue_effect_witness :
  status Scenario.paused_on_error = Paused ∧
  lastTaskError Scenario.paused_on_error = Some (mkError "boom") ∧
  status (resumeQueue Scenario.paused_on_error) = Processing ∧
  lastTaskError (resumeQueue Scenario.paused_on_error) = None ∧
  loops (resumeQueue Scenario.paused_on_error) = [mkLoop 0 (AwaitResume true)] ∧
  executed (resumeQueue Scenario.paused_on_error) = [1] ∧
  pending_names (resumeQueue Scenario.paused_on_error) = [2].
Proof.
  destruct (resumeQueue_effect Scenario.paused_on_error) as (H & _ & _).
  destruct (H eq_refl) as (H1 & _ & H3 & _ & H5 & H6 & _ & _ & H9).
  split; [reflexivity|]. split; [reflexivity|]. split; [exact H1|].
  split; [exact H3|]. split; [exact H9|]. split; [exact H6|].
  unfold pending_names. rewrite H5. reflexivity.
Defined.

(** X12 on the queue cancelled while task 1 is in flight: task 1 settles,
    and its loop, of generation 0 on a queue of generation 1, returns. *)
Lemma stale_loop_just_returns_witness :
  loops Scenario.cancelled_in_flight !! 0 = Some (mkLoop 0 (AwaitTask Fulfils)) ∧
  version Scenario.cancelled_in_flight = 1 ∧
  step (TaskSettled 0) Scenario.cancelled_in_flight
    = Some (processLoop_settled 0 0 Fulfils Scenario.cancelled_in_flight) ∧
  loops (processLoop_settled 0 0 Fulfils Scenario.cancelled_in_flight)
    = [mkLoop 0 (Returned false)] ∧
  status (processLoop_settled 0 0 Fulfils Scenario.cancelled_in_flight)
    = Cancelled ∧
  notified (processLoop_settled 0 0 Fulfils Scenario.cancelled_in_flight)
    = [Idle; Processing; Cancelled].
Proof.
  assert (Hl : loops Scenario.cancelled_in_flight !! 0
               = Some (mkLoop 0 (AwaitTask Fulfils))) by reflexivity.
  assert (Hs : step (TaskSettled 0) Scenario.cancelled_in_flight
               = Some (processLoop_settled 0 0 Fulfils
                         Scenario.cancelled_in_flight)) by reflexivity.
  assert (Hv : 0 ≠ version Scenario.cancelled_in_flight) by (simpl; lia).
  destruct (stale_loop_just_returns (TaskSettled 0) 0 0 (AwaitTask Fulfils)
              _ _ Hl Hv (or_intror (conj eq_refl (or_introl eq_refl))) Hs)
    as (Hq & H1 & H2 & _).
  split; [exact Hl|]. split; [reflexivity|]. split; [exact Hs|].
  split; [by rewrite Hq|]. split; [exact H1|exact H2].
Defined.

(** X13 on the queue paused while task 1 is in flight: task 1 settles, task
    4 is submitted, the stored error is cleared; nothing runs. *)
Lemma paused_queue_invokes_no_task_witness :
  status Cases.paused_busy = Paused ∧
  held Cases.while_paused Cases.paused_busy ∧
  run Cases.while_paused Cases.paused_busy
    = Some Cases.still_paused ∧
  pending_names Cases.still_paused = [2; 3; 4] ∧
  status Cases.still_paused = Paused ∧
  executed Cases.still_paused = executed Cases.paused_busy ∧
  notified Cases.still_paused = notified Cases.paused_busy.
Proof.
  assert (Hh : held Cases.while_paused Cases.paused_busy)
    by (simpl; tauto).
  assert (Hr : run Cases.while_paused Cases.paused_busy
               = Some Cases.still_paused) by reflexivity.
  destruct (paused_queue_invokes_no_task Cases.paused_busy eq_refl)
    as [_ H].
  split; [reflexivity|]. split; [exact Hh|]. split; [exact Hr|].
  split; [reflexivity|]. exact (H _ _ Hh Hr).
Defined.

(** X15 on the queue cancelled while task 1 is in flight. *)
Lemma cancelled_queue_stays_cancelled_witness :
  status Scenario.cancelled_in_flight = Cancelled ∧
  size Scenario.cancelled_in_flight = 0 ∧
  dormant Cases.while_cancelled Scenario.cancelled_in_flight ∧
  run Cases.while_cancelled Scenario.cancelled_in_flight
    = Some Cases.still_cancelled ∧
  loops Cases.still_cancelled = [mkLoop 0 (Returned true)] ∧
  status Cases.still_cancelled = Cancelled ∧
  notified Cases.still_cancelled = notified Scenario.cancelled_in_flight ∧
  executed Cases.still_cancelled = executed Scenario.cancelled_in_flight ∧
  size Cases.still_cancelled = 0.
Proof.
  assert (Hd : dormant Cases.while_cancelled Scenario.cancelled_in_flight)
    by (simpl; unfold inert; simpl; tauto).
  assert (Hr : run Cases.while_cancelled Scenario.cancelled_in_flight
               = Some Cases.still_cancelled) by reflexivity.
  split; [reflexivity|]. split; [reflexivity|]. split; [exact Hd|].
  split; [exact Hr|]. split; [reflexivity|].
  exact (cancelled_queue_stays_cancelled Cases.while_cancelled
           Scenario.cancelled_in_flight Cases.still_cancelled
           eq_refl eq_refl Hd Hr).
Defined.
